(** * CordleGame: the two-player word-guessing game of
      townService/src/town/games/CordleGame.ts

    The class [CordleGame] is embedded as a record (the game state plus the
    two private preferred-player fields) and its methods as computations in a
    small state-and-exception monad: a method receives the instance, may
    assign to [this.state], and either returns or throws.  A throwing
    computation still hands back the instance as it was at the [throw], so
    that "nothing was mutated before the error" is a statement to prove and
    not a consequence of the encoding. *)

From Stdlib Require Import String Ascii List Arith Bool Lia.
From stdpp Require Import base decidable option list strings.

Open Scope string_scope.
Open Scope list_scope.
Open Scope nat_scope.

(** ** Types of types/CoveyTownSocket used by the game *)

Inductive GameStatus := WAITING_FOR_PLAYERS | WAITING_TO_START | IN_PROGRESS | OVER.
Inductive CordlePlayerNumber := Player1 | Player2.
Inductive CordleCell := Green | Yellow | Gray.
Inductive CordleDifficulty := Easy | Medium | Hard.

Definition PlayerID := string.

(** Modelled from the spec: the declaration of [CordleGuessNumber] (in
    types/CoveyTownSocket) is not among the sources; the data model gives a
    guess the field [guessNumber (1..6)], and the tests cast [i + 1] for
    [i] in [0..5] to it. *)
Inductive CordleGuessNumber := GN1 | GN2 | GN3 | GN4 | GN5 | GN6.

Definition guessNumber_value (n : CordleGuessNumber) : nat :=
  match n with GN1 => 1 | GN2 => 2 | GN3 => 3 | GN4 => 4 | GN5 => 5 | GN6 => 6 end.

#[global] Instance GameStatus_eq_dec : EqDecision GameStatus.
Proof. solve_decision. Defined.
#[global] Instance CordlePlayerNumber_eq_dec : EqDecision CordlePlayerNumber.
Proof. solve_decision. Defined.
#[global] Instance CordleCell_eq_dec : EqDecision CordleCell.
Proof. solve_decision. Defined.
#[global] Instance CordleDifficulty_eq_dec : EqDecision CordleDifficulty.
Proof. solve_decision. Defined.

(** ** JavaScript values *)

(** A JavaScript array: a list of slots, [None] being a hole.  Reading a hole
    or past the end gives [undefined] ([None]); assigning past the end
    extends the array and leaves holes in between. *)
Abbreviation JSArray A := (list (option A)).

Definition js_get {A} (a : JSArray A) (i : nat) : option A := mjoin (a !! i).

Definition js_set {A} (a : JSArray A) (i : nat) (v : A) : JSArray A :=
  if decide (i < length a) then <[i := Some v]> a
  else a ++ replicate (i - length a) None ++ [Some v].

(** [Array.prototype.every] does not visit holes. *)
Definition js_every {A} (f : A -> bool) (a : JSArray A) : bool :=
  forallb (fun slot => match slot with Some x => f x | None => true end) a.

(** [Array.prototype.indexOf] with strict equality; [None] stands for [-1].
    Holes are never equal to the searched value. *)
Fixpoint js_indexOf (a : JSArray string) (x : option string) : option nat :=
  match a with
  | [] => None
  | slot :: a' =>
      if bool_decide (is_Some x /\ slot = x) then Some 0
      else S <$> js_indexOf a' x
  end.

(** [s[i]] on a string: the one-character string at [i], or [undefined].
    Words are strings of [ascii] characters. *)
Definition js_charAt (s : string) (i : nat) : option string :=
  (fun c => String c EmptyString) <$> String.get i s.

(** [s.split('')]: the array of the one-character strings of [s]. *)
Definition js_split (s : string) : JSArray string :=
  map (fun c => Some (String c EmptyString)) (list_ascii_of_string s).

(** Truthiness of an optional string: [undefined] and [''] are falsy. *)
Definition truthy (o : option string) : bool :=
  match o with
  | Some s => negb (String.eqb s "")
  | None => false
  end.

(** Truthiness of an optional boolean. *)
Definition truthyb (o : option bool) : bool := default false o.

(** [String.prototype.toUpperCase] on the ASCII letters; word files hold
    plain lowercase words. *)
Definition upper_ascii (c : ascii) : ascii :=
  let n := nat_of_ascii c in
  if Nat.leb 97 n && Nat.leb n 122 then ascii_of_nat (n - 32) else c.

Fixpoint toUpperCase (s : string) : string :=
  match s with
  | EmptyString => EmptyString
  | String c s' => String (upper_ascii c) (toUpperCase s')
  end.

(** ** The state of a game *)

Record CordleGuess := {
  player : PlayerID;
  guessedWord : string;
  guessNumber : CordleGuessNumber;
}.

Record CordleGameState := {
  guesses : list CordleGuess;
  status : GameStatus;
  firstPlayer : CordlePlayerNumber;
  cordle : option string;
  guessesEvaluated : JSArray (JSArray CordleCell);
  difficulty : option CordleDifficulty;
  player1 : option PlayerID;
  player2 : option PlayerID;
  player1Ready : option bool;
  player2Ready : option bool;
  winner : option PlayerID;
}.

Record CordleGame := {
  state : CordleGameState;
  _preferredPlayer1 : option PlayerID;
  _preferredPlayer2 : option PlayerID;
}.

(** The winner recorded when the guesses run out. *)
Definition DRAW : PlayerID := "DRAW".

(** Field assignments, [{...s, f: v}] and [s.f = v] alike. *)
Definition set_guesses (v : list CordleGuess) (s : CordleGameState) :=
  {| guesses := v; status := status s; firstPlayer := firstPlayer s;
     cordle := cordle s; guessesEvaluated := guessesEvaluated s;
     difficulty := difficulty s; player1 := player1 s; player2 := player2 s;
     player1Ready := player1Ready s; player2Ready := player2Ready s;
     winner := winner s |}.
Definition set_status (v : GameStatus) (s : CordleGameState) :=
  {| guesses := guesses s; status := v; firstPlayer := firstPlayer s;
     cordle := cordle s; guessesEvaluated := guessesEvaluated s;
     difficulty := difficulty s; player1 := player1 s; player2 := player2 s;
     player1Ready := player1Ready s; player2Ready := player2Ready s;
     winner := winner s |}.
Definition set_firstPlayer (v : CordlePlayerNumber) (s : CordleGameState) :=
  {| guesses := guesses s; status := status s; firstPlayer := v;
     cordle := cordle s; guessesEvaluated := guessesEvaluated s;
     difficulty := difficulty s; player1 := player1 s; player2 := player2 s;
     player1Ready := player1Ready s; player2Ready := player2Ready s;
     winner := winner s |}.
Definition set_cordle (v : option string) (s : CordleGameState) :=
  {| guesses := guesses s; status := status s; firstPlayer := firstPlayer s;
     cordle := v; guessesEvaluated := guessesEvaluated s;
     difficulty := difficulty s; player1 := player1 s; player2 := player2 s;
     player1Ready := player1Ready s; player2Ready := player2Ready s;
     winner := winner s |}.
Definition set_guessesEvaluated (v : JSArray (JSArray CordleCell)) (s : CordleGameState) :=
  {| guesses := guesses s; status := status s; firstPlayer := firstPlayer s;
     cordle := cordle s; guessesEvaluated := v;
     difficulty := difficulty s; player1 := player1 s; player2 := player2 s;
     player1Ready := player1Ready s; player2Ready := player2Ready s;
     winner := winner s |}.
Definition set_difficulty (v : option CordleDifficulty) (s : CordleGameState) :=
  {| guesses := guesses s; status := status s; firstPlayer := firstPlayer s;
     cordle := cordle s; guessesEvaluated := guessesEvaluated s;
     difficulty := v; player1 := player1 s; player2 := player2 s;
     player1Ready := player1Ready s; player2Ready := player2Ready s;
     winner := winner s |}.
Definition set_player1 (v : option PlayerID) (s : CordleGameState) :=
  {| guesses := guesses s; status := status s; firstPlayer := firstPlayer s;
     cordle := cordle s; guessesEvaluated := guessesEvaluated s;
     difficulty := difficulty s; player1 := v; player2 := player2 s;
     player1Ready := player1Ready s; player2Ready := player2Ready s;
     winner := winner s |}.
Definition set_player2 (v : option PlayerID) (s : CordleGameState) :=
  {| guesses := guesses s; status := status s; firstPlayer := firstPlayer s;
     cordle := cordle s; guessesEvaluated := guessesEvaluated s;
     difficulty := difficulty s; player1 := player1 s; player2 := v;
     player1Ready := player1Ready s; player2Ready := player2Ready s;
     winner := winner s |}.
Definition set_player1Ready (v : option bool) (s : CordleGameState) :=
  {| guesses := guesses s; status := status s; firstPlayer := firstPlayer s;
     cordle := cordle s; guessesEvaluated := guessesEvaluated s;
     difficulty := difficulty s; player1 := player1 s; player2 := player2 s;
     player1Ready := v; player2Ready := player2Ready s;
     winner := winner s |}.
Definition set_player2Ready (v : option bool) (s : CordleGameState) :=
  {| guesses := guesses s; status := status s; firstPlayer := firstPlayer s;
     cordle := cordle s; guessesEvaluated := guessesEvaluated s;
     difficulty := difficulty s; player1 := player1 s; player2 := player2 s;
     player1Ready := player1Ready s; player2Ready := v;
     winner := winner s |}.
Definition set_winner (v : option PlayerID) (s : CordleGameState) :=
  {| guesses := guesses s; status := status s; firstPlayer := firstPlayer s;
     cordle := cordle s; guessesEvaluated := guessesEvaluated s;
     difficulty := difficulty s; player1 := player1 s; player2 := player2 s;
     player1Ready := player1Ready s; player2Ready := player2Ready s;
     winner := v |}.

(** ** Methods as computations on the instance *)

(** The messages of lib/InvalidParametersError that the game throws, and the
    message of the [default] branch of [_leave]. *)
Inductive Error :=
  | PLAYER_ALREADY_IN_GAME_MESSAGE
  | GAME_FULL_MESSAGE
  | PLAYER_NOT_IN_GAME_MESSAGE
  | GAME_NOT_STARTABLE_MESSAGE
  | GAME_NOT_IN_PROGRESS_MESSAGE
  | MOVE_NOT_YOUR_TURN_MESSAGE
  | UNEXPECTED_GAME_STATUS.

Inductive Completion (A : Type) :=
  | Normal (a : A)
  | Throw (e : Error).
Arguments Normal {A} a.
Arguments Throw {A} e.

Definition M (A : Type) : Type := CordleGame -> Completion A * CordleGame.

#[global] Instance M_ret : MRet M := fun A a this => (Normal a, this).
#[global] Instance M_bind : MBind M := fun A B f m this =>
  match m this with
  | (Normal a, this') => f a this'
  | (Throw e, this') => (Throw e, this')
  end.

Definition throw {A} (e : Error) : M A := fun this => (Throw e, this).
Definition getState : M CordleGameState := fun this => (Normal (state this), this).
Definition getThis : M CordleGame := fun this => (Normal this, this).
Definition setState (s : CordleGameState) : M unit := fun this =>
  (Normal tt, {| state := s;
                 _preferredPlayer1 := _preferredPlayer1 this;
                 _preferredPlayer2 := _preferredPlayer2 this |}).
Definition modifyState (f : CordleGameState -> CordleGameState) : M unit :=
  s ← getState; setState (f s).
Definition when (b : bool) (m : M unit) : M unit := if b then m else mret tt.

(** *** Scoring: the two loops of [_applyGuess] *)

(** Body of the first loop, at index [i]. *)
Definition greenStep (guessedWord : string)
    (acc : JSArray CordleCell * JSArray string) (i : nat) :=
  let '(guessColors, cordleCopy) := acc in
  if bool_decide (js_charAt guessedWord i = js_get cordleCopy i)
  then (js_set guessColors i Green, js_set cordleCopy i "")
  else (js_set guessColors i Gray, cordleCopy).

(** Body of the second loop, at index [i]. *)
Definition yellowStep (guessedWord : string)
    (acc : JSArray CordleCell * JSArray string) (i : nat) :=
  let '(guessColors, cordleCopy) := acc in
  if bool_decide (js_get guessColors i = Some Gray) then
    match js_indexOf cordleCopy (js_charAt guessedWord i) with
    | Some indexInCordle =>
        (js_set guessColors i Yellow, js_set cordleCopy indexInCordle "")
    | None => acc
    end
  else acc.

(** The local [guessColors] once both loops have run. *)
Definition guessColors (cordle : option string) (guessedWord : string)
    : JSArray CordleCell :=
  let n := String.length guessedWord in
  let cordleCopy := js_split (default "" cordle) in
  let pass1 := fold_left (greenStep guessedWord) (seq 0 n) ([], cordleCopy) in
  fst (fold_left (yellowStep guessedWord) (seq 0 n) pass1).

(** *** The class *)

Definition getOtherPlayerNumber (number : CordlePlayerNumber) : CordlePlayerNumber :=
  match number with
  | Player2 => Player1
  | Player1 => Player2
  end.

(** [new CordleGame(priorGame)].  The fields that the constructor does not
    list ([player1], [player2], the ready flags, [winner]) start undefined. *)
Definition new_CordleGame (priorGame : option CordleGame) : CordleGame :=
  {| state :=
       {| guesses := [];
          status := WAITING_FOR_PLAYERS;
          firstPlayer :=
            getOtherPlayerNumber
              (default Player2 ((fun g => firstPlayer (state g)) <$> priorGame));
          cordle := None;
          guessesEvaluated := [];
          difficulty := None;
          player1 := None; player2 := None;
          player1Ready := None; player2Ready := None;
          winner := None |};
     _preferredPlayer1 := priorGame ≫= (fun g => player1 (state g));
     _preferredPlayer2 := priorGame ≫= (fun g => player2 (state g)) |}.

(** [_join(player)]; only [player.id] is read, here and below. *)
Definition _join (player : PlayerID) : M unit :=
  this ← getThis;
  if bool_decide (player1 (state this) = Some player)
     || bool_decide (player2 (state this) = Some player)
  then throw PLAYER_ALREADY_IN_GAME_MESSAGE
  else
    (if bool_decide (_preferredPlayer1 this = Some player)
        && negb (truthy (player1 (state this)))
     then setState (set_player1 (Some player)
                      (set_status WAITING_FOR_PLAYERS (state this)))
     else if bool_decide (_preferredPlayer2 this = Some player)
             && negb (truthy (player2 (state this)))
     then setState (set_player2 (Some player)
                      (set_status WAITING_FOR_PLAYERS (state this)))
     else if negb (truthy (player1 (state this)))
     then setState (set_player1 (Some player)
                      (set_status WAITING_FOR_PLAYERS (state this)))
     else if negb (truthy (player2 (state this)))
     then setState (set_player2 (Some player)
                      (set_status WAITING_FOR_PLAYERS (state this)))
     else throw GAME_FULL_MESSAGE);;
    s ← getState;
    when (truthy (player1 s) && truthy (player2 s))
         (modifyState (set_status WAITING_TO_START)).

(** The three word files that [startGame] may read. *)
Inductive WordsFile := easy_words | medium_words | hard_words.

(** The local [selectedCordle] of [startGame]: [''] unless a difficulty is
    set, else the word drawn from the file of that difficulty. *)
Definition selectedCordle (selectRandomWord : WordsFile -> string)
    (difficulty : option CordleDifficulty) : string :=
  match difficulty with
  | Some Easy => selectRandomWord easy_words
  | Some Medium => selectRandomWord medium_words
  | Some Hard => selectRandomWord hard_words
  | None => ""
  end.

(** [startGame(player)].  [_selectRandomWord] reads a file and draws at
    random; the word it returns in this call is the argument
    [selectRandomWord], one answer per file since at most one file is read.
    The files are taken to be present: a failing read is outside the model. *)
Definition startGame (selectRandomWord : WordsFile -> string) (player : PlayerID)
    : M unit :=
  s ← getState;
  if negb (bool_decide (status s = WAITING_TO_START))
  then throw GAME_NOT_STARTABLE_MESSAGE
  else if negb (bool_decide (player1 s = Some player))
          && negb (bool_decide (player2 s = Some player))
  then throw PLAYER_NOT_IN_GAME_MESSAGE
  else
    when (bool_decide (player1 s = Some player))
         (modifyState (set_player1Ready (Some true)));;
    s ← getState;
    when (bool_decide (player2 s = Some player))
         (modifyState (set_player2Ready (Some true)));;
    this ← getThis;
    when (negb (bool_decide (_preferredPlayer1 this = player1 (state this))
                || bool_decide (_preferredPlayer2 this = player2 (state this))))
         (modifyState (set_firstPlayer Player1));;
    s ← getState;
    when (truthy (player1 s) && truthy (player2 s))
         (when ((bool_decide (firstPlayer s = Player1)
                 && bool_decide (Some player = player1 s))
                || (bool_decide (firstPlayer s = Player2)
                    && bool_decide (Some player = player2 s)))
               (modifyState
                  (set_cordle
                     (Some (toUpperCase
                              (selectedCordle selectRandomWord (difficulty s))))));;
          s ← getState;
          setState (set_status
                      (if truthyb (player1Ready s) && truthyb (player2Ready s)
                       then IN_PROGRESS else WAITING_TO_START) s)).

Definition setDifficultyLevel (difficulty : CordleDifficulty) : M unit :=
  modifyState (set_difficulty (Some difficulty)).

(** The closure [removePlayer] of [_leave]. *)
Definition removePlayer (playerID : PlayerID) : M CordlePlayerNumber :=
  s ← getState;
  if bool_decide (player1 s = Some playerID)
  then setState (set_player1Ready (Some false) (set_player1 None s));;
       mret Player1
  else if bool_decide (player2 s = Some playerID)
  then setState (set_player2Ready (Some false) (set_player2 None s));;
       mret Player2
  else throw PLAYER_NOT_IN_GAME_MESSAGE.

(** [_leave(player)].  The [switch] is on the status read after the removal;
    its [default] branch is the only case left for [OVER]. *)
Definition _leave (player : PlayerID) : M unit :=
  s ← getState;
  if bool_decide (status s = OVER) then mret tt
  else
    playerLeft ← removePlayer player;
    s ← getState;
    match status s with
    | WAITING_TO_START | WAITING_FOR_PLAYERS =>
        setState (set_status WAITING_FOR_PLAYERS s)
    | IN_PROGRESS =>
        setState (set_winner
                    (match playerLeft with
                     | Player1 => player2 s
                     | Player2 => player1 s
                     end)
                    (set_status OVER s))
    | OVER => throw UNEXPECTED_GAME_STATUS
    end.

Definition whoseTurn : M CordlePlayerNumber :=
  s ← getState;
  let nextPlayer :=
    match firstPlayer s with
    | Player1 => if Nat.eqb (length (guesses s) mod 2) 0 then Player1 else Player2
    | Player2 => if Nat.eqb (length (guesses s) mod 2) 0 then Player2 else Player1
    end in
  mret nextPlayer.

(** [_applyGuess(guess)]. *)
Definition _applyGuess (guess : CordleGuess) : M unit :=
  modifyState (fun s => set_guesses (guesses s ++ [guess]) s);;
  s ← getState;
  let guessColors := guessColors (cordle s) (guessedWord guess) in
  setState (set_guessesEvaluated
              (js_set (guessesEvaluated s)
                      (guessNumber_value (guessNumber guess) - 1) guessColors)
              s);;
  when (js_every (fun color => bool_decide (color = Green)) guessColors)
       (modifyState (set_status OVER);;
        modifyState (set_winner (Some (player guess))));;
  s ← getState;
  when (Nat.leb 6 (length (guesses s)) && negb (truthy (winner s)))
       (modifyState (set_status OVER);;
        modifyState (set_winner (Some DRAW))).

(** [applyMove(move)]; only [move.move] is read. *)
Definition applyMove (move : CordleGuess) : M unit :=
  s ← getState;
  if negb (bool_decide (status s = IN_PROGRESS))
  then throw GAME_NOT_IN_PROGRESS_MESSAGE
  else
    turn1 ← whoseTurn;
    let mover : option PlayerID :=
      if bool_decide (turn1 = Player1) then player1 s else None in
    turn2 ← whoseTurn;
    let mover : option PlayerID :=
      if bool_decide (turn2 = Player2) then player2 s else mover in
    if negb (bool_decide (Some (player move) = mover))
    then throw MOVE_NOT_YOUR_TURN_MESSAGE
    else _applyGuess move.

(** The length test of [makeMove] in the frontend controller, made before a
    guess is sent to the game: [guess.length !== 5] throws
    [WORD_WRONG_LENGTH_MESSAGE]. *)
Definition makeMove_wrongLength (guess : string) : bool :=
  negb (Nat.eqb (String.length guess) 5).

(** ** Sequences of calls on one instance *)

(** The calls that the game area makes on an instance.  [join] and [leave]
    belong to the base class [Game], which is not among the sources; they
    are taken to run [_join] and [_leave] on the state. *)
Inductive Command :=
  | Join (player : PlayerID)
  | Leave (player : PlayerID)
  | Start (selectRandomWord : WordsFile -> string) (player : PlayerID)
  | SetDifficulty (difficulty : CordleDifficulty)
  | ApplyMove (move : CordleGuess).

Definition exec (c : Command) : M unit :=
  match c with
  | Join p => _join p
  | Leave p => _leave p
  | Start w p => startGame w p
  | SetDifficulty d => setDifficultyLevel d
  | ApplyMove m => applyMove m
  end.

(** The instance after a call, whether it returned or threw. *)
Definition after (c : Command) (this : CordleGame) : CordleGame := snd (exec c this).

Definition run (cs : list Command) (this : CordleGame) : CordleGame :=
  fold_left (fun g c => after c g) cs this.

(** ** The scoring rule in the words of the specification

    A working copy [C] of the secret's letters, one slot per letter, a slot
    being [None] once its letter is erased. *)

Module TwoPass.

(** First pass, left to right: position [i] is [Green] when [G[i]] is the
    letter in slot [i] of the copy, and that slot is erased; otherwise it
    is tentatively [Gray]. *)
Fixpoint firstPass (G : list ascii) (C : list (option ascii))
    : list CordleCell * list (option ascii) :=
  match G, C with
  | [], _ => ([], C)
  | _ :: G', [] => let '(row, C') := firstPass G' [] in (Gray :: row, C')
  | g :: G', c :: C' =>
      let '(row, C'') := firstPass G' C' in
      if bool_decide (c = Some g) then (Green :: row, None :: C'')
      else (Gray :: row, c :: C'')
  end.

(** Erase the leftmost remaining occurrence of [g], if there is one. *)
Fixpoint eraseLeftmost (g : ascii) (C : list (option ascii))
    : option (list (option ascii)) :=
  match C with
  | [] => None
  | c :: C' =>
      if bool_decide (c = Some g) then Some (None :: C')
      else (fun C'' => c :: C'') <$> eraseLeftmost g C'
  end.

(** Second pass, left to right, over the positions still [Gray]. *)
Fixpoint secondPass (G : list ascii) (row : list CordleCell)
    (C : list (option ascii)) : list CordleCell :=
  match G, row with
  | g :: G', Gray :: row' =>
      match eraseLeftmost g C with
      | Some C' => Yellow :: secondPass G' row' C'
      | None => Gray :: secondPass G' row' C
      end
  | _ :: G', cell :: row' => cell :: secondPass G' row' C
  | _, _ => []
  end.

Definition colorRow (S G : string) : list CordleCell :=
  let '(row, C) :=
    firstPass (list_ascii_of_string G) (Some <$> list_ascii_of_string S) in
  secondPass (list_ascii_of_string G) row C.

(** Number of Green or Yellow cells of [row] that sit under the letter [x]
    of the guess. *)
Fixpoint hits (x : ascii) (G : list ascii) (row : list CordleCell) : nat :=
  match G, row with
  | g :: G', cell :: row' =>
      (if bool_decide (g = x /\ cell <> Gray) then 1 else 0) + hits x G' row'
  | _, _ => 0
  end.

(** Number of slots of a copy that still hold the letter [x]. *)
Definition remaining (x : ascii) (C : list (option ascii)) : nat :=
  length (filter (fun c => c = Some x) C).

(** Number of occurrences of the letter [x] in a word. *)
Definition occurrences (x : ascii) (S : string) : nat :=
  remaining x (Some <$> list_ascii_of_string S).

End TwoPass.

(** ** Vocabulary of the statements *)

(** The occupant of a slot. *)
Definition occupant (n : CordlePlayerNumber) (s : CordleGameState) : option PlayerID :=
  match n with
  | Player1 => player1 s
  | Player2 => player2 s
  end.

(** Turn derivation in the words of the specification: the first player acts
    when the number of guesses is even, the other one when it is odd. *)
Definition actingSlot (first : CordlePlayerNumber) (n : nat) : CordlePlayerNumber :=
  match first with
  | Player1 => if Nat.even n then Player1 else Player2
  | Player2 => if Nat.even n then Player2 else Player1
  end.

(** The test of [startGame] on the preferred players: the preferred player 1
    is the occupant of slot 1, or the preferred player 2 that of slot 2. *)
Definition preferredInSlot (this : CordleGame) : bool :=
  bool_decide (_preferredPlayer1 this = player1 (state this))
  || bool_decide (_preferredPlayer2 this = player2 (state this)).

(** The value that the constructor gives to [firstPlayer]. *)
Definition constructedFirstPlayer (priorGame : option CordleGame) : CordlePlayerNumber :=
  match priorGame with
  | Some g => getOtherPlayerNumber (firstPlayer (state g))
  | None => Player1
  end.

Definition returns {A} (r : Completion A * CordleGame) : bool :=
  match r.1 with
  | Normal _ => true
  | Throw _ => false
  end.

Definition isJoin (c : Command) : bool :=
  match c with
  | Join _ => true
  | _ => false
  end.

Definition isStart (c : Command) : bool :=
  match c with
  | Start _ _ => true
  | _ => false
  end.

(** Calls that leave the slots as they are. *)
Definition keepsPlayers (c : Command) : bool :=
  match c with
  | Join _ | Leave _ => false
  | _ => true
  end.

(** No [Join] of the sequence is issued on an instance that is already
    [OVER]. *)
Fixpoint neverJoinsOver (cs : list Command) (this : CordleGame) : bool :=
  match cs with
  | [] => true
  | c :: cs' =>
      negb (isJoin c && bool_decide (status (state this) = OVER))
      && neverJoinsOver cs' (after c this)
  end.

(** Every guess of the sequence that [applyMove] accepts carries the number
    of guesses made so far plus one. *)
Fixpoint numberedInOrder (cs : list Command) (this : CordleGame) : bool :=
  match cs with
  | [] => true
  | c :: cs' =>
      match c with
      | ApplyMove move =>
          implb (returns (applyMove move this))
                (Nat.eqb (guessNumber_value (guessNumber move))
                         (length (guesses (state this)) + 1))
      | _ => true
      end
      && numberedInOrder cs' (after c this)
  end.

(** Invariants of an instance, as tests. *)

(** A game that waits to start or is in progress has both slots occupied. *)
Definition slotsFilled (this : CordleGame) : bool :=
  match status (state this) with
  | WAITING_TO_START | IN_PROGRESS =>
      truthy (player1 (state this)) && truthy (player2 (state this))
  | _ => true
  end.

(** Until the game is over no winner is set and a guess is still to come. *)
Definition withinLimit (this : CordleGame) : bool :=
  slotsFilled this
  && match status (state this) with
     | OVER => Nat.leb (length (guesses (state this))) 6
     | _ => negb (truthy (winner (state this)))
            && Nat.leb (length (guesses (state this))) 5
     end.

(** The game is over with both slots still occupied. *)
Definition finished (this : CordleGame) : bool :=
  bool_decide (status (state this) = OVER)
  && truthy (player1 (state this)) && truthy (player2 (state this)).

(** One evaluated row per guess, none missing. *)
Definition rowsInStep (this : CordleGame) : Prop :=
  Forall is_Some (guessesEvaluated (state this))
  /\ length (guessesEvaluated (state this)) = length (guesses (state this)).

Definition allGreen (row : JSArray CordleCell) : bool :=
  js_every (fun color => bool_decide (color = Green)) row.

(** How a slot of the specification's copy appears in [cordleCopy]: a
    remaining letter as its one-character string, an erased one as ['']. *)
Definition copySlot (c : option ascii) : option string :=
  Some (from_option (fun a => String a EmptyString) "" c).

(** ** Instances used as examples *)

Definition apple (f : WordsFile) : string := "apple".
Definition berry (f : WordsFile) : string := "berry".

(** Two players have joined a first game. *)
Definition fullGame : CordleGame :=
  run [Join "ann"; Join "bob"] (new_CordleGame None).

(** Both have started it: the game is in progress, slot 1 moves first. *)
Definition runningGame : CordleGame :=
  run [Start apple "ann"; Start apple "bob"] fullGame.

(** The player of slot 1 has left the running game: it is over. *)
Definition abandonedGame : CordleGame := after (Leave "ann") runningGame.

(** In the full game the difficulty is set and the player of slot 1, who
    moves first, has started: the secret word is drawn, the game still waits
    for the other player. *)
Definition halfStartedGame : CordleGame :=
  run [SetDifficulty Easy; Start apple "ann"] fullGame.

(** A second game built on the running one: "ann" and "bob" are the
    preferred players of slots 1 and 2, and since slot 1 moved first in the
    running game, slot 2 is to move first in this one. *)
Definition rematchGame : CordleGame := new_CordleGame (Some runningGame).

(** Two newcomers join the second game and one of them starts, which forces
    slot 1 to move first; he leaves, and "ann" takes her preferred slot. *)
Definition annReturns : CordleGame :=
  run [Join "xia"; Join "yan"; Start apple "xia"; Leave "xia"; Join "ann"]
      rematchGame.

(** A newcomer takes slot 1 of the second game before "ann" joins, who then
    gets slot 2. *)
Definition annDisplaced : CordleGame :=
  run [Join "xia"; Join "ann"] rematchGame.

Definition wrong (who : PlayerID) (n : CordleGuessNumber) : Command :=
  ApplyMove {| player := who; guessedWord := "wrong"; guessNumber := n |}.

(** A third player joins the abandoned game and starts it: it is in progress
    again, with the winner of the abandoned game still recorded.  Seven
    guesses follow. *)
Definition overflowGame : CordleGame :=
  run [Join "cyd"; Start apple "cyd";
       wrong "cyd" GN1; wrong "bob" GN2; wrong "cyd" GN3; wrong "bob" GN4;
       wrong "cyd" GN5; wrong "bob" GN6; wrong "cyd" GN6]
      abandonedGame.

(** Five guesses, each numbered in order, in the running game. *)
Definition fiveGuesses : list Command :=
  [wrong "ann" GN1; wrong "bob" GN2; wrong "ann" GN3; wrong "bob" GN4;
   wrong "ann" GN5].

(** The first guess of the running game, numbered 3. *)
Definition misnumberedGame : CordleGame :=
  after (wrong "ann" GN3) runningGame.

(** The running game from its construction, then five guesses. *)
Definition startedTrace : list Command :=
  [Join "ann"; Join "bob"; Start apple "ann"; Start apple "bob"].

Definition drawTrace : list Command := startedTrace ++ fiveGuesses.

Definition emptyGuess : CordleGuess :=
  {| player := "ann"; guessedWord := ""; guessNumber := GN1 |}.

(** ** Vocabulary of the further properties *)

(** What holds of every instance, whatever the calls made on it: the two
    slots never hold the same player; the status tells whether both slots
    are occupied; a ready flag is set only for an occupied slot, and both
    are set while the game is in progress; a game that is over has a
    winner. *)
Record lifecycle (this : CordleGame) : Prop := {
  lc_distinct : player1 (state this) = player2 (state this) ->
                player1 (state this) = None;
  lc_waiting : status (state this) = WAITING_FOR_PLAYERS ->
               truthy (player1 (state this)) && truthy (player2 (state this))
               = false;
  lc_seated : status (state this) = WAITING_TO_START
              \/ status (state this) = IN_PROGRESS ->
              truthy (player1 (state this)) && truthy (player2 (state this))
              = true;
  lc_ready1 : truthyb (player1Ready (state this)) = true ->
              truthy (player1 (state this)) = true;
  lc_ready2 : truthyb (player2Ready (state this)) = true ->
              truthy (player2 (state this)) = true;
  lc_started : status (state this) = IN_PROGRESS ->
               truthyb (player1Ready (state this))
               && truthyb (player2Ready (state this)) = true;
  lc_winner : status (state this) = OVER ->
              truthy (winner (state this)) = true;
}.

(** Number of Gray cells of [row] that sit under the letter [x] of the
    guess. *)
Fixpoint unmatched (x : ascii) (G : list ascii) (row : list CordleCell) : nat :=
  match G, row with
  | g :: G', cell :: row' =>
      (if bool_decide (g = x /\ cell = Gray) then 1 else 0) + unmatched x G' row'
  | _, _ => 0
  end.

(** The letters that [toUpperCase] changes. *)
Definition isLowercase (c : ascii) : bool :=
  Nat.leb 97 (nat_of_ascii c) && Nat.leb (nat_of_ascii c) 122.

(** The newcomer "cyd" takes slot 1 of the second game and "bob" his slot 2,
    so that slot 2 is to move first; "cyd" starts; "bob" leaves and "dan"
    takes his place: no preferred player is left in his slot, and the start
    of "dan" makes slot 1 move first. *)
Definition secretlessTrace : list Command :=
  [Join "cyd"; Join "bob"; SetDifficulty Easy; Start apple "cyd";
   Leave "bob"; Join "dan"; Start apple "dan"].

(** ** The controller of the frontend: [CordleAreaController]

    The getters of the controller read the state of the game of its model,
    the occupants of the area and our player; [startGame] and [makeMove]
    check the model and pass a command on to the town controller. *)

#[global] Instance CordleGuessNumber_eq_dec : EqDecision CordleGuessNumber.
Proof. solve_decision. Defined.
#[global] Instance CordleGuess_eq_dec : EqDecision CordleGuess.
Proof. solve_decision. Defined.

Module PlayerController.
(** Of a [PlayerController] only the [id] is read. *)
Record t := { id : PlayerID }.
End PlayerController.

(** The messages of the errors that the controller throws. *)
Inductive ControllerError :=
  | NO_GAME_IN_PROGRESS_ERROR
  | NO_GAME_STARTABLE
  | WORD_NOT_EXISTS_MESSAGE
  | WORD_WRONG_LENGTH_MESSAGE.

(** The commands passed to [sendInteractableCommand].  The number of a guess
    is the one that [makeMove] computes, before its cast to
    [CordleGuessNumber]. *)
Inductive InteractableCommand :=
  | StartCordleGame (gameID : string) (difficulty : CordleDifficulty)
  | GameMove (gameID : string) (player : PlayerID) (guessedWord : string)
             (guessNumber : nat).

(** The events of [CordleEvents]. *)
Inductive CordleEvent :=
  | boardChanged (board : JSArray CordleGuess)
                 (guessesEvaluated : JSArray (JSArray CordleCell))
  | turnChanged (isOurTurn : bool).

Module CordleAreaController.

Definition CORDLE_NUMBER_GUESSES : nat := 6.
Definition CORDLE_WORD_LENGTH : nat := 5.

(** [new Array(n)], then [undefined] assigned to each index. *)
Definition createEmptyBoard : JSArray CordleGuess :=
  fold_left (fun board i => <[i := None]> board)
            (seq 0 CORDLE_NUMBER_GUESSES)
            (replicate CORDLE_NUMBER_GUESSES None).

(** [new Array(n)], then a row of [undefined] assigned to each index. *)
Definition createEmptyGuessesEvaluated : JSArray (JSArray CordleCell) :=
  fold_left (fun guessesEvaluated i =>
               js_set guessesEvaluated i (replicate CORDLE_WORD_LENGTH None))
            (seq 0 CORDLE_NUMBER_GUESSES)
            (replicate CORDLE_NUMBER_GUESSES None).

(** What the controller holds: the state of [this._model.game], undefined
    when the model has no game; the occupants of the area; our player, that
    of the town controller; the id of the game instance; the board and the
    evaluated rows. *)
Record t := {
  _model_game_state : option CordleGameState;
  occupants : list PlayerController.t;
  ourPlayer : PlayerController.t;
  _instanceID : option string;
  _board : JSArray CordleGuess;
  _guessesEvaulated : JSArray (JSArray CordleCell);
}.

(** [this.occupants.find(eachOccupant => eachOccupant.id === p)]. *)
Definition findOccupant (this : t) (p : PlayerID) : option PlayerController.t :=
  find (fun eachOccupant => bool_decide (PlayerController.id eachOccupant = p))
       (occupants this).

Definition player1 (this : t) : option PlayerController.t :=
  let p1 := _model_game_state this ≫= player1 in
  if truthy p1 then p1 ≫= findOccupant this else None.

Definition player2 (this : t) : option PlayerController.t :=
  let p2 := _model_game_state this ≫= player2 in
  if truthy p2 then p2 ≫= findOccupant this else None.

(** [this._model.game?.state.guesses.length || 0]. *)
Definition guessCount (this : t) : nat :=
  default 0 (length ∘ guesses <$> _model_game_state this).

Definition whoseTurn (this : t) : option PlayerController.t :=
  let player1 := player1 this in
  let player2 := player2 this in
  if negb (bool_decide (is_Some player1)) || negb (bool_decide (is_Some player2))
     || negb (bool_decide (status <$> _model_game_state this = Some IN_PROGRESS))
  then None
  else
    let firstPlayer := firstPlayer <$> _model_game_state this in
    if bool_decide (firstPlayer = Some Player1)
    then if Nat.eqb (guessCount this mod 2) 0 then player1 else player2
    else if Nat.eqb (guessCount this mod 2) 0 then player2 else player1.

(** [this.whoseTurn?.id === this._townController.ourPlayer.id]. *)
Definition isOurTurn (this : t) : bool :=
  bool_decide (PlayerController.id <$> whoseTurn this
               = Some (PlayerController.id (ourPlayer this))).

(** [startGame(difficulty)]: the error thrown, or the command sent. *)
Definition startGame (difficulty : CordleDifficulty) (this : t)
    : ControllerError + InteractableCommand :=
  let instanceID := _instanceID this in
  if negb (truthy instanceID)
     || negb (bool_decide (status <$> _model_game_state this
                           = Some WAITING_TO_START))
  then inl NO_GAME_STARTABLE
  else inr (StartCordleGame (default "" instanceID) difficulty).

(** [makeMove(guess)]: the error thrown, or the command sent.  The answer of
    the dictionary to [_isRealWord(guess)] is the argument [isRealWord]; the
    model is taken not to change while the dictionary is asked. *)
Definition makeMove (isRealWord : string -> bool) (guess : string) (this : t)
    : ControllerError + InteractableCommand :=
  let instanceID := _instanceID this in
  if negb (truthy instanceID)
     || negb (bool_decide (status <$> _model_game_state this = Some IN_PROGRESS))
  then inl NO_GAME_IN_PROGRESS_ERROR
  else
    let playerID := PlayerController.id (ourPlayer this) in
    if makeMove_wrongLength guess then inl WORD_WRONG_LENGTH_MESSAGE
    else
      let isWordExists := isRealWord guess in
      if negb isWordExists then inl WORD_NOT_EXISTS_MESSAGE
      else inr (GameMove (default "" instanceID) playerID guess
                         (guessCount this + 1)).

(** The board that [_updateFrom] builds from the guesses of the new game:
    each guess at the index of its number. *)
Definition newBoard (guesses : list CordleGuess) : JSArray CordleGuess :=
  fold_left (fun newBoard guess =>
               js_set newBoard (guessNumber_value (guessNumber guess) - 1) guess)
            guesses createEmptyBoard.

(** The rows that [_updateFrom] builds from those of the new game, cell by
    cell; [forEach] does not visit holes.  [None] stands for the [TypeError]
    of an assignment into a row that the empty rows do not have. *)
Definition copyRow (rowIndex : nat) (row : JSArray CordleCell)
    (newGuessesEvaluated : option (JSArray (JSArray CordleCell)))
    : option (JSArray (JSArray CordleCell)) :=
  fold_left (fun acc cell =>
               match cell.2 with
               | Some c =>
                   rows ← acc;
                   target ← js_get rows rowIndex;
                   Some (js_set rows rowIndex (js_set target cell.1 c))
               | None => acc
               end)
            (imap pair row) newGuessesEvaluated.

Definition newGuessesEvaluated (guessesEvaluated : JSArray (JSArray CordleCell))
    : option (JSArray (JSArray CordleCell)) :=
  fold_left (fun acc row =>
               match row.2 with
               | Some r => copyRow row.1 r acc
               | None => acc
               end)
            (imap pair guessesEvaluated) (Some createEmptyGuessesEvaluated).

(** The part of [_updateFrom] that follows [super._updateFrom(newModel)] and
    deals with the board: the controller and the events emitted, or [None]
    for a [TypeError].  The argument is the state of [newModel.game]. *)
Definition _updateFrom_board (newGame : option CordleGameState) (this : t)
    : option (t * list CordleEvent) :=
  match newGame with
  | Some newState =>
      let newBoard := newBoard (guesses newState) in
      newGuessesEvaluated ← newGuessesEvaluated (guessesEvaluated newState);
      if negb (bool_decide (newBoard = _board this))
         && negb (bool_decide (newGuessesEvaluated = _guessesEvaulated this))
      then Some ({| _model_game_state := _model_game_state this;
                    occupants := occupants this;
                    ourPlayer := ourPlayer this;
                    _instanceID := _instanceID this;
                    _board := newBoard;
                    _guessesEvaulated := newGuessesEvaluated |},
                 [boardChanged newBoard newGuessesEvaluated])
      else Some (this, [])
  | None => Some (this, [])
  end.

End CordleAreaController.

(** The guesses are numbered in order: the guess at index [k] has the
    number [k + 1]. *)
Definition inOrder (guesses : list CordleGuess) : Prop :=
  forall (k : nat) (guess : CordleGuess),
    guesses !! k = Some guess -> guessNumber_value (guessNumber guess) = k + 1.

(** The guess that a [GameMove] command carries, when its number is one of
    a [CordleGuessNumber]. *)
Definition guessNumber_of (n : nat) : option CordleGuessNumber :=
  match n with
  | 1 => Some GN1 | 2 => Some GN2 | 3 => Some GN3
  | 4 => Some GN4 | 5 => Some GN5 | 6 => Some GN6
  | _ => None
  end.

Definition moveOf (c : InteractableCommand) : option CordleGuess :=
  match c with
  | GameMove _ player guessedWord n =>
      (fun number => {| player := player; guessedWord := guessedWord;
                        guessNumber := number |}) <$> guessNumber_of n
  | StartCordleGame _ _ => None
  end.

(** The controller of "ann" in the area of a game. *)
Definition controllerOf (g : CordleGame) : CordleAreaController.t :=
  {| CordleAreaController._model_game_state := Some (state g);
     CordleAreaController.occupants :=
       [{| PlayerController.id := "ann" |}; {| PlayerController.id := "bob" |}];
     CordleAreaController.ourPlayer := {| PlayerController.id := "ann" |};
     CordleAreaController._instanceID := Some "game-1";
     CordleAreaController._board := CordleAreaController.createEmptyBoard;
     CordleAreaController._guessesEvaulated :=
       CordleAreaController.createEmptyGuessesEvaluated |}.

(** Both players have joined a first game, the difficulty is set and both
    have started: the secret word is "APPLE". *)
Definition easyTrace : list Command :=
  [Join "ann"; Join "bob"; SetDifficulty Easy;
   Start apple "ann"; Start apple "bob"].

(** Every dictionary word. *)
Definition anyWord (word : string) : bool := true.

(** The cell [rows[k]?.[j]] of an array of rows. *)
Definition cellAt (rows : JSArray (JSArray CordleCell)) (k j : nat)
    : option CordleCell :=
  js_get rows k ≫= fun row => js_get row j.

(** ** Tactics *)

(** Tactics for running a method symbolically: unfold the monad, then split
    on the conditions the code tests, innermost first. *)
Ltac munfold :=
  unfold after, exec, _join, startGame, setDifficultyLevel, _leave,
    removePlayer, applyMove, whoseTurn, _applyGuess, modifyState, when,
    throw, getState, getThis, setState, mbind, M_bind, mret, M_ret in *.

Ltac msimpl :=
  cbn beta iota zeta delta
    [fst snd andb orb negb state _preferredPlayer1 _preferredPlayer2
     guesses status firstPlayer cordle guessesEvaluated difficulty
     player1 player2 player1Ready player2Ready winner
     set_guesses set_status set_firstPlayer set_cordle set_guessesEvaluated
     set_difficulty set_player1 set_player2 set_player1Ready
     set_player2Ready set_winner] in *.

Ltac mcase :=
  repeat (msimpl;
          try match goal with
              | |- context [bool_decide ?P] => destruct (bool_decide_reflect P)
              | |- context [truthy ?o] => destruct (truthy o) eqn:?
              | |- context [truthyb ?o] => destruct (truthyb o) eqn:?
              | |- context [js_every ?f ?a] => destruct (js_every f a) eqn:?
              | |- context [Nat.leb ?n ?m] => destruct (Nat.leb n m) eqn:?
              | |- context [Nat.eqb ?n ?m] => destruct (Nat.eqb n m) eqn:?
              | |- context [match ?x with
                            | WAITING_FOR_PLAYERS => _ | WAITING_TO_START => _
                            | IN_PROGRESS => _ | OVER => _ end] =>
                  destruct x eqn:?
              | |- context [match ?x with Player1 => _ | Player2 => _ end] =>
                  destruct x eqn:?
              end).

(** Arithmetic on the tests [Nat.leb] of the code. *)
Ltac leb_lia :=
  rewrite ?length_app in *; cbn [length] in *;
  repeat match goal with
         | H : Nat.leb _ _ = true |- _ => apply Nat.leb_le in H
         | H : Nat.leb _ _ = false |- _ => apply Nat.leb_gt in H
         | |- Nat.leb _ _ = true => apply Nat.leb_le
         end;
  lia.

(** Case analysis on the truthiness tests, for the invariants. *)
Ltac truthy_case t :=
  let b := fresh "b" in set (b := t) in *; clearbody b; destruct b.

Ltac truthy_cases :=
  repeat match goal with
         | |- context [truthy ?o] => truthy_case (truthy o)
         | H : context [truthy ?o] |- _ => truthy_case (truthy o)
         | |- context [truthyb ?o] => truthy_case (truthyb o)
         | H : context [truthyb ?o] |- _ => truthy_case (truthyb o)
         end.

Ltac lc_field :=
  msimpl; intros;
  change (truthy None) with false in *;
  change (truthyb (Some false)) with false in *;
  change (truthyb (Some true)) with true in *;
  truthy_cases; msimpl;
  try done; try congruence; try (intuition congruence).

(** * Properties *)

(** ** Scoring *)

Example guessColors_satin_tooth :
  guessColors (Some "SATIN") "TOOTH" =
  [Some Yellow; Some Gray; Some Gray; Some Gray; Some Gray].
Proof. vm_compute. reflexivity. Qed.

Example guessColors_cordl_coldx :
  guessColors (Some "cordl") "coldx" =
  [Some Green; Some Green; Some Yellow; Some Green; Some Gray].
Proof. vm_compute. reflexivity. Qed.

Example guessColors_cordl_llllc :
  guessColors (Some "cordl") "llllc" =
  [Some Yellow; Some Gray; Some Gray; Some Gray; Some Yellow].
Proof. vm_compute. reflexivity. Qed.


Section JSArrays.
Context {A : Type}.
Implicit Types (a pre suf : JSArray A) (v : A).

Lemma js_set_end a i v : i = length a -> js_set a i v = a ++ [Some v].
Proof.
  intros ->. unfold js_set. case_decide; [lia|].
  by rewrite Nat.sub_diag.
Qed.

Lemma js_set_middle pre suf x i v :
  i = length pre -> js_set (pre ++ x :: suf) i v = pre ++ Some v :: suf.
Proof.
  intros ->. unfold js_set. rewrite length_app. cbn [length].
  case_decide; [|lia].
  replace (length pre) with (length pre + 0) at 1 by lia.
  by rewrite insert_app_r.
Qed.

Lemma js_get_middle pre suf x i :
  i = length pre -> js_get (pre ++ x :: suf) i = x.
Proof.
  intros ->. unfold js_get. rewrite lookup_app_r by lia.
  by rewrite Nat.sub_diag.
Qed.

Lemma js_get_beyond a i : length a <= i -> js_get a i = None.
Proof. intros Hi. unfold js_get. by rewrite lookup_ge_None_2. Qed.

Lemma js_get_set_eq a i v : js_get (js_set a i v) i = Some v.
Proof.
  unfold js_get, js_set. case_decide.
  - by rewrite list_lookup_insert_eq.
  - rewrite lookup_app_r by lia.
    rewrite lookup_app_r; rewrite length_replicate; [|lia].
    by rewrite Nat.sub_diag.
Qed.
End JSArrays.

Lemma String_get_lookup (s : string) (i : nat) :
  String.get i s = list_ascii_of_string s !! i.
Proof.
  revert i. induction s as [|c s IH]; intros [|i]; cbn; auto.
Qed.

Lemma String_length_list (s : string) :
  String.length s = length (list_ascii_of_string s).
Proof. induction s; cbn; auto. Qed.

Lemma js_charAt_middle (s : string) (pre suf : list ascii) (g : ascii) :
  list_ascii_of_string s = pre ++ g :: suf ->
  js_charAt s (length pre) = Some (String g EmptyString).
Proof.
  intros Hs. unfold js_charAt. rewrite String_get_lookup, Hs.
  rewrite lookup_app_r by lia. by rewrite Nat.sub_diag.
Qed.

Lemma copySlot_letter (g : ascii) (c : option ascii) :
  Some (String g EmptyString) = copySlot c <-> c = Some g.
Proof.
  unfold copySlot. destruct c as [a|]; cbn; split; intros H; congruence.
Qed.

(** The first loop computes the first pass.  The loop is cut at an index:
    [Gpre], [rowpre] and [Cpre] are what lies to its left. *)
Lemma greenLoop_firstPass (w : string) (Gsuf : list ascii) :
  forall (Gpre : list ascii) (rowpre : list CordleCell) (Cpre Csuf : list (option ascii)),
    list_ascii_of_string w = Gpre ++ Gsuf ->
    length rowpre = length Gpre ->
    length Cpre = length Gpre \/ (Csuf = [] /\ length Cpre <= length Gpre) ->
    fold_left (greenStep w) (seq (length Gpre) (length Gsuf))
      (Some <$> rowpre, copySlot <$> (Cpre ++ Csuf))
    = (Some <$> (rowpre ++ (TwoPass.firstPass Gsuf Csuf).1),
       copySlot <$> (Cpre ++ (TwoPass.firstPass Gsuf Csuf).2)).
Proof.
  induction Gsuf as [|g Gsuf IH]; intros Gpre rowpre Cpre Csuf Hw Hrow HC.
  - cbn. by rewrite app_nil_r.
  - cbn [length seq fold_left].
    assert (Hnext : list_ascii_of_string w = (Gpre ++ [g]) ++ Gsuf)
      by (by rewrite <- app_assoc).
    assert (Hlen : S (length Gpre) = length (Gpre ++ [g]))
      by (rewrite length_app; cbn; lia).
    unfold greenStep at 2.
    rewrite (js_charAt_middle w Gpre Gsuf g Hw).
    rewrite !(js_set_end (Some <$> rowpre)) by (by rewrite length_fmap).
    destruct Csuf as [|c Csuf].
    + rewrite js_get_beyond by (rewrite length_fmap, app_nil_r; lia).
      rewrite bool_decide_eq_false_2 by discriminate.
      rewrite Hlen, <- (fmap_snoc Some rowpre Gray).
      rewrite (IH (Gpre ++ [g]) (rowpre ++ [Gray]) Cpre []); auto.
      * cbn. destruct (TwoPass.firstPass Gsuf []) as [row C'] eqn:E. cbn.
        by rewrite <- app_assoc.
      * rewrite !length_app; cbn; lia.
      * right. split; [done|]. rewrite length_app; cbn. lia.
    + destruct HC as [HC|[? _]]; [|discriminate].
      rewrite fmap_app, fmap_cons.
      rewrite js_get_middle, js_set_middle by (by rewrite length_fmap).
      cbn [TwoPass.firstPass].
      destruct (TwoPass.firstPass Gsuf Csuf) as [row C'] eqn:E.
      destruct (decide (c = Some g)) as [->|Hne].
      * rewrite !bool_decide_eq_true_2 by (done || by apply copySlot_letter).
        rewrite Hlen, <- (fmap_snoc Some rowpre Green).
        change (Some "" :: (copySlot <$> Csuf)) with (copySlot <$> (None :: Csuf)).
        rewrite <- fmap_app.
        replace (Cpre ++ None :: Csuf) with ((Cpre ++ [None]) ++ Csuf)
          by (by rewrite <- app_assoc).
        rewrite (IH (Gpre ++ [g]) (rowpre ++ [Green]) (Cpre ++ [None]) Csuf); auto.
        -- rewrite E. cbn. by rewrite <- !app_assoc.
        -- rewrite !length_app; cbn; lia.
        -- left. rewrite !length_app; cbn; lia.
      * rewrite !bool_decide_eq_false_2
          by (done || by rewrite copySlot_letter).
        rewrite Hlen, <- (fmap_snoc Some rowpre Gray).
        rewrite <- fmap_cons, <- fmap_app.
        replace (Cpre ++ c :: Csuf) with ((Cpre ++ [c]) ++ Csuf)
          by (by rewrite <- app_assoc).
        rewrite (IH (Gpre ++ [g]) (rowpre ++ [Gray]) (Cpre ++ [c]) Csuf); auto.
        -- rewrite E. cbn. by rewrite <- !app_assoc.
        -- rewrite !length_app; cbn; lia.
        -- left. rewrite !length_app; cbn; lia.
Qed.

Lemma js_set_cons_S {A} (slot : option A) (a : JSArray A) (i : nat) (v : A) :
  js_set (slot :: a) (S i) v = slot :: js_set a i v.
Proof.
  unfold js_set. cbn [length].
  repeat case_decide; try lia; reflexivity.
Qed.

(** [indexOf] finds the slot that the specification erases. *)
Lemma indexOf_eraseLeftmost (g : ascii) (C : list (option ascii)) :
  match TwoPass.eraseLeftmost g C with
  | Some C' =>
      exists i, js_indexOf (copySlot <$> C) (Some (String g EmptyString)) = Some i
                /\ js_set (copySlot <$> C) i "" = copySlot <$> C'
  | None => js_indexOf (copySlot <$> C) (Some (String g EmptyString)) = None
  end.
Proof.
  induction C as [|c C IH]; cbn; [done|].
  destruct (decide (c = Some g)) as [->|Hne].
  - rewrite !bool_decide_eq_true_2 by (done || (split; [by eexists|done])).
    exists 0. split; reflexivity.
  - rewrite bool_decide_eq_false_2 by done.
    rewrite bool_decide_eq_false_2.
    2: { intros [_ H]. apply Hne. by apply copySlot_letter. }
    destruct (TwoPass.eraseLeftmost g C) as [C'|]; cbn.
    + destruct IH as (i & -> & Hset). exists (S i). split; [done|].
      by rewrite js_set_cons_S, Hset.
    + by rewrite IH.
Qed.

Lemma secondPass_not_gray (g : ascii) G (cell : CordleCell) row C :
  cell <> Gray ->
  TwoPass.secondPass (g :: G) (cell :: row) C = cell :: TwoPass.secondPass G row C.
Proof. by destruct cell. Qed.

(** The second loop computes the second pass. *)
Lemma yellowLoop_secondPass (w : string) (Gsuf : list ascii) :
  forall (Gpre : list ascii) (rowpre rowsuf : list CordleCell) (C : list (option ascii)),
    list_ascii_of_string w = Gpre ++ Gsuf ->
    length rowpre = length Gpre ->
    length rowsuf = length Gsuf ->
    exists C',
      fold_left (yellowStep w) (seq (length Gpre) (length Gsuf))
        (Some <$> (rowpre ++ rowsuf), copySlot <$> C)
      = (Some <$> (rowpre ++ TwoPass.secondPass Gsuf rowsuf C), copySlot <$> C').
Proof.
  induction Gsuf as [|g Gsuf IH]; intros Gpre rowpre rowsuf C Hw Hpre Hsuf.
  - destruct rowsuf; [|done]. by exists C.
  - destruct rowsuf as [|cell rowsuf]; [done|].
    cbn [length seq fold_left].
    assert (Hnext : list_ascii_of_string w = (Gpre ++ [g]) ++ Gsuf)
      by (by rewrite <- app_assoc).
    assert (Hlen : S (length Gpre) = length (Gpre ++ [g]))
      by (rewrite length_app; cbn; lia).
    assert (Hrow : forall cell', length (rowpre ++ [cell']) = length (Gpre ++ [g]))
      by (intros; rewrite !length_app; cbn; lia).
    injection Hsuf as Hsuf.
    unfold yellowStep at 2.
    rewrite (js_charAt_middle w Gpre Gsuf g Hw).
    rewrite fmap_app, fmap_cons.
    rewrite js_get_middle, js_set_middle by (by rewrite length_fmap).
    destruct (decide (cell = Gray)) as [->|Hcell].
    + rewrite bool_decide_eq_true_2 by done. cbn [TwoPass.secondPass].
      pose proof (indexOf_eraseLeftmost g C) as Herase.
      destruct (TwoPass.eraseLeftmost g C) as [C1|].
      * destruct Herase as (i & -> & ->).
        destruct (IH (Gpre ++ [g]) (rowpre ++ [Yellow]) rowsuf C1) as [C' HC'];
          auto.
        exists C'. rewrite Hlen, <- fmap_cons, <- fmap_app.
        rewrite <- !app_assoc in HC'. exact HC'.
      * rewrite Herase.
        destruct (IH (Gpre ++ [g]) (rowpre ++ [Gray]) rowsuf C) as [C' HC'];
          auto.
        exists C'. rewrite Hlen, <- fmap_cons, <- fmap_app.
        rewrite <- !app_assoc in HC'. exact HC'.
    + rewrite bool_decide_eq_false_2 by congruence.
      rewrite secondPass_not_gray by done.
      destruct (IH (Gpre ++ [g]) (rowpre ++ [cell]) rowsuf C) as [C' HC'];
        auto.
      exists C'. rewrite Hlen, <- fmap_cons, <- fmap_app.
      rewrite <- !app_assoc in HC'. exact HC'.
Qed.

Lemma firstPass_length (G : list ascii) (C : list (option ascii)) :
  length (TwoPass.firstPass G C).1 = length G.
Proof.
  revert C. induction G as [|g G IH]; intros C; [done|].
  destruct C as [|c C]; cbn.
  - specialize (IH []). destruct (TwoPass.firstPass G []); cbn in *. lia.
  - specialize (IH C). destruct (TwoPass.firstPass G C); cbn in *.
    case_bool_decide; cbn; lia.
Qed.

Lemma secondPass_length (G : list ascii) (row : list CordleCell) C :
  length row = length G -> length (TwoPass.secondPass G row C) = length G.
Proof.
  revert row C. induction G as [|g G IH]; intros [|cell row] C Hlen; try done.
  injection Hlen as Hlen. cbn.
  destruct cell; cbn; try (by rewrite IH).
  destruct (TwoPass.eraseLeftmost g C); cbn; by rewrite IH.
Qed.

(** The loops of [_applyGuess] refine the two passes, whatever the lengths. *)
Lemma guessColors_colorRow (S w : string) :
  guessColors (Some S) w = Some <$> TwoPass.colorRow S w.
Proof.
  unfold guessColors, TwoPass.colorRow. cbn [default from_option id].
  rewrite String_length_list.
  set (G := list_ascii_of_string w).
  set (C0 := Some <$> list_ascii_of_string S).
  assert (Hsplit : js_split S = copySlot <$> ([] ++ C0)).
  { unfold js_split, C0. cbn [app]. rewrite <- list_fmap_compose.
    reflexivity. }
  rewrite Hsplit.
  pose proof (greenLoop_firstPass w G [] [] [] C0 eq_refl eq_refl (or_introl eq_refl))
    as Hgreen.
  cbn [length] in Hgreen.
  change (fold_left (greenStep w) (seq 0 (length G)) ([], copySlot <$> [] ++ C0))
    with (fold_left (greenStep w) (seq 0 (length G))
            (Some <$> [], copySlot <$> [] ++ C0)).
  rewrite Hgreen. cbn [app].
  pose proof (firstPass_length G C0) as Hlen.
  destruct (TwoPass.firstPass G C0) as [row C1]. cbn [fst snd] in *.
  destruct (yellowLoop_secondPass w G [] [] row C1 eq_refl eq_refl Hlen)
    as [C' HC'].
  cbn [length app] in HC'. by rewrite HC'.
Qed.

(** *** Each occurrence of a secret letter is consumed at most once *)

Lemma remaining_cons (x : ascii) (c : option ascii) (C : list (option ascii)) :
  TwoPass.remaining x (c :: C)
  = (if bool_decide (c = Some x) then 1 else 0) + TwoPass.remaining x C.
Proof.
  unfold TwoPass.remaining. rewrite filter_cons.
  case_decide; [rewrite bool_decide_eq_true_2|rewrite bool_decide_eq_false_2];
    done.
Qed.

Lemma firstPass_hits (x : ascii) (G : list ascii) (C : list (option ascii)) :
  TwoPass.hits x G (TwoPass.firstPass G C).1
  + TwoPass.remaining x (TwoPass.firstPass G C).2
  = TwoPass.remaining x C.
Proof.
  revert C. induction G as [|g G IH]; intros C; [done|].
  destruct C as [|c C]; cbn [TwoPass.firstPass].
  - specialize (IH []). destruct (TwoPass.firstPass G []) as [row C'].
    cbn in *. rewrite bool_decide_eq_false_2 by (by intros [_ ?]). done.
  - specialize (IH C). destruct (TwoPass.firstPass G C) as [row C'].
    cbn [fst snd] in IH.
    case_bool_decide as Hc; cbn [fst snd TwoPass.hits];
      rewrite !remaining_cons.
    + subst c. rewrite (bool_decide_eq_false_2 (None = Some x)) by done.
      destruct (decide (g = x)) as [->|Hgx].
      * rewrite !bool_decide_eq_true_2 by done. lia.
      * rewrite !bool_decide_eq_false_2 by (intuition congruence). lia.
    + rewrite (bool_decide_eq_false_2 (g = x /\ Gray <> Gray)) by (by intros [_ ?]).
      lia.
Qed.

Lemma eraseLeftmost_remaining (x g : ascii) (C C' : list (option ascii)) :
  TwoPass.eraseLeftmost g C = Some C' ->
  TwoPass.remaining x C
  = (if bool_decide (g = x) then 1 else 0) + TwoPass.remaining x C'.
Proof.
  revert C'. induction C as [|c C IH]; intros C' Herase; [done|].
  cbn in Herase. case_bool_decide as Hc.
  - injection Herase as <-. subst c. rewrite !remaining_cons.
    rewrite (bool_decide_eq_false_2 (None = Some x)) by done.
    destruct (decide (g = x)) as [->|Hgx].
    + rewrite !bool_decide_eq_true_2 by done. lia.
    + rewrite !bool_decide_eq_false_2 by congruence. lia.
  - destruct (TwoPass.eraseLeftmost g C) as [C1|]; [|done].
    injection Herase as <-. rewrite !remaining_cons, (IH C1) by done. lia.
Qed.

Lemma secondPass_hits (x : ascii) (G : list ascii) :
  forall (row : list CordleCell) (C : list (option ascii)),
    TwoPass.hits x G (TwoPass.secondPass G row C)
    <= TwoPass.hits x G row + TwoPass.remaining x C.
Proof.
  induction G as [|g G IH]; intros [|cell row] C; cbn; try lia.
  destruct cell.
  - cbn. specialize (IH row C). lia.
  - cbn. specialize (IH row C). lia.
  - rewrite (bool_decide_eq_false_2 (g = x /\ Gray <> Gray)) by (by intros [_ ?]).
    destruct (TwoPass.eraseLeftmost g C) as [C'|] eqn:Herase.
    + rewrite (eraseLeftmost_remaining x g C C' Herase).
      cbn. specialize (IH row C').
      repeat case_bool_decide; try lia; exfalso; intuition congruence.
    + cbn. rewrite (bool_decide_eq_false_2 (g = x /\ Gray <> Gray))
        by (by intros [_ ?]).
      specialize (IH row C). lia.
Qed.

Lemma colorRow_hits (x : ascii) (S w : string) :
  TwoPass.hits x (list_ascii_of_string w) (TwoPass.colorRow S w)
  <= TwoPass.occurrences x S.
Proof.
  unfold TwoPass.colorRow, TwoPass.occurrences.
  pose proof (firstPass_hits x (list_ascii_of_string w)
                (Some <$> list_ascii_of_string S)) as H1.
  destruct (TwoPass.firstPass _ _) as [row C]. cbn [fst snd] in H1.
  pose proof (secondPass_hits x (list_ascii_of_string w) row C). lia.
Qed.

Lemma colorRow_length (S w : string) :
  length (TwoPass.colorRow S w) = String.length w.
Proof.
  unfold TwoPass.colorRow.
  pose proof (firstPass_length (list_ascii_of_string w)
                (Some <$> list_ascii_of_string S)) as H1.
  destruct (TwoPass.firstPass _ _) as [row C]. cbn [fst snd] in H1.
  by rewrite secondPass_length, String_length_list.
Qed.

(** [_applyGuess] stores, at index [guessNumber - 1], the row that the two
    loops compute from the secret and the guessed word. *)
Lemma _applyGuess_row (guess : CordleGuess) (this : CordleGame) :
  js_get (guessesEvaluated (state (_applyGuess guess this).2))
         (guessNumber_value (guessNumber guess) - 1)
  = Some (guessColors (cordle (state this)) (guessedWord guess)).
Proof.
  munfold. mcase; apply js_get_set_eq.
Qed.

(** C1. For a secret [S] and a guess [G] of the same length, the row that
    [_applyGuess] scores and stores is the one of the two passes over a
    consumable copy of [S] (Green where the letters agree, that slot erased;
    then Yellow for each Gray position whose letter has a leftmost remaining
    occurrence, which is erased); it has one cell per letter; for every
    letter, its Green and Yellow cells are at most its occurrences in [S];
    and SATIN against TOOTH gives Yellow, Gray, Gray, Gray, Gray. *)
Theorem scoring_two_passes (S G : string)
    (Hlen : String.length S = String.length G) :
  (forall (this : CordleGame) (guess : CordleGuess),
      js_get (guessesEvaluated (state (_applyGuess guess this).2))
             (guessNumber_value (guessNumber guess) - 1)
      = Some (guessColors (cordle (state this)) (guessedWord guess)))
  /\ guessColors (Some S) G = Some <$> TwoPass.colorRow S G
  /\ length (TwoPass.colorRow S G) = String.length S
  /\ (forall x : ascii,
        TwoPass.hits x (list_ascii_of_string G) (TwoPass.colorRow S G)
        <= TwoPass.occurrences x S)
  /\ guessColors (Some "SATIN") "TOOTH"
     = [Some Yellow; Some Gray; Some Gray; Some Gray; Some Gray].
Proof.
  split; [intros; apply _applyGuess_row|].
  split; [apply guessColors_colorRow|].
  split; [by rewrite colorRow_length|].
  split; [intros; apply colorRow_hits|].
  vm_compute. reflexivity.
Qed.

Lemma scoring_two_passes_witness :
  guessColors (Some "SATIN") "TOOTH" = Some <$> TwoPass.colorRow "SATIN" "TOOTH".
Proof.
  exact (proj1 (proj2 (scoring_two_passes "SATIN" "TOOTH" eq_refl))).
Defined.

(** ** Turn derivation *)

Lemma mod2_even (n : nat) : Nat.eqb (n mod 2) 0 = Nat.even n.
Proof.
  rewrite <- Nat.bit0_mod, Nat.bit0_odd, <- Nat.negb_odd.
  by destruct (Nat.odd n).
Qed.

Lemma whoseTurn_actingSlot (this : CordleGame) :
  whoseTurn this
  = (Normal (actingSlot (firstPlayer (state this))
                        (length (guesses (state this)))), this).
Proof.
  munfold. unfold actingSlot. rewrite mod2_even.
  by destruct (firstPlayer (state this)).
Qed.

(** C5. [whoseTurn] returns, without touching the state, a slot that is a
    function of [firstPlayer] and [guesses.length] alone: the first player
    for an even number of guesses, the other slot for an odd one; called
    again with no guess in between it returns the same slot. *)
Theorem whoseTurn_parity (this : CordleGame) :
  whoseTurn this
  = (Normal (actingSlot (firstPlayer (state this))
                        (length (guesses (state this)))), this)
  /\ (forall n : nat,
        actingSlot Player1 (2 * n) = Player1
        /\ actingSlot Player1 (2 * n + 1) = Player2
        /\ actingSlot Player2 (2 * n) = Player2
        /\ actingSlot Player2 (2 * n + 1) = Player1)
  /\ whoseTurn (whoseTurn this).2 = whoseTurn this.
Proof.
  split; [apply whoseTurn_actingSlot|]. split.
  - intros n. unfold actingSlot.
    replace (2 * n + 1) with (S (2 * n)) by lia.
    rewrite Nat.even_succ, Nat.odd_even, Nat.even_even. done.
  - by rewrite !whoseTurn_actingSlot.
Qed.

(** ** The calls in one piece *)

(** [_applyGuess] never throws; its effect on the state, in one piece. *)
Lemma _applyGuess_unfold (guess : CordleGuess) (this : CordleGame) :
  let s := state this in
  let row := guessColors (cordle s) (guessedWord guess) in
  let s1 :=
    set_guessesEvaluated
      (js_set (guessesEvaluated s) (guessNumber_value (guessNumber guess) - 1) row)
      (set_guesses (guesses s ++ [guess]) s) in
  let s2 :=
    if allGreen row then set_winner (Some (player guess)) (set_status OVER s1)
    else s1 in
  let s3 :=
    if Nat.leb 6 (length (guesses s ++ [guess])) && negb (truthy (winner s2))
    then set_winner (Some DRAW) (set_status OVER s2)
    else s2 in
  _applyGuess guess this
  = (Normal tt,
     {| state := s3;
        _preferredPlayer1 := _preferredPlayer1 this;
        _preferredPlayer2 := _preferredPlayer2 this |}).
Proof.
  destruct this as [[gs st fp co ge di p1 p2 r1 r2 wi] pp1 pp2].
  unfold allGreen. munfold. mcase; try reflexivity; congruence.
Qed.

(** [applyMove]: the two checks, then [_applyGuess]. *)
Lemma applyMove_unfold (move : CordleGuess) (this : CordleGame) :
  applyMove move this
  = if negb (bool_decide (status (state this) = IN_PROGRESS))
    then (Throw GAME_NOT_IN_PROGRESS_MESSAGE, this)
    else if negb (bool_decide
                    (Some (player move)
                     = occupant (actingSlot (firstPlayer (state this))
                                            (length (guesses (state this))))
                                (state this)))
    then (Throw MOVE_NOT_YOUR_TURN_MESSAGE, this)
    else _applyGuess move this.
Proof.
  unfold applyMove, mbind, M_bind, getState, throw.
  case_bool_decide as Hst; cbn [negb]; [|done].
  rewrite !whoseTurn_actingSlot.
  unfold actingSlot, occupant.
  destruct (firstPlayer (state this)), (Nat.even (length (guesses (state this))));
    cbn; repeat (case_bool_decide; try done).
Qed.

(** What [applyMove] does when it accepts the move. *)
Lemma applyMove_accepted (move : CordleGuess) (this : CordleGame) :
  returns (applyMove move this) = true ->
  let s := state this in
  let row := guessColors (cordle s) (guessedWord move) in
  let s' := state (after (ApplyMove move) this) in
  status s = IN_PROGRESS
  /\ occupant (actingSlot (firstPlayer s) (length (guesses s))) s
     = Some (player move)
  /\ guesses s' = guesses s ++ [move]
  /\ guessesEvaluated s'
     = js_set (guessesEvaluated s) (guessNumber_value (guessNumber move) - 1) row
  /\ player1 s' = player1 s /\ player2 s' = player2 s.
Proof.
  unfold returns, after, exec. rewrite applyMove_unfold.
  case_bool_decide as Hst; cbn [negb]; [|done].
  case_bool_decide as Hturn; cbn [negb]; [|done].
  intros _. rewrite _applyGuess_unfold. cbv zeta. msimpl.
  repeat split; try done; repeat case_match; reflexivity.
Qed.

Lemma applyMove_rejected (move : CordleGuess) (this : CordleGame) :
  returns (applyMove move this) = false -> after (ApplyMove move) this = this.
Proof.
  unfold returns, after, exec. rewrite applyMove_unfold.
  repeat case_bool_decide; cbn [negb fst snd]; try done.
  by rewrite _applyGuess_unfold.
Qed.

(** ** What each call may change *)

(** [_join] keeps the guesses, the rows and the winner; when it seats the
    player, a slot was free and the status says whether both are now
    occupied. *)
Lemma join_effect (p : PlayerID) (this : CordleGame) :
  let s := state this in
  let s' := state (after (Join p) this) in
  guesses s' = guesses s /\ guessesEvaluated s' = guessesEvaluated s
  /\ winner s' = winner s
  /\ (after (Join p) this = this
      \/ (truthy (player1 s) && truthy (player2 s) = false
          /\ status s'
             = if truthy (player1 s') && truthy (player2 s')
               then WAITING_TO_START else WAITING_FOR_PLAYERS)).
Proof.
  destruct this as [[gs st fp co ge di p1 p2 r1 r2 wi] pp1 pp2].
  munfold. mcase; repeat split; auto; right; split; congruence.
Qed.

(** [_leave] keeps the guesses and the rows; when it removes the player the
    game ends if it was in progress and waits for players otherwise. *)
Lemma leave_effect (p : PlayerID) (this : CordleGame) :
  let s := state this in
  let s' := state (after (Leave p) this) in
  guesses s' = guesses s /\ guessesEvaluated s' = guessesEvaluated s
  /\ (after (Leave p) this = this
      \/ (status s = IN_PROGRESS /\ status s' = OVER)
      \/ (status s <> IN_PROGRESS /\ status s <> OVER
          /\ status s' = WAITING_FOR_PLAYERS /\ winner s' = winner s)).
Proof.
  destruct this as [[gs st fp co ge di p1 p2 r1 r2 wi] pp1 pp2].
  munfold. mcase; repeat split; auto; try congruence;
    right; right; repeat split; congruence.
Qed.

(** [startGame] keeps the guesses, the rows, the winner and the slots, and
    moves the status from [WAITING_TO_START] to [IN_PROGRESS] only with both
    slots occupied. *)
Lemma start_effect (w : WordsFile -> string) (p : PlayerID) (this : CordleGame) :
  let s := state this in
  let s' := state (after (Start w p) this) in
  guesses s' = guesses s /\ guessesEvaluated s' = guessesEvaluated s
  /\ winner s' = winner s /\ player1 s' = player1 s /\ player2 s' = player2 s
  /\ (after (Start w p) this = this
      \/ (status s = WAITING_TO_START
          /\ (status s' = WAITING_TO_START
              \/ (status s' = IN_PROGRESS
                  /\ truthy (player1 s) && truthy (player2 s) = true)))).
Proof.
  destruct this as [[gs st fp co ge di p1 p2 r1 r2 wi] pp1 pp2].
  munfold. mcase; repeat split; auto; right; split; auto.
Qed.

Lemma setDifficulty_effect (d : CordleDifficulty) (this : CordleGame) :
  let s := state this in
  let s' := state (after (SetDifficulty d) this) in
  guesses s' = guesses s /\ guessesEvaluated s' = guessesEvaluated s
  /\ winner s' = winner s /\ player1 s' = player1 s /\ player2 s' = player2 s
  /\ status s' = status s.
Proof. by destruct this as [[gs st fp co ge di p1 p2 r1 r2 wi] pp1 pp2]. Qed.

(** [applyMove] keeps the slots; when it accepts the move it appends the
    guess, stores the row, and ends the game on an all-Green row or, with no
    winner set, on the sixth guess. *)
Lemma applyMove_effect (move : CordleGuess) (this : CordleGame) :
  let s := state this in
  let s' := state (after (ApplyMove move) this) in
  let row := guessColors (cordle s) (guessedWord move) in
  let full := Nat.leb 6 (length (guesses s ++ [move])) in
  player1 s' = player1 s /\ player2 s' = player2 s
  /\ (after (ApplyMove move) this = this
      \/ (status s = IN_PROGRESS
          /\ guesses s' = guesses s ++ [move]
          /\ guessesEvaluated s'
             = js_set (guessesEvaluated s)
                      (guessNumber_value (guessNumber move) - 1) row
          /\ (status s', winner s')
             = if allGreen row
               then (OVER,
                     if full && negb (truthy (Some (player move)))
                     then Some DRAW else Some (player move))
               else if full && negb (truthy (winner s))
               then (OVER, Some DRAW)
               else (IN_PROGRESS, winner s))).
Proof.
  cbv zeta. unfold after, exec. rewrite applyMove_unfold.
  case_bool_decide as Hst; cbn [negb fst snd]; [|by auto].
  case_bool_decide as Hturn; cbn [negb fst snd]; [|by auto].
  rewrite _applyGuess_unfold. cbv zeta. cbn [fst snd state].
  destruct (allGreen _); msimpl;
    destruct (Nat.leb 6 _); msimpl;
    repeat match goal with
           | |- context [truthy ?o] => destruct (truthy o) eqn:?
           end; msimpl; rewrite ?Hst; auto 10.
Qed.

(** No call assigns the preferred players. *)
Lemma preferred_after (c : Command) (this : CordleGame) :
  _preferredPlayer1 (after c this) = _preferredPlayer1 this
  /\ _preferredPlayer2 (after c this) = _preferredPlayer2 this.
Proof.
  destruct this as [[gs st fp co ge di p1 p2 r1 r2 wi] pp1 pp2].
  destruct c; munfold; mcase; done.
Qed.

(** ** Failing calls *)

(** C9. A call that throws leaves the instance exactly as it was before the
    call: [_join], [_leave], [startGame] and [applyMove] test before they
    assign, and the [default] branch of [_leave], the one [throw] placed
    after an assignment, is never taken. *)
Theorem failed_call_leaves_state (c : Command) (this : CordleGame) (e : Error)
    (Hthrow : (exec c this).1 = Throw e) :
  (exec c this).2 = this.
Proof.
  destruct this as [[gs st fp co ge di p1 p2 r1 r2 wi] pp1 pp2].
  destruct c; munfold; revert Hthrow; mcase; intros Hthrow;
    try discriminate; try reflexivity; congruence.
Qed.

Lemma failed_call_leaves_state_witness :
  (exec (Join "cyd") fullGame).2 = fullGame.
Proof.
  exact (failed_call_leaves_state (Join "cyd") fullGame GAME_FULL_MESSAGE eq_refl).
Defined.

(** ** Leaving *)

(** C4. A slot occupant who leaves a game [IN_PROGRESS] ends it: the status
    becomes [OVER] and the winner is the occupant of the other slot, so it is
    unset when that slot is empty.  An occupant who leaves while the game is
    [WAITING_FOR_PLAYERS] or [WAITING_TO_START] leaves the winner as it was
    and the status at [WAITING_FOR_PLAYERS]; in these two statuses no leave,
    by an occupant or not, changes the winner. *)
Theorem leave_outcome (p : PlayerID) (this : CordleGame)
    (Hocc : player1 (state this) = Some p \/ player2 (state this) = Some p) :
  let this' := (_leave p this).2 in
  (_leave p this).1 = Normal tt
  /\ match status (state this) with
     | IN_PROGRESS =>
         status (state this') = OVER
         /\ winner (state this')
            = (if bool_decide (player1 (state this) = Some p)
               then player2 (state this) else player1 (state this))
     | WAITING_FOR_PLAYERS | WAITING_TO_START =>
         status (state this') = WAITING_FOR_PLAYERS
         /\ winner (state this') = winner (state this)
         /\ forall q : PlayerID,
              winner (state (_leave q this).2) = winner (state this)
     | OVER => this' = this
     end.
Proof.
  destruct this as [[gs st fp co ge di p1 p2 r1 r2 wi] pp1 pp2].
  cbn in Hocc. munfold.
  destruct st; mcase; try done; try (by destruct Hocc);
    repeat split; try done; intros q; mcase; done.
Qed.

Lemma leave_outcome_witness :
  status (state (_leave "ann" runningGame).2) = OVER
  /\ winner (state (_leave "ann" runningGame).2) = Some "bob".
Proof.
  exact (proj2 (leave_outcome "ann" runningGame (or_introl eq_refl))).
Defined.

(** C8, as the code has it.  A player who occupies neither slot and leaves a
    game that is not [OVER] gets [PLAYER_NOT_IN_GAME_MESSAGE], the instance
    unchanged.  On a game that is [OVER], [_leave] returns at once, before
    looking at the slots: for every player, occupant or not, it raises
    nothing and changes nothing. *)
Theorem leave_by_stranger (p : PlayerID) (this : CordleGame)
    (H1 : player1 (state this) <> Some p)
    (H2 : player2 (state this) <> Some p) :
  if bool_decide (status (state this) = OVER)
  then forall q : PlayerID, _leave q this = (Normal tt, this)
  else _leave p this = (Throw PLAYER_NOT_IN_GAME_MESSAGE, this).
Proof.
  destruct this as [[gs st fp co ge di p1 p2 r1 r2 wi] pp1 pp2].
  cbn in H1, H2. munfold. cbn.
  case_bool_decide as Hst.
  - by intros q.
  - mcase; done.
Qed.

Lemma leave_by_stranger_witness :
  _leave "cyd" runningGame = (Throw PLAYER_NOT_IN_GAME_MESSAGE, runningGame).
Proof.
  refine (leave_by_stranger "cyd" runningGame _ _); discriminate.
Defined.

(** C8 as stated fails: the abandoned game is [OVER], "cyd" is in neither
    slot, and the leave returns normally instead of failing. *)
Lemma leave_by_stranger_when_over :
  status (state abandonedGame) = OVER
  /\ player1 (state abandonedGame) <> Some "cyd"
  /\ player2 (state abandonedGame) <> Some "cyd"
  /\ _leave "cyd" abandonedGame = (Normal tt, abandonedGame).
Proof. vm_compute. repeat split; discriminate. Qed.

(** ** Starting *)

(** What [startGame] does once its two checks have passed, for a caller
    whose ready flags in the slots it occupies are already set. *)
Lemma startGame_again (w : WordsFile -> string) (p : PlayerID) (this : CordleGame)
    (Hst : status (state this) = WAITING_TO_START)
    (Hocc : player1 (state this) = Some p \/ player2 (state this) = Some p)
    (Hr1 : player1 (state this) = Some p -> player1Ready (state this) = Some true)
    (Hr2 : player2 (state this) = Some p -> player2Ready (state this) = Some true) :
  let s := state this in
  let first' := if preferredInSlot this then firstPlayer s else Player1 in
  let both := truthy (player1 s) && truthy (player2 s) in
  let cordle' :=
    if both && bool_decide (occupant first' s = Some p)
    then Some (toUpperCase (selectedCordle w (difficulty s)))
    else cordle s in
  let status' :=
    if both && truthyb (player1Ready s) && truthyb (player2Ready s)
    then IN_PROGRESS else WAITING_TO_START in
  startGame w p this
  = (Normal tt,
     {| state := set_status status' (set_cordle cordle' (set_firstPlayer first' s));
        _preferredPlayer1 := _preferredPlayer1 this;
        _preferredPlayer2 := _preferredPlayer2 this |}).
Proof.
  destruct this as [[gs st fp co ge di p1 p2 r1 r2 wi] pp1 pp2].
  msimpl. subst st. unfold preferredInSlot, occupant. munfold.
  destruct fp; mcase; try done; try (by destruct Hocc);
    repeat match goal with
           | H : ?x = Some p -> _, E : ?x = Some p |- _ => specialize (H E)
           end;
    subst; msimpl; try done; try congruence.
Qed.

(** C2, as the code has it.  In a game [WAITING_TO_START], a player whose
    ready flag is already set and who calls [startGame] again gets no error;
    the slots, the ready flags, the difficulty, the guesses, the evaluated
    rows, the winner and the preferred players are unchanged.  But
    [firstPlayer] is recomputed, and when both slots are occupied and the
    caller is in the slot that moves first, the secret word is drawn anew and
    replaces the stored one; the status is [IN_PROGRESS] once both slots are
    occupied and ready. *)
Theorem start_again_outcome (w : WordsFile -> string) (p : PlayerID)
    (this : CordleGame)
    (Hst : status (state this) = WAITING_TO_START)
    (Hocc : player1 (state this) = Some p \/ player2 (state this) = Some p)
    (Hr1 : player1 (state this) = Some p -> player1Ready (state this) = Some true)
    (Hr2 : player2 (state this) = Some p -> player2Ready (state this) = Some true) :
  let s := state this in
  let this' := (startGame w p this).2 in
  let s' := state this' in
  let both := truthy (player1 s) && truthy (player2 s) in
  (startGame w p this).1 = Normal tt
  /\ (player1 s' = player1 s /\ player2 s' = player2 s
      /\ player1Ready s' = player1Ready s /\ player2Ready s' = player2Ready s
      /\ difficulty s' = difficulty s /\ guesses s' = guesses s
      /\ guessesEvaluated s' = guessesEvaluated s /\ winner s' = winner s
      /\ _preferredPlayer1 this' = _preferredPlayer1 this
      /\ _preferredPlayer2 this' = _preferredPlayer2 this)
  /\ firstPlayer s' = (if preferredInSlot this then firstPlayer s else Player1)
  /\ cordle s'
     = (if both && bool_decide (occupant (firstPlayer s') s = Some p)
        then Some (toUpperCase (selectedCordle w (difficulty s)))
        else cordle s)
  /\ status s'
     = (if both && truthyb (player1Ready s) && truthyb (player2Ready s)
        then IN_PROGRESS else WAITING_TO_START).
Proof.
  cbv zeta. rewrite (startGame_again w p this Hst Hocc Hr1 Hr2).
  repeat split.
Qed.

Lemma start_again_outcome_witness :
  cordle (state (startGame berry "ann" halfStartedGame).2) = Some "BERRY".
Proof.
  refine (proj1 (proj2 (proj2 (proj2
            (start_again_outcome berry "ann" halfStartedGame _ _ _ _))))).
  - reflexivity.
  - left. reflexivity.
  - intros _. reflexivity.
  - intros H. discriminate H.
Defined.

(** C2 as stated fails: in the half-started game "ann" is ready and the
    secret word is APPLE; she calls [startGame] again, the word provider
    answers "berry", and the secret word becomes BERRY. *)
Lemma start_again_redraws :
  status (state halfStartedGame) = WAITING_TO_START
  /\ player1 (state halfStartedGame) = Some "ann"
  /\ player1Ready (state halfStartedGame) = Some true
  /\ cordle (state halfStartedGame) = Some "APPLE"
  /\ (startGame berry "ann" halfStartedGame).1 = Normal tt
  /\ cordle (state (startGame berry "ann" halfStartedGame).2) = Some "BERRY"
  /\ (startGame berry "ann" halfStartedGame).2 <> halfStartedGame.
Proof. vm_compute. repeat split. discriminate. Qed.

(** *** Who moves first *)

Lemma new_firstPlayer (priorGame : option CordleGame) :
  firstPlayer (state (new_CordleGame priorGame)) = constructedFirstPlayer priorGame.
Proof. by destruct priorGame. Qed.

(** [startGame] assigns [firstPlayer] when its two checks have passed and
    no preferred player is in its slot, and then assigns [Player1]. *)
Lemma startGame_firstPlayer (w : WordsFile -> string) (p : PlayerID)
    (this : CordleGame) :
  firstPlayer (state (startGame w p this).2)
  = if bool_decide (status (state this) = WAITING_TO_START)
       && (bool_decide (player1 (state this) = Some p)
           || bool_decide (player2 (state this) = Some p))
       && negb (preferredInSlot this)
    then Player1 else firstPlayer (state this).
Proof.
  destruct this as [[gs st fp co ge di p1 p2 r1 r2 wi] pp1 pp2].
  unfold preferredInSlot. munfold. mcase; done.
Qed.

(** Only [startGame] assigns [firstPlayer], and only the value [Player1]. *)
Lemma firstPlayer_after (c : Command) (this : CordleGame) :
  firstPlayer (state (after c this)) = firstPlayer (state this)
  \/ (isStart c = true /\ firstPlayer (state (after c this)) = Player1).
Proof.
  destruct this as [[gs st fp co ge di p1 p2 r1 r2 wi] pp1 pp2].
  destruct c; munfold; mcase; auto.
Qed.

(** The preferred player of a slot joins while that slot is empty. *)
Lemma join_preferred_slot1 (a : PlayerID) (this : CordleGame) :
  _preferredPlayer1 this = Some a ->
  truthy (player1 (state this)) = false ->
  player1 (state this) <> Some a -> player2 (state this) <> Some a ->
  _join a this
  = (Normal tt,
     {| state := set_status
                   (if truthy (Some a) && truthy (player2 (state this))
                    then WAITING_TO_START else WAITING_FOR_PLAYERS)
                   (set_player1 (Some a) (state this));
        _preferredPlayer1 := _preferredPlayer1 this;
        _preferredPlayer2 := _preferredPlayer2 this |}).
Proof.
  destruct this as [[gs st fp co ge di p1 p2 r1 r2 wi] pp1 pp2].
  msimpl. intros -> Hp1 N1 N2. munfold. mcase; try reflexivity; congruence.
Qed.

Lemma join_preferred_slot2 (b : PlayerID) (this : CordleGame) :
  _preferredPlayer2 this = Some b ->
  _preferredPlayer1 this <> Some b ->
  truthy (player2 (state this)) = false ->
  player1 (state this) <> Some b -> player2 (state this) <> Some b ->
  _join b this
  = (Normal tt,
     {| state := set_status
                   (if truthy (player1 (state this)) && truthy (Some b)
                    then WAITING_TO_START else WAITING_FOR_PLAYERS)
                   (set_player2 (Some b) (state this));
        _preferredPlayer1 := _preferredPlayer1 this;
        _preferredPlayer2 := _preferredPlayer2 this |}).
Proof.
  destruct this as [[gs st fp co ge di p1 p2 r1 r2 wi] pp1 pp2].
  msimpl. intros -> Hpp1 Hp2 N1 N2. munfold. mcase; try reflexivity; congruence.
Qed.

(** Both players of the prior game join the next one, in either order: each
    gets the slot it had. *)
Lemma rematch_slots (A : CordleGame) (a b : PlayerID) :
  player1 (state A) = Some a -> player2 (state A) = Some b ->
  truthy (Some a) = true -> truthy (Some b) = true -> a <> b ->
  forall cs, cs = [Join a; Join b] \/ cs = [Join b; Join a] ->
    run cs (new_CordleGame (Some A))
    = {| state := set_status WAITING_TO_START
                    (set_player2 (Some b)
                       (set_player1 (Some a) (state (new_CordleGame (Some A)))));
         _preferredPlayer1 := Some a;
         _preferredPlayer2 := Some b |}.
Proof.
  intros Ha Hb Hta Htb Hab cs Hcs.
  unfold new_CordleGame. cbn [mbind option_bind fmap option_fmap option_map default].
  rewrite Ha, Hb.
  assert (Hba : b <> a) by congruence.
  destruct Hcs as [-> | ->]; unfold run, after, exec; cbn [fold_left].
  - rewrite (join_preferred_slot1 a)
      by (cbn; first [reflexivity | discriminate]).
    msimpl.
    rewrite (join_preferred_slot2 b)
      by (cbn; first [reflexivity | discriminate | congruence]).
    msimpl. by rewrite Hta, Htb.
  - rewrite (join_preferred_slot2 b)
      by (cbn; first [reflexivity | discriminate | congruence]).
    msimpl.
    rewrite (join_preferred_slot1 a)
      by (cbn; first [reflexivity | discriminate | congruence]).
    msimpl. by rewrite Hta, Htb.
Qed.

(** While a preferred player sits in its slot, a call that keeps the slots
    keeps [firstPlayer]. *)
Lemma preferredInSlot_after (c : Command) (this : CordleGame) :
  preferredInSlot this = true -> keepsPlayers c = true ->
  preferredInSlot (after c this) = true
  /\ firstPlayer (state (after c this)) = firstPlayer (state this).
Proof.
  intros Hpref Hc.
  assert (Hplayers : player1 (state (after c this)) = player1 (state this)
                     /\ player2 (state (after c this)) = player2 (state this)).
  { destruct c as [p|p|w p|d|move]; try discriminate Hc.
    - by destruct (start_effect w p this) as (_ & _ & _ & ? & ? & _).
    - by destruct (setDifficulty_effect d this) as (_ & _ & _ & ? & ? & _).
    - by destruct (applyMove_effect move this) as (? & ? & _). }
  destruct Hplayers as [Hp1 Hp2].
  destruct (preferred_after c this) as [Hpp1 Hpp2].
  split.
  - unfold preferredInSlot in *. by rewrite Hp1, Hp2, Hpp1, Hpp2.
  - destruct (firstPlayer_after c this) as [Hsame|[Hstart Hfirst]]; [done|].
    destruct c as [| |w p| |]; try discriminate Hstart.
    unfold after, exec in *. rewrite startGame_firstPlayer.
    rewrite Hpref. cbn [negb]. by rewrite andb_false_r.
Qed.

Lemma preferredInSlot_run (cs : list Command) (this : CordleGame) :
  preferredInSlot this = true -> forallb keepsPlayers cs = true ->
  firstPlayer (state (run cs this)) = firstPlayer (state this).
Proof.
  revert this. induction cs as [|c cs IH]; intros this Hpref Hcs; [done|].
  cbn in Hcs. apply andb_prop in Hcs as [Hc Hcs].
  destruct (preferredInSlot_after c this Hpref Hc) as [Hpref' <-].
  by apply IH.
Qed.

(** C3, as the code has it.  At start time, that is when [startGame] has
    passed its two checks, [firstPlayer] is set to [Player1] if and only if
    the preferred player 1 is not the occupant of slot 1 and the preferred
    player 2 is not the occupant of slot 2; otherwise it keeps its current
    value.  That value is the constructed one, the opposite of the prior
    game's [firstPlayer] ([Player1] without a prior game), as long as no
    earlier [startGame] has set it: no other call assigns it.  Hence after a
    game whose [firstPlayer] was [Player1] the same two players in the same
    slots get [Player2], whichever of them starts and whatever starts and
    moves follow, and two players of whom none is a preferred one get
    [Player1]. *)
Theorem firstPlayer_at_start (w : WordsFile -> string) (p : PlayerID)
    (this : CordleGame)
    (Hst : status (state this) = WAITING_TO_START)
    (Hocc : player1 (state this) = Some p \/ player2 (state this) = Some p) :
  firstPlayer (state (startGame w p this).2)
  = (if bool_decide (_preferredPlayer1 this <> player1 (state this)
                     /\ _preferredPlayer2 this <> player2 (state this))
     then Player1 else firstPlayer (state this))
  /\ (forall priorGame : option CordleGame,
        firstPlayer (state (new_CordleGame priorGame))
        = constructedFirstPlayer priorGame)
  /\ (forall (c : Command) (g : CordleGame),
        firstPlayer (state (after c g)) = firstPlayer (state g)
        \/ (isStart c = true /\ firstPlayer (state (after c g)) = Player1))
  /\ (forall (A : CordleGame) (a b : PlayerID) (cs cs' : list Command),
        firstPlayer (state A) = Player1 ->
        player1 (state A) = Some a -> player2 (state A) = Some b ->
        truthy (Some a) = true -> truthy (Some b) = true -> a <> b ->
        cs = [Join a; Join b] \/ cs = [Join b; Join a] ->
        forallb keepsPlayers cs' = true ->
        firstPlayer (state (run (cs ++ cs') (new_CordleGame (Some A))))
        = Player2)
  /\ (_preferredPlayer1 this <> player1 (state this) ->
      _preferredPlayer1 this <> player2 (state this) ->
      _preferredPlayer2 this <> player1 (state this) ->
      _preferredPlayer2 this <> player2 (state this) ->
      firstPlayer (state (startGame w p this).2) = Player1).
Proof.
  assert (Hfirst : firstPlayer (state (startGame w p this).2)
                   = (if bool_decide (_preferredPlayer1 this <> player1 (state this)
                                      /\ _preferredPlayer2 this <> player2 (state this))
                      then Player1 else firstPlayer (state this))).
  { rewrite startGame_firstPlayer. unfold preferredInSlot.
    rewrite (bool_decide_eq_true_2 _ Hst).
    repeat case_bool_decide; cbn; try done; exfalso; intuition congruence. }
  split; [exact Hfirst|].
  split; [apply new_firstPlayer|].
  split; [apply firstPlayer_after|].
  split.
  - intros A a b cs cs' HA Ha Hb Hta Htb Hab Hcs Hcs'.
    unfold run. rewrite fold_left_app.
    change (fold_left (fun g c => after c g) cs (new_CordleGame (Some A)))
      with (run cs (new_CordleGame (Some A))).
    rewrite (rematch_slots A a b Ha Hb Hta Htb Hab cs Hcs).
    rewrite (preferredInSlot_run cs'); [|unfold preferredInSlot; cbn|done].
    + cbn. by rewrite HA.
    + by rewrite bool_decide_eq_true_2.
  - intros N11 N12 N21 N22. rewrite Hfirst.
    by rewrite bool_decide_eq_true_2.
Qed.

Lemma firstPlayer_at_start_witness :
  firstPlayer (state (startGame apple "ann" annDisplaced).2) = Player1.
Proof.
  refine (proj1 (firstPlayer_at_start apple "ann" annDisplaced _ _)).
  - reflexivity.
  - right. reflexivity.
Defined.

(** C3 as stated fails.  In the second game "ann" is back in her preferred
    slot, so an occupant does match a preferred player, and the constructed
    value of [firstPlayer] is [Player2]; yet after she starts, [firstPlayer]
    is [Player1], the value that an earlier [startGame] had forced. *)
Lemma firstPlayer_not_restored :
  status (state annReturns) = WAITING_TO_START
  /\ player1 (state annReturns) = Some "ann"
  /\ _preferredPlayer1 annReturns = Some "ann"
  /\ constructedFirstPlayer (Some runningGame) = Player2
  /\ firstPlayer (state (startGame apple "ann" annReturns).2) = Player1.
Proof. vm_compute. repeat split. Qed.

(** The test on the preferred players is slot by slot: "ann", a player of
    the prior game, sits in slot 2 of the next one, and slot 1 moves first. *)
Example preferred_player_in_other_slot :
  player2 (state annDisplaced) = _preferredPlayer1 annDisplaced
  /\ firstPlayer (state annDisplaced) = Player2
  /\ firstPlayer (state (startGame apple "ann" annDisplaced).2) = Player1.
Proof. vm_compute. repeat split. Qed.

(** ** Invariants of the instances *)

Lemma slotsFilled_after (c : Command) (this : CordleGame) :
  slotsFilled this = true -> slotsFilled (after c this) = true.
Proof.
  unfold slotsFilled. intros Hinv.
  destruct c as [p|p|w p|d|move].
  - destruct (join_effect p this) as (_ & _ & _ & [->|[_ ->]]); [done|].
    by destruct (truthy (player1 (state (after (Join p) this))) && _).
  - destruct (leave_effect p this)
      as (_ & _ & [->|[[_ ->]|(_ & _ & -> & _)]]); done.
  - destruct (start_effect w p this)
      as (_ & _ & _ & -> & -> & [->|[Hst [->|[-> ?]]]]); try done.
    by rewrite Hst in Hinv.
  - destruct (setDifficulty_effect d this) as (_ & _ & _ & -> & -> & ->).
    done.
  - destruct (applyMove_effect move this) as (-> & -> & [->|Hacc]); [done|].
    destruct Hacc as (Hst & _ & _ & Hres). rewrite Hst in Hinv.
    assert (Hst' : status (state (after (ApplyMove move) this)) = OVER
                   \/ status (state (after (ApplyMove move) this)) = IN_PROGRESS)
      by (repeat case_match; injection Hres; auto).
    by destruct Hst' as [-> | ->].
Qed.

Lemma slotsFilled_run (cs : list Command) (this : CordleGame) :
  slotsFilled this = true -> slotsFilled (run cs this) = true.
Proof.
  revert this. induction cs as [|c cs IH]; intros this Hinv; [done|].
  apply IH. by apply slotsFilled_after.
Qed.

Lemma slotsFilled_new (priorGame : option CordleGame) :
  slotsFilled (new_CordleGame priorGame) = true.
Proof. reflexivity. Qed.

(** ** The guess limit *)

Lemma withinLimit_spec (this : CordleGame) :
  withinLimit this = true
  <-> slotsFilled this = true
      /\ (status (state this) = OVER -> length (guesses (state this)) <= 6)
      /\ (status (state this) <> OVER ->
          truthy (winner (state this)) = false
          /\ length (guesses (state this)) <= 5).
Proof.
  unfold withinLimit. rewrite andb_true_iff.
  destruct (status (state this));
    rewrite ?andb_true_iff, ?negb_true_iff, ?Nat.leb_le; intuition congruence.
Qed.
Lemma withinLimit_after (c : Command) (this : CordleGame) :
  withinLimit this = true ->
  negb (isJoin c && bool_decide (status (state this) = OVER)) = true ->
  withinLimit (after c this) = true.
Proof.
  intros Hinv Hguard.
  pose proof (slotsFilled_after c this) as Hslots.
  rewrite withinLimit_spec in Hinv |- *.
  destruct Hinv as (Hs & Hover & Hlive). specialize (Hslots Hs).
  split; [done|].
  destruct c as [p|p|w p|d|move].
  - destruct (join_effect p this) as (Hg & _ & Hw & [Hsame|[_ Hst']]).
    { rewrite Hsame.
      cbn in Hguard. by case_bool_decide. }
    cbn in Hguard. case_bool_decide as Hst; [done|].
    rewrite Hg, Hw, Hst'. split; [by case_match|]. intros _. by apply Hlive.
  - destruct (leave_effect p this)
      as (Hg & _ & [Hsame|[[Hst Hst']|(Hst1 & Hst2 & Hst' & Hw)]]).
    + by rewrite Hsame.
    + rewrite Hg, Hst'. split; [|done]. intros _.
      destruct Hlive as [_ Hlen]; [congruence|lia].
    + rewrite Hg, Hw, Hst'. split; [done|]. intros _. by apply Hlive.
  - destruct (start_effect w p this)
      as (Hg & _ & Hw & _ & _ & [Hsame|[Hst Hst']]).
    { by rewrite Hsame. }
    rewrite Hg, Hw.
    assert (Hnot : status (state (after (Start w p) this)) <> OVER)
      by (destruct Hst' as [->|[-> _]]; done).
    split; [done|]. intros _. apply Hlive. congruence.
  - destruct (setDifficulty_effect d this) as (Hg & _ & Hw & _ & _ & Hst).
    rewrite Hg, Hw, Hst. done.
  - destruct (applyMove_effect move this)
      as (_ & _ & [Hsame|(Hst & Hg & _ & Hres)]).
    { by rewrite Hsame. }
    destruct Hlive as [Hw Hlen]; [congruence|].
    rewrite Hg, Hw in *. cbn [negb] in Hres. rewrite andb_true_r in Hres.
    rewrite length_app. cbn [length].
    destruct (allGreen _).
    + injection Hres as Hst' Hw'. rewrite Hst'. split; [lia|done].
    + destruct (Nat.leb 6 _) eqn:Hfull; injection Hres as Hst' Hw';
        rewrite Hst', Hw'.
      * split; [lia|done].
      * split; [done|]. intros _. split; [done|]. leb_lia.
Qed.

Lemma withinLimit_run (cs : list Command) (this : CordleGame) :
  withinLimit this = true -> neverJoinsOver cs this = true ->
  withinLimit (run cs this) = true.
Proof.
  revert this. induction cs as [|c cs IH]; intros this Hinv Hguard; [done|].
  cbn in Hguard. apply andb_prop in Hguard as [Hc Hcs].
  apply IH; [by apply withinLimit_after|done].
Qed.

(** Once over with both slots occupied, an instance no longer changes,
    except for its difficulty. *)
Lemma finished_after (c : Command) (this : CordleGame) :
  finished this = true -> finished (after c this) = true.
Proof.
  unfold finished. rewrite !andb_true_iff, !bool_decide_eq_true.
  intros [[Hst H1] H2].
  destruct c as [p|p|w p|d|move].
  - destruct (join_effect p this) as (_ & _ & _ & [->|[Hfree _]]); [done|].
    rewrite H1, H2 in Hfree. done.
  - destruct (leave_effect p this)
      as (_ & _ & [->|[[? _]|(_ & ? & _)]]); [done|congruence..].
  - destruct (start_effect w p this)
      as (_ & _ & _ & _ & _ & [->|[? _]]); [done|congruence].
  - destruct (setDifficulty_effect d this) as (_ & _ & _ & -> & -> & ->).
    done.
  - destruct (applyMove_effect move this) as (_ & _ & [->|[? _]]);
      [done|congruence].
Qed.

Lemma finished_run (cs : list Command) (this : CordleGame) :
  finished this = true -> finished (run cs this) = true.
Proof.
  revert this. induction cs as [|c cs IH]; intros this Hinv; [done|].
  apply IH. by apply finished_after.
Qed.

Lemma withinLimit_new (priorGame : option CordleGame) :
  withinLimit (new_CordleGame priorGame) = true.
Proof. reflexivity. Qed.

Lemma applyMove_when_over (move : CordleGuess) (this : CordleGame) :
  status (state this) = OVER ->
  applyMove move this = (Throw GAME_NOT_IN_PROGRESS_MESSAGE, this).
Proof.
  intros Hst. rewrite applyMove_unfold, Hst.
  by rewrite bool_decide_eq_false_2.
Qed.

(** C6, as the code has it.  As long as no player joins an instance that is
    already [OVER], [guesses.length] is at most 6; when the guess that
    [applyMove] accepts is the sixth, the status becomes [OVER], the winner
    is [DRAW] unless the row is all Green, and from then on every
    [applyMove], after whatever calls, throws
    [GAME_NOT_IN_PROGRESS_MESSAGE]. *)
Theorem guess_limit (priorGame : option CordleGame) (cs : list Command)
    (Hguard : neverJoinsOver cs (new_CordleGame priorGame) = true) :
  let g := run cs (new_CordleGame priorGame) in
  length (guesses (state g)) <= 6
  /\ forall move : CordleGuess,
       returns (applyMove move g) = true ->
       length (guesses (state g)) = 5 ->
       let g' := after (ApplyMove move) g in
       length (guesses (state g')) = 6
       /\ status (state g') = OVER
       /\ (allGreen (guessColors (cordle (state g)) (guessedWord move)) = false ->
           winner (state g') = Some DRAW)
       /\ forall (cs' : list Command) (move' : CordleGuess),
            applyMove move' (run cs' g')
            = (Throw GAME_NOT_IN_PROGRESS_MESSAGE, run cs' g').
Proof.
  intros g.
  pose proof (withinLimit_run cs _ (withinLimit_new priorGame) Hguard) as Hinv.
  fold g in Hinv. apply withinLimit_spec in Hinv as (Hslots & Hover & Hlive).
  split.
  { destruct (decide (status (state g) = OVER)) as [Hst|Hst].
    - by apply Hover.
    - destruct (Hlive Hst). lia. }
  intros move Hret Hlen g'.
  destruct (applyMove_accepted move g Hret) as (Hst & _ & Hg & _ & Hp1 & Hp2).
  fold g' in Hg, Hp1, Hp2.
  destruct Hlive as [Hw _]; [congruence|].
  assert (Hlen' : length (guesses (state g')) = 6)
    by (rewrite Hg, length_app; cbn; lia).
  destruct (applyMove_effect move g) as (_ & _ & [Hsame|(_ & _ & _ & Hres)]).
  { fold g' in Hsame. rewrite Hsame in Hlen'. lia. }
  fold g' in Hres. rewrite Hw in Hres. cbn [negb] in Hres.
  rewrite andb_true_r, length_app, Hlen in Hres. cbn in Hres.
  assert (Hst' : status (state g') = OVER).
  { destruct (allGreen _); by injection Hres. }
  split; [done|]. split; [done|]. split.
  { intros Hrow. rewrite Hrow in Hres. by injection Hres. }
  intros cs' move'. apply applyMove_when_over.
  assert (Hfin : finished g' = true).
  { unfold finished. rewrite Hst', Hp1, Hp2.
    unfold slotsFilled in Hslots. rewrite Hst in Hslots.
    by rewrite bool_decide_eq_true_2. }
  pose proof (finished_run cs' g' Hfin) as Hfin'.
  unfold finished in Hfin'. rewrite !andb_true_iff in Hfin'.
  destruct Hfin' as [[Hover' _] _]. by apply bool_decide_eq_true in Hover'.
Qed.

Lemma guess_limit_witness :
  length (guesses (state (run drawTrace (new_CordleGame None)))) <= 6.
Proof.
  exact (proj1 (guess_limit None drawTrace eq_refl)).
Defined.

(** C6 as stated fails: a third player joins the abandoned game, which is
    [OVER] with a winner recorded, and starts it; the winner stays recorded,
    so that the sixth guess ends nothing and a seventh one is accepted. *)
Lemma guess_limit_exceeded :
  length (guesses (state overflowGame)) = 7
  /\ status (state overflowGame) = IN_PROGRESS.
Proof. vm_compute. split; reflexivity. Qed.

(** The six wrong guesses of the tests end in a draw. *)
Example six_wrong_guesses_draw :
  let g := run (drawTrace ++ [wrong "bob" GN6]) (new_CordleGame None) in
  status (state g) = OVER /\ winner (state g) = Some DRAW.
Proof. vm_compute. split; reflexivity. Qed.

(** ** Evaluated rows *)

Lemma rowsInStep_after (c : Command) (this : CordleGame) :
  rowsInStep this ->
  numberedInOrder [c] this = true ->
  rowsInStep (after c this).
Proof.
  unfold rowsInStep. intros [Hdense Hlen] Hnum.
  destruct c as [p|p|w p|d|move].
  - destruct (join_effect p this) as (-> & -> & _). done.
  - destruct (leave_effect p this) as (-> & -> & _). done.
  - destruct (start_effect w p this) as (-> & -> & _). done.
  - destruct (setDifficulty_effect d this) as (-> & -> & _). done.
  - cbn in Hnum. rewrite andb_true_r in Hnum.
    destruct (returns (applyMove move this)) eqn:Hret.
    + cbn in Hnum. apply Nat.eqb_eq in Hnum.
      destruct (applyMove_accepted move this Hret) as (_ & _ & -> & -> & _).
      rewrite js_set_end by lia.
      split; [|rewrite !length_app; cbn; lia].
      apply Forall_app. split; [done|]. by repeat constructor.
    + by rewrite applyMove_rejected.
Qed.

Lemma rowsInStep_run (cs : list Command) (this : CordleGame) :
  rowsInStep this -> numberedInOrder cs this = true -> rowsInStep (run cs this).
Proof.
  revert this. induction cs as [|c cs IH]; intros this Hinv Hnum; [done|].
  cbn in Hnum. apply andb_prop in Hnum as [Hc Hcs].
  apply IH; [|done]. apply rowsInStep_after; [done|].
  cbn. by rewrite Hc.
Qed.

Lemma rowsInStep_defined (this : CordleGame) (i : nat) :
  rowsInStep this ->
  is_Some (js_get (guessesEvaluated (state this)) i)
  <-> is_Some (guesses (state this) !! i).
Proof.
  intros [Hdense Hlen]. rewrite lookup_lt_is_Some, <- Hlen. unfold js_get.
  split.
  - intros [row Hrow].
    destruct (guessesEvaluated (state this) !! i) eqn:Hi; [|done].
    by apply lookup_lt_Some in Hi.
  - intros Hi. apply lookup_lt_is_Some in Hi as [slot Hslot].
    rewrite Hslot. cbn.
    by apply (Forall_lookup_1 _ _ _ _ Hdense Hslot).
Qed.

(** C7, as the code has it.  [_applyGuess] stores the row at index
    [guessNumber - 1] and does not compare [guessNumber] with the number of
    guesses.  In every state reached by calls of which each accepted guess
    carries [guesses.length + 1] as its number, [guessesEvaluated[i]] is
    defined if and only if [guesses[i]] is, and the row of a guess that is
    accepted next is found at index [guessNumber - 1]. *)
Theorem rows_in_step (priorGame : option CordleGame) (cs : list Command)
    (Hnum : numberedInOrder cs (new_CordleGame priorGame) = true) :
  let g := run cs (new_CordleGame priorGame) in
  (forall i : nat,
      is_Some (js_get (guessesEvaluated (state g)) i)
      <-> is_Some (guesses (state g) !! i))
  /\ forall move : CordleGuess,
       returns (applyMove move g) = true ->
       js_get (guessesEvaluated (state (after (ApplyMove move) g)))
              (guessNumber_value (guessNumber move) - 1)
       = Some (guessColors (cordle (state g)) (guessedWord move)).
Proof.
  intros g. split.
  - intros i. apply rowsInStep_defined.
    apply rowsInStep_run; [|done]. by split.
  - intros move Hret.
    destruct (applyMove_accepted move g Hret) as (_ & _ & _ & -> & _).
    apply js_get_set_eq.
Qed.

Lemma rows_in_step_witness :
  is_Some (js_get (guessesEvaluated
                     (state (run drawTrace (new_CordleGame None)))) 4)
  <-> is_Some (guesses (state (run drawTrace (new_CordleGame None))) !! 4).
Proof.
  refine (proj1 (rows_in_step None drawTrace _) 4).
  vm_compute. reflexivity.
Defined.

(** C7 as stated fails: the first guess of the running game is accepted
    with number 3; it is [guesses[0]], its row is [guessesEvaluated[2]], and
    [guessesEvaluated[0]] is a hole. *)
Lemma rows_out_of_step :
  is_Some (guesses (state misnumberedGame) !! 0)
  /\ js_get (guessesEvaluated (state misnumberedGame)) 0 = None
  /\ is_Some (js_get (guessesEvaluated (state misnumberedGame)) 2)
  /\ guesses (state misnumberedGame) !! 2 = None.
Proof. vm_compute. repeat split; by eexists. Qed.

(** ** Guesses of any length *)

Lemma guessColors_empty (cordle : option string) : guessColors cordle "" = [].
Proof. reflexivity. Qed.

(** C10. In a game [IN_PROGRESS], a guess whose word is empty and whose
    player is the one to move is accepted: its row is empty, all of its
    cells are Green, the game is [OVER] and the guesser is the winner.  No
    guess of the player to move is rejected, whatever its word; only
    [makeMove], upstream, refuses a word that has not five letters. *)
Theorem empty_guess_wins (priorGame : option CordleGame) (cs : list Command)
    (move : CordleGuess) :
  let g := run cs (new_CordleGame priorGame) in
  let s := state g in
  let s' := state (after (ApplyMove move) g) in
  status s = IN_PROGRESS ->
  guessedWord move = "" ->
  occupant (actingSlot (firstPlayer s) (length (guesses s))) s
  = Some (player move) ->
  (applyMove move g).1 = Normal tt
  /\ guessColors (cordle s) (guessedWord move) = []
  /\ js_get (guessesEvaluated s') (guessNumber_value (guessNumber move) - 1)
     = Some []
  /\ allGreen [] = true
  /\ guesses s' = guesses s ++ [move]
  /\ status s' = OVER
  /\ winner s' = Some (player move)
  /\ (forall move' : CordleGuess,
        occupant (actingSlot (firstPlayer s) (length (guesses s))) s
        = Some (player move') ->
        (applyMove move' g).1 = Normal tt)
  /\ makeMove_wrongLength (guessedWord move) = true.
Proof.
  intros g s s' Hst Hword Hturn.
  pose proof (slotsFilled_run cs _ (slotsFilled_new priorGame)) as Hslots.
  fold g in Hslots. unfold slotsFilled in Hslots. fold s in Hslots.
  rewrite Hst in Hslots. apply andb_prop in Hslots as [H1 H2].
  assert (Hplayer : truthy (Some (player move)) = true).
  { rewrite <- Hturn. unfold occupant. by case_match. }
  assert (Haccept : forall move' : CordleGuess,
             occupant (actingSlot (firstPlayer s) (length (guesses s))) s
             = Some (player move') ->
             applyMove move' g = _applyGuess move' g).
  { intros move' Hturn'. rewrite applyMove_unfold. fold s.
    rewrite Hst, Hturn'. by rewrite !bool_decide_eq_true_2. }
  subst s'. unfold after, exec.
  rewrite (Haccept move Hturn), _applyGuess_unfold. fold s.
  rewrite Hword, guessColors_empty. cbv zeta. cbn [fst snd state allGreen js_every forallb].
  msimpl. rewrite Hplayer, andb_false_r. msimpl.
  repeat split; try done.
  - apply js_get_set_eq.
  - intros move' Hturn'. by rewrite (Haccept move' Hturn'), _applyGuess_unfold.
Qed.

Lemma empty_guess_wins_witness :
  winner (state (after (ApplyMove emptyGuess)
                       (run startedTrace (new_CordleGame None))))
  = Some (player emptyGuess).
Proof.
  refine (proj1 (proj2 (proj2 (proj2 (proj2 (proj2 (proj2
            (empty_guess_wins None startedTrace emptyGuess _ _ _)))))))).
  - vm_compute. reflexivity.
  - reflexivity.
  - vm_compute. reflexivity.
Defined.

(** * Further properties of the game *)

(** ** [_join], [_leave] and [startGame] in one piece *)

(** [_join]: the player gets slot 1 if it is free and either the player is
    the preferred one of slot 1 or has no claim on a free slot 2; else
    slot 2 if it is free. *)
Lemma _join_unfold (p : PlayerID) (this : CordleGame) :
  let s := state this in
  let seat (s' : CordleGameState) :=
    (Normal tt,
     {| state := set_status
                   (if truthy (player1 s') && truthy (player2 s')
                    then WAITING_TO_START else WAITING_FOR_PLAYERS) s';
        _preferredPlayer1 := _preferredPlayer1 this;
        _preferredPlayer2 := _preferredPlayer2 this |}) in
  _join p this
  = if bool_decide (player1 s = Some p) || bool_decide (player2 s = Some p)
    then (Throw PLAYER_ALREADY_IN_GAME_MESSAGE, this)
    else if negb (truthy (player1 s))
            && (bool_decide (_preferredPlayer1 this = Some p)
                || negb (bool_decide (_preferredPlayer2 this = Some p)
                         && negb (truthy (player2 s))))
    then seat (set_player1 (Some p) s)
    else if negb (truthy (player2 s))
    then seat (set_player2 (Some p) s)
    else (Throw GAME_FULL_MESSAGE, this).
Proof.
  destruct this as [[gs st fp co ge di p1 p2 r1 r2 wi] pp1 pp2].
  munfold. mcase; try reflexivity; congruence.
Qed.

(** [_leave]: nothing on a game that is over; else the slot of the player
    is vacated and its ready flag cleared. *)
Lemma _leave_unfold (p : PlayerID) (this : CordleGame) :
  let s := state this in
  let vacate (s' : CordleGameState) (other : option PlayerID) :=
    (Normal tt,
     {| state := match status s with
                 | IN_PROGRESS => set_winner other (set_status OVER s')
                 | _ => set_status WAITING_FOR_PLAYERS s'
                 end;
        _preferredPlayer1 := _preferredPlayer1 this;
        _preferredPlayer2 := _preferredPlayer2 this |}) in
  _leave p this
  = if bool_decide (status s = OVER) then (Normal tt, this)
    else if bool_decide (player1 s = Some p)
    then vacate (set_player1Ready (Some false) (set_player1 None s)) (player2 s)
    else if bool_decide (player2 s = Some p)
    then vacate (set_player2Ready (Some false) (set_player2 None s)) (player1 s)
    else (Throw PLAYER_NOT_IN_GAME_MESSAGE, this).
Proof.
  destruct this as [[gs st fp co ge di p1 p2 r1 r2 wi] pp1 pp2].
  munfold. mcase; try reflexivity; congruence.
Qed.

(** [startGame]: the two checks, then the ready flags, [firstPlayer], the
    secret word and the status, in this order. *)
Lemma startGame_unfold (w : WordsFile -> string) (p : PlayerID)
    (this : CordleGame) :
  let s := state this in
  let s1 := if bool_decide (player1 s = Some p)
            then set_player1Ready (Some true) s else s in
  let s2 := if bool_decide (player2 s = Some p)
            then set_player2Ready (Some true) s1 else s1 in
  let s3 := if preferredInSlot this then s2 else set_firstPlayer Player1 s2 in
  let s4 := if bool_decide (occupant (firstPlayer s3) s = Some p)
            then set_cordle (Some (toUpperCase (selectedCordle w (difficulty s)))) s3
            else s3 in
  let s5 := if truthy (player1 s) && truthy (player2 s)
            then set_status
                   (if truthyb (player1Ready s2) && truthyb (player2Ready s2)
                    then IN_PROGRESS else WAITING_TO_START) s4
            else s3 in
  startGame w p this
  = if negb (bool_decide (status s = WAITING_TO_START))
    then (Throw GAME_NOT_STARTABLE_MESSAGE, this)
    else if negb (bool_decide (player1 s = Some p))
            && negb (bool_decide (player2 s = Some p))
    then (Throw PLAYER_NOT_IN_GAME_MESSAGE, this)
    else (Normal tt,
          {| state := s5;
             _preferredPlayer1 := _preferredPlayer1 this;
             _preferredPlayer2 := _preferredPlayer2 this |}).
Proof.
  destruct this as [[gs st fp co ge di p1 p2 r1 r2 wi] pp1 pp2].
  unfold preferredInSlot, occupant. munfold.
  destruct fp; mcase; try reflexivity; congruence.
Qed.

(** ** The life cycle of an instance *)

Lemma lifecycle_new (priorGame : option CordleGame) :
  lifecycle (new_CordleGame priorGame).
Proof. split; cbn; intros; try done; intuition congruence. Qed.

(** The outcomes of a call, case by case. *)
Lemma join_cases (p : PlayerID) (this : CordleGame) :
  let s := state this in
  let s' := state (after (Join p) this) in
  after (Join p) this = this
  \/ (player1 s <> Some p /\ player2 s <> Some p
      /\ truthy (player1 s) = false
      /\ s' = set_status (if truthy (Some p) && truthy (player2 s)
                          then WAITING_TO_START else WAITING_FOR_PLAYERS)
                         (set_player1 (Some p) s))
  \/ (player1 s <> Some p /\ player2 s <> Some p
      /\ truthy (player2 s) = false
      /\ s' = set_status (if truthy (player1 s) && truthy (Some p)
                          then WAITING_TO_START else WAITING_FOR_PLAYERS)
                         (set_player2 (Some p) s)).
Proof.
  cbv zeta. unfold after, exec. rewrite _join_unfold. cbv zeta. msimpl.
  destruct (bool_decide (player1 (state this) = Some p)) eqn:H1;
    [by left|].
  destruct (bool_decide (player2 (state this) = Some p)) eqn:H2;
    [by left|].
  apply bool_decide_eq_false in H1, H2. cbn [orb].
  destruct (truthy (player1 (state this))) eqn:Ht1;
    destruct (truthy (player2 (state this))) eqn:Ht2;
    cbn [negb andb]; try (by left).
  - right; right. done.
  - destruct (_ || _); cbn [fst snd state].
    + right; left. done.
    + by left.
  - destruct (_ || _); cbn [fst snd state].
    + right; left. done.
    + right; right. done.
Qed.

Lemma leave_cases (p : PlayerID) (this : CordleGame) :
  let s := state this in
  let s' := state (after (Leave p) this) in
  let ended (s0 : CordleGameState) (other : option PlayerID) :=
    match status s with
    | IN_PROGRESS => set_winner other (set_status OVER s0)
    | _ => set_status WAITING_FOR_PLAYERS s0
    end in
  after (Leave p) this = this
  \/ (status s <> OVER /\ player1 s = Some p
      /\ s' = ended (set_player1Ready (Some false) (set_player1 None s))
                    (player2 s))
  \/ (status s <> OVER /\ player1 s <> Some p /\ player2 s = Some p
      /\ s' = ended (set_player2Ready (Some false) (set_player2 None s))
                    (player1 s)).
Proof.
  cbv zeta. unfold after, exec. rewrite _leave_unfold. cbv zeta.
  case_bool_decide as Hst; [by left|].
  case_bool_decide as H1; [right; left; done|].
  case_bool_decide as H2; [right; right; done|].
  by left.
Qed.

Lemma start_cases (w : WordsFile -> string) (p : PlayerID) (this : CordleGame) :
  let s := state this in
  let s' := state (after (Start w p) this) in
  let s1 := if bool_decide (player1 s = Some p)
            then set_player1Ready (Some true) s else s in
  let s2 := if bool_decide (player2 s = Some p)
            then set_player2Ready (Some true) s1 else s1 in
  let s3 := if preferredInSlot this then s2 else set_firstPlayer Player1 s2 in
  let s4 := if bool_decide (occupant (firstPlayer s3) s = Some p)
            then set_cordle (Some (toUpperCase (selectedCordle w (difficulty s)))) s3
            else s3 in
  let s5 := if truthy (player1 s) && truthy (player2 s)
            then set_status
                   (if truthyb (player1Ready s2) && truthyb (player2Ready s2)
                    then IN_PROGRESS else WAITING_TO_START) s4
            else s3 in
  after (Start w p) this = this
  \/ (status s = WAITING_TO_START
      /\ (player1 s = Some p \/ player2 s = Some p)
      /\ s' = s5).
Proof.
  cbv zeta. unfold after, exec. rewrite startGame_unfold. cbv zeta.
  case_bool_decide as Hst; cbn [negb]; [|by left].
  case_bool_decide as H1; cbn [negb andb]; [right; auto|].
  case_bool_decide as H2; cbn [negb andb]; [right; auto|].
  by left.
Qed.
(** The fields that a successful [startGame] leaves, and those it sets. *)
Lemma start_fields (w : WordsFile -> string) (p : PlayerID) (this : CordleGame) :
  let s := state this in
  let s' := state (after (Start w p) this) in
  let r1 := if bool_decide (player1 s = Some p) then Some true
            else player1Ready s in
  let r2 := if bool_decide (player2 s = Some p) then Some true
            else player2Ready s in
  returns (startGame w p this) = true ->
  status s = WAITING_TO_START
  /\ (player1 s = Some p \/ player2 s = Some p)
  /\ player1 s' = player1 s /\ player2 s' = player2 s
  /\ winner s' = winner s /\ guesses s' = guesses s
  /\ guessesEvaluated s' = guessesEvaluated s
  /\ difficulty s' = difficulty s
  /\ player1Ready s' = r1 /\ player2Ready s' = r2
  /\ status s'
     = if truthy (player1 s) && truthy (player2 s)
          && truthyb r1 && truthyb r2
       then IN_PROGRESS else WAITING_TO_START.
Proof.
  cbv zeta. unfold returns, after, exec. rewrite startGame_unfold. cbv zeta.
  case_bool_decide as Hst; cbn [negb]; [|done].
  destruct (bool_decide (player1 (state this) = Some p)) eqn:H1;
    destruct (bool_decide (player2 (state this) = Some p)) eqn:H2;
    cbn [negb andb fst snd]; try done; intros _;
    (split; [done|]);
    (split; [rewrite ?bool_decide_eq_true in *; auto|]);
    destruct (preferredInSlot this);
    destruct (truthy (player1 (state this)) && truthy (player2 (state this)));
    repeat case_bool_decide; msimpl; repeat split; try done;
    by destruct (truthyb _ && truthyb _).
Qed.

Lemma start_rejected (w : WordsFile -> string) (p : PlayerID) (this : CordleGame) :
  returns (startGame w p this) = false -> after (Start w p) this = this.
Proof.
  unfold returns, after, exec. rewrite startGame_unfold. cbv zeta.
  by repeat (case_bool_decide; cbn [negb andb fst snd]).
Qed.

Lemma lifecycle_after (c : Command) (this : CordleGame) :
  lifecycle this -> lifecycle (after c this).
Proof.
  intros [Hd Hw Hs Hr1 Hr2 Hp Ho].
  destruct c as [p|p|w p|d|move].
  - destruct (join_cases p this)
      as [->|[(N1 & N2 & Hfree & Hs')|(N1 & N2 & Hfree & Hs')]];
      [by split|..]; split; rewrite Hs'; lc_field.
  - destruct (leave_cases p this)
      as [->|[(Hst & H1 & Hs')|(Hst & H1 & H2 & Hs')]];
      [by split|..]; split; rewrite Hs';
      destruct (status (state this)) eqn:Est; lc_field.
  - destruct (returns (startGame w p this)) eqn:Hret;
      [|by rewrite start_rejected; [split|]].
    destruct (start_fields w p this Hret)
      as (Hst & Hocc & E1 & E2 & Ew & _ & _ & _ & Er1 & Er2 & Est).
    specialize (Hs (or_introl Hst)).
    split; rewrite ?E1, ?E2, ?Ew, ?Er1, ?Er2, ?Est, ?Hs;
      repeat case_bool_decide; lc_field.
  - split; cbn; auto.
  - unfold after, exec. rewrite applyMove_unfold.
    case_bool_decide as Hst; cbn [negb]; [|by split].
    case_bool_decide as Hturn; cbn [negb]; [|by split].
    rewrite _applyGuess_unfold. cbv zeta.
    assert (Hmover : truthy (Some (player move)) = true).
    { rewrite Hturn. specialize (Hs (or_intror Hst)).
      apply andb_prop in Hs as [? ?]. unfold occupant. by case_match. }
    specialize (Hs (or_intror Hst)). specialize (Hp Hst).
    destruct (allGreen _); destruct (Nat.leb 6 _); msimpl;
      rewrite ?Hmover; try truthy_case (truthy (winner (state this)));
      split; msimpl; change (truthy (Some DRAW)) with true in *; lc_field.
Qed.

Lemma lifecycle_run (priorGame : option CordleGame) (cs : list Command) :
  lifecycle (run cs (new_CordleGame priorGame)).
Proof.
  generalize (lifecycle_new priorGame).
  generalize (new_CordleGame priorGame).
  induction cs as [|c cs IH]; intros this Hinv; [done|].
  apply IH. by apply lifecycle_after.
Qed.

(** ** Joining *)

(** X1.  [_join] fails in two cases only, tested in this order: the player
    already sits in a slot, or both slots are occupied. *)
Theorem join_outcome (p : PlayerID) (this : CordleGame) :
  let s := state this in
  (_join p this).1
  = if bool_decide (player1 s = Some p) || bool_decide (player2 s = Some p)
    then Throw PLAYER_ALREADY_IN_GAME_MESSAGE
    else if truthy (player1 s) && truthy (player2 s)
    then Throw GAME_FULL_MESSAGE
    else Normal tt.
Proof.
  cbv zeta. rewrite _join_unfold. cbv zeta.
  destruct (_ || _); [done|].
  destruct (truthy (player1 (state this))), (truthy (player2 (state this)));
    repeat case_bool_decide; done.
Qed.

(** X2.  The slot that a joining player gets: slot 1 when it is free and
    the player is the preferred one of slot 1, or slot 2 is taken, or the
    player is not the preferred one of slot 2; slot 2 in the other cases.
    The slot was free, the other slot and the rest of the state stay, and
    the game waits to start exactly when both slots are then occupied. *)
Theorem join_seat (p : PlayerID) (this : CordleGame)
    (Hret : returns (_join p this) = true) :
  let s := state this in
  let s' := state (_join p this).2 in
  let slot :=
    if negb (truthy (player1 s))
       && (bool_decide (_preferredPlayer1 this = Some p)
           || truthy (player2 s)
           || negb (bool_decide (_preferredPlayer2 this = Some p)))
    then Player1 else Player2 in
  truthy (occupant slot s) = false
  /\ occupant slot s' = Some p
  /\ occupant (getOtherPlayerNumber slot) s'
     = occupant (getOtherPlayerNumber slot) s
  /\ status s'
     = (if truthy (player1 s') && truthy (player2 s')
        then WAITING_TO_START else WAITING_FOR_PLAYERS)
  /\ (guesses s', guessesEvaluated s', cordle s', difficulty s', winner s')
     = (guesses s, guessesEvaluated s, cordle s, difficulty s, winner s)
  /\ (firstPlayer s', player1Ready s', player2Ready s')
     = (firstPlayer s, player1Ready s, player2Ready s).
Proof.
  revert Hret. cbv zeta. unfold returns. rewrite _join_unfold. cbv zeta.
  destruct (_ || _); [done|].
  destruct (truthy (player1 (state this))) eqn:E1,
           (truthy (player2 (state this))) eqn:E2;
    cbn [negb andb orb]; try done;
    repeat case_bool_decide; cbn [negb andb orb fst snd]; intros _;
    msimpl; unfold occupant, getOtherPlayerNumber; msimpl;
    rewrite ?E1, ?E2; done.
Qed.

Lemma join_seat_witness :
  occupant Player2 (state (_join "bob" rematchGame).2) = Some "bob".
Proof.
  pose proof (join_seat "bob" rematchGame) as H.
  vm_compute in H. vm_compute. exact (proj1 (proj2 (H eq_refl))).
Defined.

(** ** What holds of every instance

    An instance is reached from its construction, with or without a prior
    game, by any sequence of calls, failed ones included. *)

(** X3.  The two slots never hold the same player. *)
Theorem slots_distinct (priorGame : option CordleGame) (cs : list Command)
    (p : PlayerID) :
  let s := state (run cs (new_CordleGame priorGame)) in
  player1 s = Some p -> player2 s <> Some p.
Proof.
  cbv zeta. intros H1 H2.
  destruct (lifecycle_run priorGame cs) as [Hd _ _ _ _ _ _].
  rewrite Hd in H1; congruence.
Qed.

Lemma slots_distinct_witness :
  player2 (state (run startedTrace (new_CordleGame None))) <> Some "ann".
Proof. apply (slots_distinct None startedTrace). vm_compute. reflexivity. Defined.

(** X4.  Until it is over, a game waits for players exactly when a slot is
    free; so it waits to start, or is in progress, exactly when both slots
    are occupied. *)
Theorem status_tells_occupancy (priorGame : option CordleGame)
    (cs : list Command) :
  let s := state (run cs (new_CordleGame priorGame)) in
  status s <> OVER ->
  (status s = WAITING_FOR_PLAYERS
   <-> truthy (player1 s) && truthy (player2 s) = false).
Proof.
  cbv zeta. intros Hst.
  destruct (lifecycle_run priorGame cs) as [_ Hw Hs _ _ _ _].
  split; [done|]. intros Hfree.
  destruct (status _) eqn:E; try done.
  - rewrite Hs in Hfree; [done|by left].
  - rewrite Hs in Hfree; [done|by right].
Qed.

Lemma status_tells_occupancy_witness :
  let s := state (run startedTrace (new_CordleGame None)) in
  status s = WAITING_FOR_PLAYERS
  <-> truthy (player1 s) && truthy (player2 s) = false.
Proof.
  apply (status_tells_occupancy None startedTrace). vm_compute. discriminate.
Defined.

(** X5.  A ready flag is set only for an occupied slot, and a game in
    progress has both flags set. *)
Theorem ready_flags (priorGame : option CordleGame) (cs : list Command) :
  let s := state (run cs (new_CordleGame priorGame)) in
  (truthyb (player1Ready s) = true -> truthy (player1 s) = true)
  /\ (truthyb (player2Ready s) = true -> truthy (player2 s) = true)
  /\ (status s = IN_PROGRESS ->
      truthyb (player1Ready s) = true /\ truthyb (player2Ready s) = true).
Proof.
  cbv zeta.
  destruct (lifecycle_run priorGame cs) as [_ _ _ Hr1 Hr2 Hp _].
  split; [done|]. split; [done|]. intros Hst. by apply andb_prop, Hp.
Qed.

Lemma ready_flags_witness :
  let s := state (run startedTrace (new_CordleGame None)) in
  truthyb (player1Ready s) = true /\ truthyb (player2Ready s) = true.
Proof.
  apply (proj2 (proj2 (ready_flags None startedTrace))).
  vm_compute. reflexivity.
Defined.

(** X6.  A game that is over has a winner: a player, or ['DRAW']. *)
Theorem over_has_winner (priorGame : option CordleGame) (cs : list Command) :
  let s := state (run cs (new_CordleGame priorGame)) in
  status s = OVER -> truthy (winner s) = true.
Proof. cbv zeta. by destruct (lifecycle_run priorGame cs). Qed.

Lemma over_has_winner_witness :
  truthy (winner (state (run (startedTrace ++ [Leave "ann"])
                             (new_CordleGame None)))) = true.
Proof.
  apply (over_has_winner None (startedTrace ++ [Leave "ann"])).
  vm_compute. reflexivity.
Defined.

(** X7.  No third player: while a game waits to start or is in progress,
    every [_join] throws and leaves the instance as it is. *)
Theorem join_full_game (priorGame : option CordleGame) (cs : list Command)
    (p : PlayerID) :
  let g := run cs (new_CordleGame priorGame) in
  status (state g) = WAITING_TO_START \/ status (state g) = IN_PROGRESS ->
  _join p g
  = (Throw (if bool_decide (player1 (state g) = Some p \/ player2 (state g) = Some p)
            then PLAYER_ALREADY_IN_GAME_MESSAGE else GAME_FULL_MESSAGE), g).
Proof.
  cbv zeta. intros Hst.
  destruct (lifecycle_run priorGame cs) as [_ _ Hs _ _ _ _].
  apply Hs in Hst. apply andb_prop in Hst as [Ht1 Ht2].
  rewrite _join_unfold. cbv zeta. rewrite Ht1, Ht2.
  repeat case_bool_decide; cbn [negb andb orb]; try done; tauto.
Qed.

Lemma join_full_game_witness :
  (_join "cyd" (run startedTrace (new_CordleGame None))).1
  = Throw GAME_FULL_MESSAGE.
Proof.
  rewrite (join_full_game None startedTrace "cyd"); [reflexivity|].
  vm_compute. by right.
Defined.

(** ** Starting *)

Lemma start_returns (w : WordsFile -> string) (p : PlayerID) (this : CordleGame) :
  status (state this) = WAITING_TO_START ->
  player1 (state this) = Some p \/ player2 (state this) = Some p ->
  returns (startGame w p this) = true.
Proof.
  intros Hst Hocc. unfold returns. rewrite startGame_unfold. cbv zeta.
  rewrite bool_decide_true by done. cbn [negb].
  destruct Hocc as [H|H]; rewrite (bool_decide_true _ H); cbn [negb andb];
    [done|]. by destruct (negb _).
Qed.

(** A start by the player of one slot, the other slot being ready or not. *)
Lemma start_status (w : WordsFile -> string) (p : PlayerID) (this : CordleGame) :
  lifecycle this ->
  status (state this) = WAITING_TO_START ->
  player1 (state this) = Some p \/ player2 (state this) = Some p ->
  let s := state this in
  let s' := state (after (Start w p) this) in
  player1 s' = player1 s /\ player2 s' = player2 s
  /\ (player1 s = Some p -> player1Ready s' = Some true
      /\ (status s' = IN_PROGRESS \/
          status s' = WAITING_TO_START /\ player2Ready s' = player2Ready s))
  /\ (player2 s = Some p -> player2Ready s' = Some true
      /\ (status s' = IN_PROGRESS \/
          status s' = WAITING_TO_START /\ player1Ready s' = player1Ready s))
  /\ (truthyb (player1Ready s') && truthyb (player2Ready s') = true ->
      status s' = IN_PROGRESS).
Proof.
  intros Hlc Hst Hocc. cbv zeta.
  destruct (start_fields w p this (start_returns w p this Hst Hocc))
    as (_ & _ & E1 & E2 & _ & _ & _ & _ & Er1 & Er2 & Est).
  rewrite (lc_seated _ Hlc (or_introl Hst)) in Est. cbn [andb] in Est.
  rewrite E1, E2, Er1, Er2, Est. split; [done|]. split; [done|].
  pose proof (lc_distinct _ Hlc) as Hd.
  pose proof (lc_seated _ Hlc (or_introl Hst)) as Hs.
  apply andb_prop in Hs as [Hs1 Hs2].
  assert (Hne : player1 (state this) <> player2 (state this)).
  { intros E. rewrite (Hd E) in Hs1. done. }
  split; [|split].
  - intros H1. rewrite (bool_decide_true _ H1).
    rewrite bool_decide_false by congruence. split; [done|].
    change (truthyb (Some true)) with true. cbn [andb].
    destruct (truthyb (player2Ready (state this))); [by left|by right].
  - intros H2. rewrite (bool_decide_true _ H2).
    rewrite bool_decide_false by congruence. split; [done|].
    change (truthyb (Some true)) with true. rewrite andb_true_r.
    destruct (truthyb (player1Ready (state this))); [by left|by right].
  - by intros ->.
Qed.

(** X8.  When a game waits to start, the starts of its two players, in
    either order, put it in progress. *)
Theorem both_start (priorGame : option CordleGame) (cs : list Command)
    (w1 w2 : WordsFile -> string) (a b : PlayerID) :
  let g := run cs (new_CordleGame priorGame) in
  status (state g) = WAITING_TO_START ->
  player1 (state g) = Some a -> player2 (state g) = Some b ->
  status (state (run [Start w1 a; Start w2 b] g)) = IN_PROGRESS
  /\ status (state (run [Start w1 b; Start w2 a] g)) = IN_PROGRESS.
Proof.
  cbv zeta. intros Hst H1 H2.
  pose proof (lifecycle_run priorGame cs) as Hlc.
  set (g := run cs (new_CordleGame priorGame)) in *.
  change (run [Start w1 a; Start w2 b] g)
    with (after (Start w2 b) (after (Start w1 a) g)).
  change (run [Start w1 b; Start w2 a] g)
    with (after (Start w2 a) (after (Start w1 b) g)).
  split.
  - destruct (start_status w1 a g Hlc Hst (or_introl H1))
      as (E1 & E2 & Ha & _ & _).
    destruct (Ha H1) as [Hr [Hip|[Hws _]]].
    + rewrite start_rejected; [done|].
      unfold returns. rewrite startGame_unfold. cbv zeta.
      by rewrite Hip.
    + assert (Hlc' := lifecycle_after (Start w1 a) g Hlc).
      assert (H2' : player2 (state (after (Start w1 a) g)) = Some b)
        by congruence.
      destruct (start_status w2 b _ Hlc' Hws (or_intror H2'))
        as (_ & _ & _ & Hb & Hboth).
      destruct (Hb H2') as [Hr' [Hip|[_ Hkeep]]]; [done|].
      apply Hboth. by rewrite Hkeep, Hr, Hr'.
  - destruct (start_status w1 b g Hlc Hst (or_intror H2))
      as (E1 & E2 & _ & Hb & _).
    destruct (Hb H2) as [Hr [Hip|[Hws _]]].
    + rewrite start_rejected; [done|].
      unfold returns. rewrite startGame_unfold. cbv zeta.
      by rewrite Hip.
    + assert (Hlc' := lifecycle_after (Start w1 b) g Hlc).
      assert (H1' : player1 (state (after (Start w1 b) g)) = Some a)
        by congruence.
      destruct (start_status w2 a _ Hlc' Hws (or_introl H1'))
        as (_ & _ & Ha & _ & Hboth).
      destruct (Ha H1') as [Hr' [Hip|[_ Hkeep]]]; [done|].
      apply Hboth. by rewrite Hkeep, Hr, Hr'.
Qed.

Lemma both_start_witness :
  status (state (run [Start apple "bob"; Start berry "ann"]
                     (run [Join "ann"; Join "bob"] (new_CordleGame None))))
  = IN_PROGRESS.
Proof.
  refine (proj2 (both_start None [Join "ann"; Join "bob"] apple berry
                            "ann" "bob" _ _ _));
    vm_compute; reflexivity.
Defined.

(** ** The secret word *)

Lemma run_snoc (cs : list Command) (c : Command) (this : CordleGame) :
  run (cs ++ [c]) this = after c (run cs this).
Proof. unfold run. by rewrite fold_left_app. Qed.

Lemma upper_ascii_idemp (c : ascii) : upper_ascii (upper_ascii c) = upper_ascii c.
Proof.
  destruct c as [[] [] [] [] [] [] [] []]; vm_compute; reflexivity.
Qed.

Lemma toUpperCase_idemp (s : string) : toUpperCase (toUpperCase s) = toUpperCase s.
Proof.
  induction s as [|c s IH]; [done|].
  cbn [toUpperCase]. by rewrite upper_ascii_idemp, IH.
Qed.

(** Only [startGame] assigns the secret word. *)
Lemma cordle_after (c : Command) (this : CordleGame) :
  cordle (state (after c this)) = cordle (state this)
  \/ exists w p,
       c = Start w p
       /\ cordle (state (after c this))
          = Some (toUpperCase (selectedCordle w (difficulty (state this)))).
Proof.
  destruct c as [p|p|w p|d|move].
  - left. destruct (join_cases p this) as [->|[(_ & _ & _ & ->)|(_ & _ & _ & ->)]];
      done.
  - left. destruct (leave_cases p this) as [->|[(_ & _ & ->)|(_ & _ & _ & ->)]];
      [done|..]; by destruct (status (state this)).
  - destruct (start_cases w p this) as [->|(_ & _ & ->)]; [by left|].
    cbv zeta.
    destruct (truthy _ && truthy _); destruct (preferredInSlot this);
      repeat case_bool_decide; msimpl; eauto.
  - by left.
  - left. unfold after, exec. rewrite applyMove_unfold.
    repeat (case_bool_decide; cbn [negb]; try done).
    rewrite _applyGuess_unfold. cbv zeta.
    destruct (allGreen _); destruct (Nat.leb 6 _ && _); done.
Qed.

(** Only [setDifficultyLevel] assigns the difficulty. *)
Lemma difficulty_after (c : Command) (this : CordleGame) :
  difficulty (state (after c this)) = difficulty (state this)
  \/ exists d, c = SetDifficulty d
               /\ difficulty (state (after c this)) = Some d.
Proof.
  destruct c as [p|p|w p|d|move].
  - left. destruct (join_cases p this) as [->|[(_ & _ & _ & ->)|(_ & _ & _ & ->)]];
      done.
  - left. destruct (leave_cases p this) as [->|[(_ & _ & ->)|(_ & _ & _ & ->)]];
      [done|..]; by destruct (status (state this)).
  - left. destruct (returns (startGame w p this)) eqn:Hret.
    + by destruct (start_fields w p this Hret)
        as (_ & _ & _ & _ & _ & _ & _ & -> & _).
    + by rewrite start_rejected.
  - right. by exists d.
  - left. unfold after, exec. rewrite applyMove_unfold.
    repeat (case_bool_decide; cbn [negb]; try done).
    rewrite _applyGuess_unfold. cbv zeta.
    destruct (allGreen _); destruct (Nat.leb 6 _ && _); done.
Qed.

Lemma difficulty_run (priorGame : option CordleGame) (cs : list Command)
    (d : CordleDifficulty) :
  difficulty (state (run cs (new_CordleGame priorGame))) = Some d ->
  In (SetDifficulty d) cs.
Proof.
  induction cs as [|c cs IH] using rev_ind; [done|].
  rewrite run_snoc, in_app_iff. intros Hd.
  destruct (difficulty_after c (run cs (new_CordleGame priorGame)))
    as [E|(d' & -> & E)].
  - left. apply IH. congruence.
  - right. left. congruence.
Qed.

(** X9.  The secret word of a game is the answer of the word provider to
    one of the calls of [startGame], in upper case; the file read there is
    that of a difficulty set before, and without one the secret is the
    empty word. *)
Theorem secret_provenance (priorGame : option CordleGame) (cs : list Command)
    (S : string) :
  cordle (state (run cs (new_CordleGame priorGame))) = Some S ->
  toUpperCase S = S
  /\ exists (w : WordsFile -> string) (p : PlayerID) (d : option CordleDifficulty),
       In (Start w p) cs
       /\ S = toUpperCase (selectedCordle w d)
       /\ match d with
          | Some d' => In (SetDifficulty d') cs
          | None => S = ""
          end.
Proof.
  intros HS. cut (exists w p d,
       In (Start w p) cs /\ S = toUpperCase (selectedCordle w d)
       /\ match d with
          | Some d' => In (SetDifficulty d') cs
          | None => S = ""
          end).
  { intros (w & p & d & Hin & -> & Hd). split; [apply toUpperCase_idemp|].
    by exists w, p, d. }
  revert HS. induction cs as [|c cs IH] using rev_ind; [done|].
  rewrite run_snoc. intros HS.
  destruct (cordle_after c (run cs (new_CordleGame priorGame)))
    as [E|(w & p & -> & E)].
  - rewrite E in HS. destruct (IH HS) as (w & p & d & Hin & HS' & Hd).
    exists w, p, d. rewrite in_app_iff. split; [by left|]. split; [done|].
    destruct d; [|done]. rewrite in_app_iff. by left.
  - exists w, p, (difficulty (state (run cs (new_CordleGame priorGame)))).
    rewrite in_app_iff. split; [right; by left|].
    split; [congruence|].
    destruct (difficulty _) as [d'|] eqn:Ed.
    + rewrite in_app_iff. left. by apply (difficulty_run priorGame).
    + rewrite E in HS. by injection HS as <-.
Qed.

Lemma secret_provenance_witness :
  cordle (state (run [Join "ann"; Join "bob"; SetDifficulty Easy;
                      Start berry "ann"] (new_CordleGame None)))
  = Some "BERRY"
  /\ toUpperCase "BERRY" = "BERRY".
Proof.
  split; [vm_compute; reflexivity|].
  refine (proj1 (secret_provenance None
                   [Join "ann"; Join "bob"; SetDifficulty Easy; Start berry "ann"]
                   "BERRY" _)).
  vm_compute. reflexivity.
Defined.

(** In a first game, and in one built on a game where slot 2 moved first,
    slot 1 moves first; and the start of its player draws the secret. *)
Lemma firstSlot_after (c : Command) (this : CordleGame) :
  lifecycle this ->
  firstPlayer (state this) = Player1
  /\ (truthyb (player1Ready (state this)) = true -> is_Some (cordle (state this))) ->
  firstPlayer (state (after c this)) = Player1
  /\ (truthyb (player1Ready (state (after c this))) = true ->
      is_Some (cordle (state (after c this)))).
Proof.
  intros Hlc [Hfp Hc]. split.
  { destruct (firstPlayer_after c this) as [->|[_ ->]]; done. }
  destruct c as [p|p|w p|d|move].
  - destruct (join_cases p this) as [->|[(_ & _ & _ & ->)|(_ & _ & _ & ->)]];
      done.
  - destruct (leave_cases p this) as [->|[(_ & _ & ->)|(_ & _ & _ & ->)]];
      [done|..]; by destruct (status (state this)).
  - destruct (start_cases w p this) as [->|(Hst & _ & ->)]; [done|].
    cbv zeta. rewrite (lc_seated _ Hlc (or_introl Hst)).
    destruct (preferredInSlot this); repeat case_bool_decide; msimpl;
      unfold occupant in *; rewrite ?Hfp in *; msimpl; eauto; congruence.
  - done.
  - unfold after, exec. rewrite applyMove_unfold.
    repeat (case_bool_decide; cbn [negb]; try done).
    rewrite _applyGuess_unfold. cbv zeta.
    destruct (allGreen _); destruct (Nat.leb 6 _ && _); done.
Qed.

(** X10.  In a first game, and in one built on a game where slot 2 moved
    first, slot 1 moves first, and a game in progress has a secret word. *)
Theorem secret_drawn (priorGame : option CordleGame) (cs : list Command) :
  constructedFirstPlayer priorGame = Player1 ->
  let s := state (run cs (new_CordleGame priorGame)) in
  firstPlayer s = Player1
  /\ (status s = IN_PROGRESS -> is_Some (cordle s)).
Proof.
  intros Hfp. cbv zeta.
  cut (firstPlayer (state (run cs (new_CordleGame priorGame))) = Player1
       /\ (truthyb (player1Ready (state (run cs (new_CordleGame priorGame))))
           = true ->
           is_Some (cordle (state (run cs (new_CordleGame priorGame)))))).
  { intros [H1 H2]. split; [done|]. intros Hst. apply H2.
    pose proof (lc_started _ (lifecycle_run priorGame cs) Hst) as Hp.
    by apply andb_prop in Hp as [? ?]. }
  induction cs as [|c cs IH] using rev_ind.
  - split; [by rewrite <- Hfp, <- new_firstPlayer|done].
  - rewrite run_snoc. apply firstSlot_after; [apply lifecycle_run|done].
Qed.

Lemma secret_drawn_witness :
  is_Some (cordle (state (run startedTrace (new_CordleGame None)))).
Proof.
  refine (proj2 (secret_drawn None startedTrace _) _); vm_compute; reflexivity.
Defined.

(** X11.  A game built on a prior game can be in progress without a secret
    word: the start of neither player has drawn one. *)
Theorem rematch_without_secret :
  exists (priorGame : CordleGame) (cs : list Command),
    let s := state (run cs (new_CordleGame (Some priorGame))) in
    status s = IN_PROGRESS /\ cordle s = None
    /\ difficulty s = Some Easy.
Proof. exists runningGame, secretlessTrace. vm_compute. done. Qed.

(** ** Turns *)

Lemma actingSlot_next (first : CordlePlayerNumber) (n : nat) :
  actingSlot first (n + 1) = getOtherPlayerNumber (actingSlot first n).
Proof.
  unfold actingSlot. rewrite Nat.add_1_r, Nat.even_succ, <- Nat.negb_even.
  by destruct first, (Nat.even n).
Qed.

Lemma applyMove_firstPlayer (move : CordleGuess) (this : CordleGame) :
  firstPlayer (state (after (ApplyMove move) this)) = firstPlayer (state this).
Proof.
  unfold after, exec. rewrite applyMove_unfold.
  repeat (case_bool_decide; cbn [negb]; try done).
  rewrite _applyGuess_unfold. cbv zeta.
  destruct (allGreen _); destruct (Nat.leb 6 _ && _); done.
Qed.

(** X12.  Turns alternate: after a guess that [applyMove] accepted and that
    did not end the game, the next guess is accepted from the player of the
    other slot only; a second guess of the same player is rejected. *)
Theorem turns_alternate (priorGame : option CordleGame) (cs : list Command)
    (move : CordleGuess) :
  let g := run cs (new_CordleGame priorGame) in
  let g' := after (ApplyMove move) g in
  let mover := actingSlot (firstPlayer (state g)) (length (guesses (state g))) in
  returns (applyMove move g) = true ->
  status (state g') = IN_PROGRESS ->
  occupant mover (state g) = Some (player move)
  /\ (forall move' : CordleGuess,
        returns (applyMove move' g') = true
        <-> occupant (getOtherPlayerNumber mover) (state g) = Some (player move'))
  /\ (forall move' : CordleGuess,
        player move' = player move ->
        applyMove move' g' = (Throw MOVE_NOT_YOUR_TURN_MESSAGE, g')).
Proof.
  cbv zeta. intros Hret Hst'.
  pose proof (lifecycle_run priorGame cs) as Hlc.
  set (g := run cs (new_CordleGame priorGame)) in *.
  destruct (applyMove_accepted move g Hret)
    as (Hst & Hturn & Hgs & _ & E1 & E2).
  pose proof (applyMove_firstPlayer move g) as Efp.
  assert (Hnext : forall move',
             applyMove move' (after (ApplyMove move) g)
             = if negb (bool_decide
                          (Some (player move')
                           = occupant (getOtherPlayerNumber
                                         (actingSlot (firstPlayer (state g))
                                            (length (guesses (state g)))))
                                      (state g)))
               then (Throw MOVE_NOT_YOUR_TURN_MESSAGE, after (ApplyMove move) g)
               else _applyGuess move' (after (ApplyMove move) g)).
  { intros move'. rewrite applyMove_unfold.
    rewrite (bool_decide_true _ Hst'). cbn [negb].
    rewrite Efp, Hgs, length_app. cbn [length]. rewrite actingSlot_next.
    by replace (occupant _ (state (after (ApplyMove move) g)))
      with (occupant (getOtherPlayerNumber
                        (actingSlot (firstPlayer (state g))
                                    (length (guesses (state g))))) (state g))
      by (unfold occupant; destruct (getOtherPlayerNumber _); congruence). }
  split; [done|]. split.
  - intros move'. unfold returns. rewrite Hnext.
    case_bool_decide as Hocc; cbn [negb].
    + rewrite _applyGuess_unfold. cbn [fst]. by split.
    + cbn [fst]. split; [done|congruence].
  - intros move' Hsame. rewrite Hnext.
    rewrite bool_decide_false; [done|].
    rewrite Hsame, <- Hturn.
    pose proof (lc_distinct _ Hlc) as Hd.
    pose proof (lc_seated _ Hlc (or_intror Hst)) as Hs.
    apply andb_prop in Hs as [Hs1 Hs2].
    unfold occupant.
    destruct (actingSlot _ _); cbn [getOtherPlayerNumber]; intros E;
      [|symmetry in E]; rewrite (Hd E) in Hs1; done.
Qed.

Lemma turns_alternate_witness :
  let g := run startedTrace (new_CordleGame None) in
  applyMove {| player := "ann"; guessedWord := "again"; guessNumber := GN2 |}
            (after (wrong "ann" GN1) g)
  = (Throw MOVE_NOT_YOUR_TURN_MESSAGE, after (wrong "ann" GN1) g).
Proof.
  refine (proj2 (proj2 (turns_alternate None startedTrace
                          {| player := "ann"; guessedWord := "wrong";
                             guessNumber := GN1 |} _ _)) _ _);
    vm_compute; reflexivity.
Defined.

(** ** When the game is over *)

(** X13.  Once a game is over with both players in their slots, as after a
    winning guess or a draw, no call changes anything but the difficulty. *)
Theorem finished_is_final (this : CordleGame) (cs : list Command) :
  finished this = true ->
  run cs this
  = {| state := set_difficulty (difficulty (state (run cs this))) (state this);
       _preferredPlayer1 := _preferredPlayer1 this;
       _preferredPlayer2 := _preferredPlayer2 this |}.
Proof.
  intros Hfin.
  induction cs as [|c cs IH] using rev_ind.
  { by destruct this as [[]]. }
  rewrite run_snoc.
  pose proof (finished_run cs this Hfin) as Hfin'.
  set (g := run cs this) in *.
  assert (Hc : after c g = g \/ exists d, c = SetDifficulty d).
  { unfold finished in Hfin'.
    apply andb_prop in Hfin' as [Hfin' Ht2].
    apply andb_prop in Hfin' as [Hst Ht1].
    apply bool_decide_eq_true in Hst.
    destruct c as [p|p|w p|d|move]; [left..|right; by exists d|left].
    - unfold after, exec. rewrite _join_unfold. cbv zeta.
      rewrite Ht1, Ht2. by destruct (_ || _).
    - unfold after, exec. rewrite _leave_unfold. cbv zeta.
      by rewrite (bool_decide_true _ Hst).
    - apply start_rejected. unfold returns. rewrite startGame_unfold.
      cbv zeta. rewrite Hst. done.
    - unfold after, exec. by rewrite applyMove_when_over. }
  destruct Hc as [->|[d ->]]; [done|].
  rewrite IH. done.
Qed.

Lemma finished_is_final_witness :
  let g := run (startedTrace ++ [ApplyMove emptyGuess]) (new_CordleGame None) in
  state (run [Leave "ann"; Join "cyd"; Start apple "bob"; wrong "bob" GN2] g)
  = state g.
Proof.
  cbv zeta.
  rewrite (finished_is_final
             (run (startedTrace ++ [ApplyMove emptyGuess]) (new_CordleGame None))
             [Leave "ann"; Join "cyd"; Start apple "bob"; wrong "bob" GN2]);
    vm_compute; reflexivity.
Defined.

(** ** Leaving and coming back *)

(** X14.  A player who leaves a game that waits to start and joins again
    gets the same slot back, and the game waits to start again; all that
    has changed is the ready flag of the player, which is cleared. *)
Theorem leave_then_rejoin (priorGame : option CordleGame) (cs : list Command)
    (p : PlayerID) :
  let g := run cs (new_CordleGame priorGame) in
  status (state g) = WAITING_TO_START ->
  player1 (state g) = Some p \/ player2 (state g) = Some p ->
  run [Leave p; Join p] g
  = {| state := (if bool_decide (player1 (state g) = Some p)
                 then set_player1Ready (Some false) (state g)
                 else set_player2Ready (Some false) (state g));
       _preferredPlayer1 := _preferredPlayer1 g;
       _preferredPlayer2 := _preferredPlayer2 g |}.
Proof.
  cbv zeta. intros Hst Hocc.
  pose proof (lifecycle_run priorGame cs) as Hlc.
  set (g := run cs (new_CordleGame priorGame)) in *.
  pose proof (lc_distinct _ Hlc) as Hd.
  pose proof (lc_seated _ Hlc (or_introl Hst)) as Hs.
  apply andb_prop in Hs as [Hs1 Hs2].
  change (run [Leave p; Join p] g) with (after (Join p) (after (Leave p) g)).
  assert (Hleft : after (Leave p) g = (_leave p g).2) by done.
  rewrite Hleft, _leave_unfold. cbv zeta. clear Hleft.
  rewrite Hst. rewrite bool_decide_false by done.
  destruct g as [[gs st fp co ge di p1 p2 r1 r2 wi] pp1 pp2].
  msimpl. subst st.
  case_bool_decide as H1.
  - subst p1. unfold after, exec. rewrite _join_unfold. cbv zeta. msimpl.
    rewrite Hs1, Hs2.
    assert (Hne : p2 <> Some p) by (intros ->; by specialize (Hd eq_refl)).
    rewrite (bool_decide_false _ Hne).
    rewrite bool_decide_false by done.
    change (truthy None) with false. cbn [negb andb orb].
    rewrite andb_false_r. cbn [negb orb]. rewrite orb_true_r. done.
  - destruct Hocc as [?|H2]; [done|]. subst p2.
    rewrite bool_decide_true by done.
    unfold after, exec. rewrite _join_unfold. cbv zeta. msimpl.
    rewrite Hs1, Hs2. rewrite (bool_decide_false _ H1).
    rewrite bool_decide_false by done.
    change (truthy None) with false. cbn [negb andb orb]. done.
Qed.

Lemma leave_then_rejoin_witness :
  player1Ready
    (state (run [Leave "ann"; Join "ann"]
                (run [Join "ann"; Join "bob"; Start apple "ann"]
                     (new_CordleGame None))))
  = Some false.
Proof.
  rewrite (leave_then_rejoin None [Join "ann"; Join "bob"; Start apple "ann"]
                             "ann");
    vm_compute; auto.
Defined.

(** ** The colours of a row *)

Lemma js_get_fmap_Some {A} (row : list A) (i : nat) :
  js_get (Some <$> row) i = row !! i.
Proof. unfold js_get. rewrite list_lookup_fmap. by destruct (row !! i). Qed.

(** The first pass colours a cell Green when the two letters agree, Gray
    otherwise. *)
Lemma firstPass_lookup (G : list ascii) :
  forall (C : list (option ascii)) (i : nat) (g : ascii),
    G !! i = Some g ->
    (TwoPass.firstPass G C).1 !! i
    = Some (if bool_decide (C !! i = Some (Some g)) then Green else Gray).
Proof.
  induction G as [|g0 G IH]; intros C i g Hg; [done|].
  destruct C as [|c C]; cbn [TwoPass.firstPass].
  - specialize (IH []).
    destruct (TwoPass.firstPass G []) as [row C']. cbn [fst] in *.
    destruct i as [|i].
    + by rewrite bool_decide_false.
    + change ((Gray :: row) !! S i) with (row !! i).
      change ((g0 :: G) !! S i) with (G !! i) in Hg.
      rewrite (IH i g Hg). by rewrite !bool_decide_false.
  - specialize (IH C).
    destruct (TwoPass.firstPass G C) as [row C']. cbn [fst] in *.
    destruct i as [|i].
    + injection Hg as ->.
      change ((c :: C) !! 0) with (Some c).
      case_bool_decide as Hc; cbn [fst].
      * by rewrite bool_decide_true by congruence.
      * by rewrite bool_decide_false by congruence.
    + change ((g0 :: G) !! S i) with (G !! i) in Hg.
      change ((c :: C) !! S i) with (C !! i).
      case_bool_decide; cbn [fst];
        match goal with |- (?c0 :: row) !! S i = _ =>
          change ((c0 :: row) !! S i) with (row !! i) end;
        by rewrite (IH i g Hg).
Qed.

(** The second pass leaves the Green cells and makes no other. *)
Lemma secondPass_lookup_green (G : list ascii) :
  forall (row : list CordleCell) (C : list (option ascii)) (i : nat),
    length row = length G ->
    TwoPass.secondPass G row C !! i = Some Green <-> row !! i = Some Green.
Proof.
  induction G as [|g G IH]; intros [|cell row] C i Hlen; try done.
  injection Hlen as Hlen.
  destruct cell; cbn [TwoPass.secondPass].
  - destruct i as [|i]; [done|]. cbn. by apply IH.
  - destruct i as [|i]; [done|]. cbn. by apply IH.
  - destruct (TwoPass.eraseLeftmost g C) as [C'|];
      (destruct i as [|i]; [done|]); cbn; by apply IH.
Qed.

(** In the words of the two passes: a cell is Green exactly when the two
    letters agree. *)
Lemma colorRow_green (S G : string) (i : nat) :
  TwoPass.colorRow S G !! i = Some Green
  <-> exists g : ascii,
        list_ascii_of_string G !! i = Some g
        /\ list_ascii_of_string S !! i = Some g.
Proof.
  unfold TwoPass.colorRow.
  pose proof (firstPass_length (list_ascii_of_string G)
                (Some <$> list_ascii_of_string S)) as Hlen.
  pose proof (firstPass_lookup (list_ascii_of_string G)
                (Some <$> list_ascii_of_string S) i) as Hfirst.
  destruct (TwoPass.firstPass _ _) as [row C]. cbn [fst] in *.
  rewrite secondPass_lookup_green by done.
  rewrite list_lookup_fmap in Hfirst.
  destruct (list_ascii_of_string G !! i) as [g|] eqn:Hg.
  - rewrite (Hfirst g eq_refl).
    destruct (list_ascii_of_string S !! i) as [c|];
      cbn [fmap option_fmap option_map];
      case_bool_decide as Hc; split; try done.
    + intros _. exists g. split; [done|congruence].
    + intros (g' & [= <-] & [= ->]). done.
    + by intros (g' & _ & ?).
  - split.
    + intros Hrow. apply lookup_lt_Some in Hrow.
      apply lookup_ge_None in Hg. lia.
    + by intros (g' & ? & _).
Qed.

(** X15.  A cell is Green exactly when the guess has, at its position, the
    letter that the secret has there. *)
Theorem green_iff_same_letter (cordle : option string) (G : string) (i : nat) :
  js_get (guessColors cordle G) i = Some Green
  <-> is_Some (String.get i G)
      /\ String.get i G = String.get i (default "" cordle).
Proof.
  change (guessColors cordle G) with (guessColors (Some (default "" cordle)) G).
  rewrite guessColors_colorRow, js_get_fmap_Some, !String_get_lookup.
  rewrite colorRow_green. split.
  - intros (g & -> & ->). split; [by eexists|done].
  - intros [[g Hg] E]. exists g. split; [done|congruence].
Qed.

(** *** How many cells a letter colours *)

Lemma eraseLeftmost_none (g : ascii) (C : list (option ascii)) :
  TwoPass.eraseLeftmost g C = None -> TwoPass.remaining g C = 0.
Proof.
  induction C as [|c C IH]; [done|]. cbn [TwoPass.eraseLeftmost].
  case_bool_decide as Hc; [done|].
  destruct (TwoPass.eraseLeftmost g C); [done|]. intros _.
  rewrite remaining_cons, bool_decide_false by done. by rewrite IH.
Qed.

(** The second pass colours as many Gray cells under a letter as the copy
    has occurrences of it left. *)
Lemma secondPass_exact (x : ascii) (G : list ascii) :
  forall (row : list CordleCell) (C : list (option ascii)),
    TwoPass.hits x G (TwoPass.secondPass G row C)
    = TwoPass.hits x G row
      + Nat.min (unmatched x G row) (TwoPass.remaining x C).
Proof.
  induction G as [|g G IH]; intros [|cell row] C; try done.
  destruct cell; cbn [TwoPass.secondPass TwoPass.hits unmatched].
  - rewrite (bool_decide_false (g = x /\ Green = Gray)) by (by intros [_ ?]).
    rewrite IH. lia.
  - rewrite (bool_decide_false (g = x /\ Yellow = Gray)) by (by intros [_ ?]).
    rewrite IH. lia.
  - rewrite (bool_decide_false (g = x /\ Gray <> Gray)) by (by intros [_ ?]).
    destruct (TwoPass.eraseLeftmost g C) as [C'|] eqn:Herase;
      cbn [TwoPass.hits]; rewrite IH.
    + rewrite (eraseLeftmost_remaining x g C C' Herase).
      destruct (decide (g = x)) as [->|Hgx].
      * rewrite !bool_decide_true by done. lia.
      * rewrite !bool_decide_false by (intuition congruence). lia.
    + rewrite (bool_decide_false (g = x /\ Gray <> Gray)) by (by intros [_ ?]).
      destruct (decide (g = x)) as [->|Hgx].
      * rewrite (eraseLeftmost_none _ _ Herase). lia.
      * rewrite !bool_decide_false by (intuition congruence). lia.
Qed.

(** Under a letter of the guess a cell is coloured or Gray. *)
Lemma hits_unmatched (x : ascii) (G : list ascii) :
  forall row : list CordleCell,
    length row = length G ->
    TwoPass.hits x G row + unmatched x G row
    = TwoPass.remaining x (Some <$> G).
Proof.
  induction G as [|g G IH]; intros [|cell row] Hlen; try done.
  injection Hlen as Hlen. cbn [TwoPass.hits unmatched fmap list_fmap].
  rewrite remaining_cons, <- (IH row Hlen).
  destruct (decide (g = x)) as [->|Hgx].
  - rewrite (bool_decide_true (Some x = Some x)) by done.
    destruct cell;
      [rewrite bool_decide_true, bool_decide_false by (intuition congruence)..
      |rewrite bool_decide_false, bool_decide_true by (intuition congruence)];
      lia.
  - rewrite !bool_decide_false by (intuition congruence). lia.
Qed.

Lemma colorRow_exact (S G : string) (x : ascii) :
  TwoPass.hits x (list_ascii_of_string G) (TwoPass.colorRow S G)
  = Nat.min (TwoPass.occurrences x G) (TwoPass.occurrences x S).
Proof.
  unfold TwoPass.colorRow, TwoPass.occurrences.
  pose proof (firstPass_hits x (list_ascii_of_string G)
                (Some <$> list_ascii_of_string S)) as H1.
  pose proof (firstPass_length (list_ascii_of_string G)
                (Some <$> list_ascii_of_string S)) as Hlen.
  destruct (TwoPass.firstPass _ _) as [row C]. cbn [fst snd] in *.
  rewrite secondPass_exact.
  pose proof (hits_unmatched x (list_ascii_of_string G) row Hlen). lia.
Qed.

(** X16.  The number of cells that a letter colours, Green or Yellow, is
    the smaller of its number of occurrences in the guess and in the
    secret; so is the number of cells of the row that [_applyGuess] stores. *)
Theorem coloured_count_exact (cordle : option string) (G : string) (x : ascii) :
  exists row : list CordleCell,
    guessColors cordle G = Some <$> row
    /\ length row = String.length G
    /\ TwoPass.hits x (list_ascii_of_string G) row
       = Nat.min (TwoPass.occurrences x G)
                 (TwoPass.occurrences x (default "" cordle)).
Proof.
  exists (TwoPass.colorRow (default "" cordle) G).
  change (guessColors cordle G) with (guessColors (Some (default "" cordle)) G).
  split; [apply guessColors_colorRow|].
  split; [apply colorRow_length|apply colorRow_exact].
Qed.

(** *** What a colour says *)

Lemma hits_lookup (x : ascii) (G : list ascii) :
  forall (row : list CordleCell) (i : nat) (cell : CordleCell),
    G !! i = Some x -> row !! i = Some cell -> cell <> Gray ->
    0 < TwoPass.hits x G row.
Proof.
  induction G as [|g G IH]; intros [|c row] i cell Hg Hrow Hcell; try done.
  destruct i as [|i]; cbn in *.
  - injection Hg as ->. injection Hrow as ->.
    rewrite bool_decide_true by done. lia.
  - specialize (IH row i cell Hg Hrow Hcell). lia.
Qed.

Lemma unmatched_lookup (x : ascii) (G : list ascii) :
  forall (row : list CordleCell) (i : nat),
    G !! i = Some x -> row !! i = Some Gray -> 0 < unmatched x G row.
Proof.
  induction G as [|g G IH]; intros [|c row] i Hg Hrow; try done.
  destruct i as [|i]; cbn in *.
  - injection Hg as ->. injection Hrow as ->.
    rewrite bool_decide_true by done. lia.
  - specialize (IH row i Hg Hrow). lia.
Qed.

Lemma colorRow_cell (S G : string) (i : nat) (x : ascii) :
  list_ascii_of_string G !! i = Some x ->
  match TwoPass.colorRow S G !! i with
  | Some Green => list_ascii_of_string S !! i = Some x
  | Some Yellow =>
      list_ascii_of_string S !! i <> Some x /\ 0 < TwoPass.occurrences x S
  | Some Gray =>
      list_ascii_of_string S !! i <> Some x
      /\ TwoPass.hits x (list_ascii_of_string G) (TwoPass.colorRow S G)
         = TwoPass.occurrences x S
  | None => False
  end.
Proof.
  intros Hx.
  pose proof (colorRow_green S G i) as Hgreen.
  assert (Hnot : TwoPass.colorRow S G !! i <> Some Green ->
                 list_ascii_of_string S !! i <> Some x).
  { intros Hng E. apply Hng, Hgreen. by exists x. }
  pose proof (colorRow_exact S G x) as Hcount.
  pose proof (colorRow_length S G) as Hlen.
  rewrite String_length_list in Hlen.
  pose proof (hits_unmatched x (list_ascii_of_string G) _ Hlen) as Hsum.
  change (TwoPass.remaining x (Some <$> list_ascii_of_string G))
    with (TwoPass.occurrences x G) in Hsum.
  destruct (TwoPass.colorRow S G !! i) as [[]|] eqn:Hcell.
  - destruct (proj1 Hgreen eq_refl) as (g & Hg & HS). congruence.
  - split; [by apply Hnot|].
    pose proof (hits_lookup x _ _ i Yellow Hx Hcell ltac:(done)). lia.
  - split; [by apply Hnot|].
    pose proof (unmatched_lookup x _ _ i Hx Hcell). lia.
  - apply lookup_ge_None in Hcell. apply lookup_lt_Some in Hx. lia.
Qed.

(** X17.  What the colour of a cell says of its letter [x]: Green, the
    secret has [x] at this position; Yellow, it has not, but [x] occurs in
    the secret; Gray, it has not, and every occurrence of [x] in the secret
    is matched by a coloured cell of the row.  Each letter of the guess has
    a cell. *)
Theorem cell_colours (S G : string) (i : nat) (x : ascii) :
  String.get i G = Some x ->
  match js_get (guessColors (Some S) G) i with
  | Some Green => String.get i S = Some x
  | Some Yellow =>
      String.get i S <> Some x /\ 0 < TwoPass.occurrences x S
  | Some Gray =>
      String.get i S <> Some x
      /\ TwoPass.hits x (list_ascii_of_string G) (TwoPass.colorRow S G)
         = TwoPass.occurrences x S
  | None => False
  end.
Proof.
  rewrite guessColors_colorRow, js_get_fmap_Some, !String_get_lookup.
  intros Hx. exact (colorRow_cell S G i x Hx).
Qed.

Lemma cell_colours_witness :
  String.get 0 "SATIN" <> Some "T"%char /\ 0 < TwoPass.occurrences "T" "SATIN".
Proof. exact (cell_colours "SATIN" "TOOTH" 0 "T" eq_refl). Defined.

(** A letter that the secret does not have is Gray. *)
Lemma absent_letter_gray (cordle : option string) (G : string) (i : nat)
    (x : ascii) :
  String.get i G = Some x ->
  TwoPass.occurrences x (default "" cordle) = 0 ->
  js_get (guessColors cordle G) i = Some Gray.
Proof.
  intros Hx Hocc.
  change (guessColors cordle G) with (guessColors (Some (default "" cordle)) G).
  rewrite guessColors_colorRow, js_get_fmap_Some.
  rewrite String_get_lookup in Hx.
  pose proof (colorRow_cell (default "" cordle) G i x Hx) as Hcell.
  destruct (TwoPass.colorRow _ G !! i) as [[]|]; try done.
  - apply list_elem_of_lookup_2 in Hcell.
    unfold TwoPass.occurrences, TwoPass.remaining in Hocc.
    apply length_zero_iff_nil in Hocc.
    assert (Hin : Some x ∈ filter (fun c => c = Some x)
                    (Some <$> list_ascii_of_string (default "" cordle))).
    { apply list_elem_of_filter. split; [done|].
      by apply list_elem_of_fmap_2. }
    rewrite Hocc in Hin. by apply elem_of_nil in Hin.
  - lia.
Qed.

(** ** Winning *)

Lemma allGreen_fmap (row : list CordleCell) :
  allGreen (Some <$> row) = true <-> Forall (fun c => c = Green) row.
Proof.
  unfold allGreen, js_every.
  induction row as [|c row IH]; [by split; [constructor|]|].
  cbn [fmap list_fmap forallb].
  by rewrite andb_true_iff, bool_decide_eq_true, Forall_cons, <- IH.
Qed.

Lemma firstPass_all_green (G : list ascii) :
  forall C : list (option ascii),
    Forall (fun c => c = Green) (TwoPass.firstPass G C).1
    <-> exists C', C = (Some <$> G) ++ C'.
Proof.
  induction G as [|g G IH]; intros C.
  - cbn. split; [by exists C|by constructor].
  - destruct C as [|c C]; cbn [TwoPass.firstPass].
    + destruct (TwoPass.firstPass G []) as [row C']. cbn [fst].
      split; [by inversion 1|by intros [? ?]].
    + specialize (IH C). destruct (TwoPass.firstPass G C) as [row C'].
      cbn [fst] in *. case_bool_decide as Hc; cbn [fst].
      * rewrite Forall_cons, IH. split.
        -- intros [_ [C'' ->]]. exists C''. by subst c.
        -- intros [C'' E]. injection E as _ ->. split; [done|by exists C''].
      * split; [by inversion 1|]. intros [C'' E]. by injection E as -> _.
Qed.

Lemma secondPass_all_green (G : list ascii) :
  forall (row : list CordleCell) (C : list (option ascii)),
    length row = length G ->
    Forall (fun c => c = Green) (TwoPass.secondPass G row C)
    <-> Forall (fun c => c = Green) row.
Proof.
  induction G as [|g G IH]; intros [|cell row] C Hlen; try done.
  injection Hlen as Hlen.
  destruct cell; cbn [TwoPass.secondPass].
  - by rewrite !Forall_cons, IH.
  - by rewrite !Forall_cons, IH.
  - destruct (TwoPass.eraseLeftmost g C); split; by inversion 1.
Qed.

Lemma list_ascii_of_string_app (s t : string) :
  list_ascii_of_string (s ++ t)%string
  = list_ascii_of_string s ++ list_ascii_of_string t.
Proof.
  induction s as [|c s IH]; [done|].
  change (String c s +:+ t) with (String c (s +:+ t)).
  cbn [list_ascii_of_string app]. by rewrite IH.
Qed.

Lemma colorRow_all_green (S G : string) :
  Forall (fun c => c = Green) (TwoPass.colorRow S G)
  <-> exists rest : string, S = (G ++ rest)%string.
Proof.
  unfold TwoPass.colorRow.
  pose proof (firstPass_length (list_ascii_of_string G)
                (Some <$> list_ascii_of_string S)) as Hlen.
  pose proof (firstPass_all_green (list_ascii_of_string G)
                (Some <$> list_ascii_of_string S)) as Hfirst.
  destruct (TwoPass.firstPass _ _) as [row C]. cbn [fst] in *.
  rewrite secondPass_all_green, Hfirst by done. split.
  - intros [C' HC'].
    set (n := length (list_ascii_of_string G)).
    exists (string_of_list_ascii (drop n (list_ascii_of_string S))).
    assert (Htake : take n (list_ascii_of_string S) = list_ascii_of_string G).
    { apply (inj (fmap Some)). rewrite fmap_take, HC'.
      rewrite take_app_length'; [done|by rewrite length_fmap]. }
    rewrite <- (string_of_list_ascii_of_string S) at 1.
    rewrite <- (string_of_list_ascii_of_string (G +:+ _)).
    f_equal.
    rewrite list_ascii_of_string_app, list_ascii_of_string_of_list_ascii.
    by rewrite <- Htake, take_drop.
  - intros [rest ->]. exists (Some <$> list_ascii_of_string rest).
    by rewrite list_ascii_of_string_app, fmap_app.
Qed.

(** The test of [_applyGuess] on the row, on the row of the two passes. *)
Lemma allGreen_colorRow (cordle : option string) (G : string) :
  allGreen (guessColors cordle G) = true
  <-> Forall (fun c => c = Green) (TwoPass.colorRow (default "" cordle) G).
Proof.
  change (guessColors cordle G) with (guessColors (Some (default "" cordle)) G).
  by rewrite guessColors_colorRow, allGreen_fmap.
Qed.

Lemma append_empty_r (s : string) : (s ++ "")%string = s.
Proof.
  induction s as [|c s IH]; [done|].
  change (String c s +:+ "") with (String c (s +:+ "")). by rewrite IH.
Qed.

(** X18.  All cells of a row are Green exactly when the guess is a prefix of
    the secret: the secret itself, when the lengths agree. *)
Theorem allGreen_iff_prefix (cordle : option string) (G : string) :
  (allGreen (guessColors cordle G) = true
   <-> exists rest : string, default "" cordle = (G ++ rest)%string)
  /\ (String.length G = String.length (default "" cordle) ->
      allGreen (guessColors cordle G) = true <-> G = default "" cordle).
Proof.
  rewrite allGreen_colorRow, colorRow_all_green. split; [done|].
  intros Hlen. split.
  - intros [rest Hrest]. rewrite Hrest in Hlen |- *.
    rewrite !String_length_list, list_ascii_of_string_app, length_app in Hlen.
    destruct rest; [|cbn in Hlen; lia]. by rewrite append_empty_r.
  - intros <-. exists "". by rewrite append_empty_r.
Qed.

Lemma allGreen_iff_prefix_witness :
  allGreen (guessColors (Some "APPLE") "APPLE") = true <-> "APPLE" = "APPLE".
Proof. exact (proj2 (allGreen_iff_prefix (Some "APPLE") "APPLE") eq_refl). Defined.

(** X19.  A guess that [applyMove] accepts wins the game for its player
    exactly when it is a prefix of the secret word.  (A player whose id is
    ['DRAW'] is left aside: his win reads as a draw.) *)
Theorem guess_wins (priorGame : option CordleGame) (cs : list Command)
    (move : CordleGuess) :
  let g := run cs (new_CordleGame priorGame) in
  let s' := state (after (ApplyMove move) g) in
  returns (applyMove move g) = true ->
  player move <> DRAW ->
  (status s' = OVER /\ winner s' = Some (player move))
  <-> exists rest : string,
        default "" (cordle (state g)) = (guessedWord move ++ rest)%string.
Proof.
  cbv zeta. intros Hret Hdraw.
  pose proof (lifecycle_run priorGame cs) as Hlc.
  set (g := run cs (new_CordleGame priorGame)) in *.
  rewrite <- colorRow_all_green, <- allGreen_colorRow.
  destruct (applyMove_accepted move g Hret) as (Hst & Hturn & _).
  assert (Hmover : truthy (Some (player move)) = true).
  { rewrite <- Hturn. pose proof (lc_seated _ Hlc (or_intror Hst)) as Hs.
    apply andb_prop in Hs as [? ?]. unfold occupant. by case_match. }
  unfold after, exec. rewrite applyMove_unfold.
  rewrite (bool_decide_true _ Hst), bool_decide_true by done. cbn [negb].
  rewrite _applyGuess_unfold. cbv zeta. msimpl.
  destruct (allGreen _); msimpl.
  - rewrite Hmover, andb_false_r. msimpl. done.
  - destruct (Nat.leb 6 _ && _); msimpl.
    + split; [|done]. intros [_ E]. congruence.
    + rewrite Hst. split; [|done]. by intros [? _].
Qed.

Lemma guess_wins_witness :
  let g := run easyTrace (new_CordleGame None) in
  let move := {| player := "ann"; guessedWord := "APP"; guessNumber := GN1 |} in
  let s' := state (after (ApplyMove move) g) in
  status s' = OVER /\ winner s' = Some "ann".
Proof.
  cbv zeta.
  apply (guess_wins None easyTrace
           {| player := "ann"; guessedWord := "APP"; guessNumber := GN1 |});
    [vm_compute; reflexivity|vm_compute; discriminate|].
  exists "LE". vm_compute. reflexivity.
Defined.

(** *** Upper and lower case *)

Lemma upper_of_lowercase (x : ascii) :
  isLowercase x = true -> upper_ascii x <> x.
Proof.
  destruct x as [[] [] [] [] [] [] [] []]; vm_compute; congruence.
Qed.

Lemma uppercase_occurrences (x : ascii) (S : string) :
  toUpperCase S = S -> isLowercase x = true -> TwoPass.occurrences x S = 0.
Proof.
  intros HS Hx. induction S as [|c S IH]; [done|].
  cbn [toUpperCase] in HS. injection HS as Hc HS.
  unfold TwoPass.occurrences in *. cbn [list_ascii_of_string fmap list_fmap].
  rewrite remaining_cons, (IH HS), bool_decide_false; [done|].
  intros [= ->]. by apply (upper_of_lowercase x).
Qed.

Lemma cordle_upper (priorGame : option CordleGame) (cs : list Command)
    (S : string) :
  cordle (state (run cs (new_CordleGame priorGame))) = Some S ->
  toUpperCase S = S.
Proof.
  revert S. induction cs as [|c cs IH] using rev_ind; intros S; [done|].
  rewrite run_snoc.
  destruct (cordle_after c (run cs (new_CordleGame priorGame)))
    as [->|(w & p & _ & ->)]; [apply IH|].
  intros [= <-]. apply toUpperCase_idemp.
Qed.

(** X20.  The secret word is kept in upper case and letters are compared
    as they are: a lowercase letter of a guess is always Gray. *)
Theorem lowercase_letter_gray (priorGame : option CordleGame)
    (cs : list Command) (G : string) (i : nat) (x : ascii) :
  let g := run cs (new_CordleGame priorGame) in
  String.get i G = Some x ->
  isLowercase x = true ->
  js_get (guessColors (cordle (state g)) G) i = Some Gray.
Proof.
  cbv zeta. intros Hx Hlow. apply (absent_letter_gray _ _ _ x Hx).
  destruct (cordle _) as [S|] eqn:HS; [|done].
  apply uppercase_occurrences; [|done]. by apply (cordle_upper priorGame cs).
Qed.

Lemma lowercase_letter_gray_witness :
  cordle (state (run easyTrace (new_CordleGame None))) = Some "APPLE"
  /\ js_get (guessColors (cordle (state (run easyTrace (new_CordleGame None))))
                         "apple") 0
     = Some Gray.
Proof.
  split; [vm_compute; reflexivity|].
  apply (lowercase_letter_gray None easyTrace "apple" 0 "a");
    vm_compute; reflexivity.
Defined.

(** ** The controller of the frontend *)

(** *** Whose turn it is *)

Lemma findOccupant_id (this : CordleAreaController.t) (p : PlayerID)
    (pc : PlayerController.t) :
  CordleAreaController.findOccupant this p = Some pc ->
  PlayerController.id pc = p.
Proof.
  unfold CordleAreaController.findOccupant. intros Hfind.
  apply find_some in Hfind as [_ Hid]. by apply bool_decide_eq_true in Hid.
Qed.

(** The getter [whoseTurn] of the controller derives the turn as the game
    does. *)
Lemma controller_whoseTurn (this : CordleAreaController.t) (s : CordleGameState) :
  CordleAreaController._model_game_state this = Some s ->
  CordleAreaController.whoseTurn this
  = if bool_decide (status s = IN_PROGRESS)
       && bool_decide (is_Some (CordleAreaController.player1 this))
       && bool_decide (is_Some (CordleAreaController.player2 this))
    then match actingSlot (firstPlayer s) (length (guesses s)) with
         | Player1 => CordleAreaController.player1 this
         | Player2 => CordleAreaController.player2 this
         end
    else None.
Proof.
  intros Hs. unfold CordleAreaController.whoseTurn, CordleAreaController.guessCount.
  rewrite Hs. cbn [fmap option_fmap option_map default from_option id compose].
  rewrite mod2_even. unfold actingSlot.
  destruct (decide (status s = IN_PROGRESS)) as [Hst|Hst].
  - rewrite (bool_decide_true (status s = IN_PROGRESS)) by done.
    rewrite (bool_decide_true (Some (status s) = Some IN_PROGRESS))
      by congruence.
    cbn [negb andb]. rewrite orb_false_r.
    destruct (bool_decide (is_Some (CordleAreaController.player1 this)));
      destruct (bool_decide (is_Some (CordleAreaController.player2 this)));
      cbn [negb orb andb]; try done.
    destruct (firstPlayer s); [rewrite bool_decide_true by done
                              |rewrite bool_decide_false by done];
      by destruct (Nat.even _).
  - rewrite (bool_decide_false (status s = IN_PROGRESS)) by done.
    rewrite (bool_decide_false (Some (status s) = Some IN_PROGRESS))
      by congruence.
    cbn [negb andb]. by rewrite !orb_true_r.
Qed.

(** X21.  The controller and the game agree on the turn: when the model of
    the controller holds the state of the game and the two players are
    among the occupants of the area, [isOurTurn] tells whether [applyMove]
    accepts a guess of our player. *)
Theorem isOurTurn_iff_accepted (priorGame : option CordleGame)
    (cs : list Command) (this : CordleAreaController.t) (move : CordleGuess) :
  let g := run cs (new_CordleGame priorGame) in
  CordleAreaController._model_game_state this = Some (state g) ->
  (forall p : PlayerID,
      player1 (state g) = Some p \/ player2 (state g) = Some p ->
      is_Some (CordleAreaController.findOccupant this p)) ->
  player move = PlayerController.id (CordleAreaController.ourPlayer this) ->
  CordleAreaController.isOurTurn this = returns (applyMove move g).
Proof.
  cbv zeta. intros Hmodel Hocc Hme.
  pose proof (lifecycle_run priorGame cs) as Hlc.
  set (g := run cs (new_CordleGame priorGame)) in *.
  unfold CordleAreaController.isOurTurn.
  rewrite (controller_whoseTurn this (state g) Hmodel).
  unfold returns. rewrite applyMove_unfold.
  destruct (decide (status (state g) = IN_PROGRESS)) as [Hst|Hst];
    [|by rewrite !(bool_decide_false (status (state g) = IN_PROGRESS))].
  rewrite !(bool_decide_true _ Hst). cbn [negb andb].
  pose proof (lc_seated _ Hlc (or_intror Hst)) as Hs.
  apply andb_prop in Hs as [Hs1 Hs2].
  assert (H1 : exists p pc, player1 (state g) = Some p
                /\ CordleAreaController.player1 this = Some pc
                /\ PlayerController.id pc = p).
  { unfold CordleAreaController.player1. rewrite Hmodel. cbn [mbind option_bind].
    rewrite Hs1. destruct (player1 (state g)) as [p|] eqn:E; [|done].
    destruct (Hocc p (or_introl eq_refl)) as [pc Hpc].
    exists p, pc. cbn [mbind option_bind]. rewrite Hpc.
    split; [done|]. split; [done|]. by apply findOccupant_id in Hpc. }
  assert (H2 : exists p pc, player2 (state g) = Some p
                /\ CordleAreaController.player2 this = Some pc
                /\ PlayerController.id pc = p).
  { unfold CordleAreaController.player2. rewrite Hmodel. cbn [mbind option_bind].
    rewrite Hs2. destruct (player2 (state g)) as [p|] eqn:E; [|done].
    destruct (Hocc p (or_intror eq_refl)) as [pc Hpc].
    exists p, pc. cbn [mbind option_bind]. rewrite Hpc.
    split; [done|]. split; [done|]. by apply findOccupant_id in Hpc. }
  destruct H1 as (p1 & pc1 & E1 & -> & Hid1).
  destruct H2 as (p2 & pc2 & E2 & -> & Hid2).
  rewrite (bool_decide_true (is_Some (Some pc1))) by (by eexists).
  rewrite (bool_decide_true (is_Some (Some pc2))) by (by eexists).
  cbn [andb].
  unfold occupant. rewrite Hme.
  destruct (actingSlot _ _); cbn [fmap option_fmap option_map];
    rewrite ?E1, ?E2, ?Hid1, ?Hid2;
    case_bool_decide as Hturn.
  - rewrite bool_decide_true by congruence. cbn [negb].
    by rewrite _applyGuess_unfold.
  - rewrite bool_decide_false by congruence. done.
  - rewrite bool_decide_true by congruence. cbn [negb].
    by rewrite _applyGuess_unfold.
  - rewrite bool_decide_false by congruence. done.
Qed.

Lemma isOurTurn_iff_accepted_witness :
  CordleAreaController.isOurTurn
    (controllerOf (run easyTrace (new_CordleGame None)))
  = returns (applyMove {| player := "ann"; guessedWord := "APPLE";
                          guessNumber := GN1 |}
                       (run easyTrace (new_CordleGame None))).
Proof.
  apply (isOurTurn_iff_accepted None easyTrace).
  - reflexivity.
  - intros p [H|H]; vm_compute in H; injection H as <-; vm_compute; by eexists.
  - reflexivity.
Defined.

(** *** Sending a guess *)

(** X22.  [makeMove] sends a guess only when the model has a game in
    progress and the word has five letters and is in the dictionary; the
    guess carries our player and the number of guesses made plus one.  It
    does not look at the turn: the game, in the state of the model, accepts
    the guess or answers that it is not our turn, and a guess it accepts is
    numbered in order. *)
Theorem makeMove_sent (priorGame : option CordleGame) (cs : list Command)
    (this : CordleAreaController.t) (isRealWord : string -> bool)
    (guess : string) (c : InteractableCommand) :
  let g := run cs (new_CordleGame priorGame) in
  CordleAreaController._model_game_state this = Some (state g) ->
  CordleAreaController.makeMove isRealWord guess this = inr c ->
  length (guesses (state g)) < 6 ->
  exists move : CordleGuess,
    moveOf c = Some move
    /\ player move = PlayerController.id (CordleAreaController.ourPlayer this)
    /\ guessedWord move = guess
    /\ String.length guess = 5 /\ isRealWord guess = true
    /\ status (state g) = IN_PROGRESS
    /\ numberedInOrder [ApplyMove move] g = true
    /\ ((applyMove move g).1 = Normal tt
        \/ applyMove move g = (Throw MOVE_NOT_YOUR_TURN_MESSAGE, g)).
Proof.
  cbv zeta. intros Hmodel Hsent Hlt.
  set (g := run cs (new_CordleGame priorGame)) in *.
  unfold CordleAreaController.makeMove, CordleAreaController.guessCount in Hsent.
  rewrite Hmodel in Hsent.
  cbn [fmap option_fmap option_map default from_option id compose] in Hsent.
  destruct (negb (truthy _)); [done|]. cbn [orb] in Hsent.
  case_bool_decide as Hst; [|done]. cbn [negb] in Hsent.
  injection Hst as Hst.
  destruct (makeMove_wrongLength guess) eqn:Hlen; [done|].
  destruct (isRealWord guess) eqn:Hword; [|done]. cbn [negb] in Hsent.
  injection Hsent as <-.
  assert (Hnum : exists n, guessNumber_of (length (guesses (state g)) + 1) = Some n
                   /\ guessNumber_value n = length (guesses (state g)) + 1).
  { destruct (length (guesses (state g))) as [|[|[|[|[|[|n]]]]]];
      [by eexists..|lia]. }
  destruct Hnum as (n & Hn & Hval).
  exists {| player := PlayerController.id (CordleAreaController.ourPlayer this);
            guessedWord := guess; guessNumber := n |}.
  cbn [moveOf]. rewrite Hn. split; [done|]. split; [done|]. split; [done|].
  split.
  { unfold makeMove_wrongLength in Hlen.
    apply negb_false_iff, Nat.eqb_eq in Hlen. done. }
  split; [done|]. split; [done|]. split.
  - cbn [numberedInOrder guessNumber]. rewrite Hval, Nat.eqb_refl.
    by destruct (returns _).
  - rewrite applyMove_unfold, (bool_decide_true _ Hst). cbn [negb].
    case_bool_decide; cbn [negb]; [left|by right].
    by rewrite _applyGuess_unfold.
Qed.

Lemma makeMove_sent_witness :
  exists move : CordleGuess,
    moveOf (GameMove "game-1" "ann" "APPLE" 1) = Some move
    /\ numberedInOrder [ApplyMove move] (run easyTrace (new_CordleGame None))
       = true.
Proof.
  destruct (makeMove_sent None easyTrace
              (controllerOf (run easyTrace (new_CordleGame None)))
              anyWord "APPLE" (GameMove "game-1" "ann" "APPLE" 1))
    as (move & Hmove & _ & _ & _ & _ & _ & Hnum & _);
    [reflexivity|vm_compute; reflexivity|vm_compute; lia|].
  exact (ex_intro _ move (conj Hmove Hnum)).
Defined.

(** *** The board *)

Lemma inOrder_after (c : Command) (this : CordleGame) :
  inOrder (guesses (state this)) ->
  numberedInOrder [c] this = true ->
  inOrder (guesses (state (after c this))).
Proof.
  intros Hord Hnum.
  destruct c as [p|p|w p|d|move].
  - by destruct (join_effect p this) as (-> & _).
  - by destruct (leave_effect p this) as (-> & _).
  - by destruct (start_effect w p this) as (-> & _).
  - by destruct (setDifficulty_effect d this) as (-> & _).
  - cbn in Hnum. rewrite andb_true_r in Hnum.
    destruct (returns (applyMove move this)) eqn:Hret;
      [|by rewrite applyMove_rejected].
    cbn in Hnum. apply Nat.eqb_eq in Hnum.
    destruct (applyMove_accepted move this Hret) as (_ & _ & -> & _).
    intros k guess Hk. apply lookup_app_Some in Hk as [Hk|[Hge Hk]].
    + by apply Hord.
    + apply list_lookup_singleton_Some in Hk as [Hk ->]. lia.
Qed.

Lemma inOrder_run (cs : list Command) (this : CordleGame) :
  inOrder (guesses (state this)) -> numberedInOrder cs this = true ->
  inOrder (guesses (state (run cs this))).
Proof.
  revert this. induction cs as [|c cs IH]; intros this Hinv Hnum; [done|].
  cbn in Hnum. apply andb_prop in Hnum as [Hc Hcs].
  apply IH; [|done]. apply inOrder_after; [done|].
  cbn. by rewrite Hc.
Qed.

Lemma guessNumber_value_le (n : CordleGuessNumber) :
  1 <= guessNumber_value n <= 6.
Proof. destruct n; cbn; lia. Qed.

Lemma inOrder_length (gs : list CordleGuess) : inOrder gs -> length gs <= 6.
Proof.
  intros Hord. destruct (decide (length gs <= 6)) as [|Hlong]; [done|].
  destruct (lookup_lt_is_Some_2 gs 6) as [guess Hguess]; [lia|].
  pose proof (Hord 6 guess Hguess).
  pose proof (guessNumber_value_le (guessNumber guess)). lia.
Qed.

Lemma newBoard_snoc (gs : list CordleGuess) (guess : CordleGuess) :
  CordleAreaController.newBoard (gs ++ [guess])
  = js_set (CordleAreaController.newBoard gs)
           (guessNumber_value (guessNumber guess) - 1) guess.
Proof. unfold CordleAreaController.newBoard. by rewrite fold_left_app. Qed.

(** The board built from guesses numbered in order: the guesses, in their
    order, then [undefined] up to six. *)
Lemma newBoard_inOrder (gs : list CordleGuess) :
  inOrder gs ->
  CordleAreaController.newBoard gs
  = (Some <$> gs) ++ replicate (6 - length gs) None.
Proof.
  induction gs as [|guess gs IH] using rev_ind; intros Hord; [done|].
  pose proof (inOrder_length _ Hord) as Hlen.
  rewrite length_app in Hlen. cbn [length] in Hlen.
  rewrite newBoard_snoc, IH.
  2:{ intros k g Hk. apply Hord. by apply lookup_app_l_Some. }
  rewrite (Hord (length gs) guess).
  2:{ by rewrite lookup_app_r, Nat.sub_diag. }
  replace (length gs + 1 - 1) with (length gs) by lia.
  replace (6 - length gs) with (S (6 - length (gs ++ [guess])))
    by (rewrite length_app; cbn [length]; lia).
  cbn [replicate].
  rewrite (js_set_middle (Some <$> gs) _ None) by (by rewrite length_fmap).
  by rewrite fmap_app, <- app_assoc.
Qed.

(** X23.  When the guesses of a game were numbered in order, the board that
    the controller builds from its state shows them in their order: the
    guess [k + 1] at index [k], and [undefined] from there up to six. *)
Theorem board_shows_guesses (priorGame : option CordleGame) (cs : list Command) :
  numberedInOrder cs (new_CordleGame priorGame) = true ->
  let gs := guesses (state (run cs (new_CordleGame priorGame))) in
  length gs <= 6
  /\ CordleAreaController.newBoard gs
     = (Some <$> gs) ++ replicate (6 - length gs) None
  /\ forall k : nat, js_get (CordleAreaController.newBoard gs) k = gs !! k.
Proof.
  intros Hnum. cbv zeta.
  assert (Hord : inOrder (guesses (state (run cs (new_CordleGame priorGame)))))
    by (by apply inOrder_run).
  split; [by apply inOrder_length|]. split; [by apply newBoard_inOrder|].
  intros k. rewrite newBoard_inOrder by done. unfold js_get.
  destruct (decide (k < length (guesses (state (run cs (new_CordleGame priorGame))))))
    as [Hk|Hk].
  - rewrite lookup_app_l by (by rewrite length_fmap).
    rewrite list_lookup_fmap. by destruct (_ !! k).
  - rewrite lookup_app_r by (rewrite length_fmap; lia).
    rewrite (lookup_ge_None_2 (guesses _)) by lia.
    destruct (replicate _ _ !! _) as [slot|] eqn:E; [|done].
    by apply lookup_replicate in E as [-> _].
Qed.

Lemma board_shows_guesses_witness :
  js_get (CordleAreaController.newBoard
            (guesses (state (run drawTrace (new_CordleGame None))))) 4
  = guesses (state (run drawTrace (new_CordleGame None))) !! 4.
Proof.
  refine (proj2 (proj2 (board_shows_guesses None drawTrace _)) 4).
  vm_compute. reflexivity.
Defined.

(** *** The evaluated rows *)

Lemma js_get_set_ne {A} (a : JSArray A) (i j : nat) (v : A) :
  i <> j -> js_get (js_set a i v) j = js_get a j.
Proof.
  intros Hij. unfold js_get, js_set. case_decide as Hi.
  - by rewrite list_lookup_insert_ne.
  - destruct (decide (j < length a)) as [Hj|Hj].
    + by rewrite lookup_app_l.
    + rewrite lookup_app_r by lia. rewrite (lookup_ge_None_2 a) by lia.
      destruct (decide (j - length a < i - length a)) as [Hlt|Hge].
      * rewrite lookup_app_l by (by rewrite length_replicate).
        by rewrite lookup_replicate_2.
      * rewrite lookup_app_r by (rewrite length_replicate; lia).
        rewrite length_replicate.
        destruct (j - length a - (i - length a)) as [|m] eqn:E; [lia|done].
Qed.

Lemma js_set_length_lt {A} (a : JSArray A) (i : nat) (v : A) :
  i < length a -> length (js_set a i v) = length a.
Proof. intros Hi. unfold js_set. rewrite decide_True by done. apply length_insert. Qed.

Lemma js_get_snoc {A} (a : JSArray A) (slot : option A) (j : nat) :
  js_get (a ++ [slot]) j
  = if decide (j = length a) then slot else js_get a j.
Proof.
  unfold js_get. case_decide as Hj.
  - subst j. by rewrite lookup_app_r, Nat.sub_diag.
  - destruct (decide (j < length a)).
    + by rewrite lookup_app_l.
    + rewrite lookup_app_r by lia. rewrite (lookup_ge_None_2 a) by lia.
      destruct (j - length a) as [|m] eqn:E; [lia|done].
Qed.

Lemma copyRow_snoc (k : nat) (row : JSArray CordleCell) (slot : option CordleCell)
    (acc : option (JSArray (JSArray CordleCell))) :
  CordleAreaController.copyRow k (row ++ [slot]) acc
  = match slot with
    | Some c =>
        rows ← CordleAreaController.copyRow k row acc;
        target ← js_get rows k;
        Some (js_set rows k (js_set target (length row) c))
    | None => CordleAreaController.copyRow k row acc
    end.
Proof.
  unfold CordleAreaController.copyRow.
  rewrite imap_app, fold_left_app. cbn [imap fold_left compose snd fst].
  rewrite Nat.add_0_r. by destruct slot.
Qed.

(** Copying a row into the rows: the cells of the row overwrite those of
    row [k], and nothing else changes. *)
Lemma copyRow_cells (k : nat) (rows0 : JSArray (JSArray CordleCell))
    (row : JSArray CordleCell) :
  k < length rows0 -> is_Some (js_get rows0 k) ->
  exists rows1,
    CordleAreaController.copyRow k row (Some rows0) = Some rows1
    /\ length rows1 = length rows0
    /\ (forall k', is_Some (js_get rows0 k') -> is_Some (js_get rows1 k'))
    /\ forall k' j,
         cellAt rows1 k' j
         = if decide (k' = k)
           then match js_get row j with
                | Some c => Some c
                | None => cellAt rows0 k j
                end
           else cellAt rows0 k' j.
Proof.
  intros Hk Hrow. induction row as [|slot row IH] using rev_ind.
  - exists rows0. split; [done|]. split; [done|]. split; [done|].
    intros k' j. case_decide as E; [by subst|done].
  - destruct IH as (rows1 & Hcopy & Hlen & Hdef & Hcells).
    rewrite copyRow_snoc, Hcopy. destruct slot as [c|].
    + cbn [mbind option_bind]. destruct (Hdef k Hrow) as [target Htarget].
      rewrite Htarget. cbn [mbind option_bind]. eexists. split; [done|].
      split; [by rewrite js_set_length_lt by lia|].
      split.
      { intros k' Hk'. destruct (decide (k' = k)) as [->|Hne].
        - rewrite js_get_set_eq. by eexists.
        - rewrite js_get_set_ne by done. by apply Hdef. }
      intros k' j. unfold cellAt at 1.
      destruct (decide (k' = k)) as [->|Hne].
      * rewrite js_get_set_eq. cbn [mbind option_bind].
        rewrite js_get_snoc.
        specialize (Hcells k j). rewrite decide_True in Hcells by done.
        unfold cellAt at 1 in Hcells. rewrite Htarget in Hcells.
        cbn [mbind option_bind] in Hcells.
        case_decide as Hj.
        -- subst j. by rewrite js_get_set_eq.
        -- rewrite js_get_set_ne by done. done.
      * rewrite js_get_set_ne by done.
        specialize (Hcells k' j). by rewrite decide_False in Hcells.
    + exists rows1. split; [done|]. split; [done|]. split; [done|].
      intros k' j. rewrite (Hcells k' j). case_decide; [|done].
      rewrite js_get_snoc. case_decide as Hj; [|done].
      subst j. by rewrite js_get_beyond.
Qed.

Lemma newGuessesEvaluated_snoc (ge : JSArray (JSArray CordleCell))
    (slot : option (JSArray CordleCell)) :
  CordleAreaController.newGuessesEvaluated (ge ++ [slot])
  = match slot with
    | Some row =>
        CordleAreaController.copyRow (length ge) row
          (CordleAreaController.newGuessesEvaluated ge)
    | None => CordleAreaController.newGuessesEvaluated ge
    end.
Proof.
  unfold CordleAreaController.newGuessesEvaluated.
  rewrite imap_app, fold_left_app. cbn [imap fold_left compose snd fst].
  rewrite Nat.add_0_r. by destruct slot.
Qed.

Lemma cellAt_beyond (rows : JSArray (JSArray CordleCell)) (k j : nat) :
  length rows <= k -> cellAt rows k j = None.
Proof. intros Hk. unfold cellAt. by rewrite js_get_beyond. Qed.

(** The rows built from at most six rows: six rows, that show the cells of
    the rows given. *)
Lemma newGuessesEvaluated_cells (ge : JSArray (JSArray CordleCell)) :
  length ge <= 6 ->
  exists rows,
    CordleAreaController.newGuessesEvaluated ge = Some rows
    /\ length rows = 6
    /\ (forall k, k < 6 -> is_Some (js_get rows k))
    /\ forall k j, cellAt rows k j = cellAt ge k j.
Proof.
  induction ge as [|slot ge IH] using rev_ind; intros Hlen.
  - exists CordleAreaController.createEmptyGuessesEvaluated.
    split; [done|]. split; [done|]. split.
    + intros k Hk. do 6 (destruct k as [|k]; [by eexists|]). lia.
    + intros k j. rewrite (cellAt_beyond []) by (cbn; lia).
      do 6 (destruct k as [|k];
            [do 5 (destruct j as [|j]; [done|]); done|]).
      done.
  - rewrite length_app in Hlen. cbn [length] in Hlen.
    destruct IH as (rows & Hnew & Hsix & Hdef & Hcells); [lia|].
    rewrite newGuessesEvaluated_snoc, Hnew.
    assert (Hlast : forall k j,
               cellAt (ge ++ [slot]) k j
               = if decide (k = length ge) then slot ≫= (fun row => js_get row j)
                 else cellAt ge k j).
    { intros k j. unfold cellAt. rewrite js_get_snoc.
      by case_decide. }
    destruct slot as [row|].
    + destruct (copyRow_cells (length ge) rows row)
        as (rows1 & Hcopy & Hlen1 & Hdef1 & Hcells1);
        [lia|apply Hdef; lia|].
      exists rows1. split; [done|]. split; [lia|].
      split; [intros k Hk; by apply Hdef1, Hdef|].
      intros k j. rewrite Hcells1, Hlast, !Hcells.
      case_decide as Hk; [|done]. cbn [mbind option_bind].
      rewrite (cellAt_beyond ge) by lia. by destruct (js_get row j).
    + exists rows. split; [done|]. split; [done|]. split; [done|].
      intros k j. rewrite Hcells, Hlast. case_decide as Hk; [|done].
      subst k. cbn [mbind option_bind]. by apply cellAt_beyond.
Qed.

(** X24.  From the rows of a game whose guesses were numbered in order the
    controller builds six rows without error, and they show the cells of the
    game: the colours of the guess [k + 1] in row [k], [undefined]
    elsewhere. *)
Theorem rows_show_colours (priorGame : option CordleGame) (cs : list Command) :
  numberedInOrder cs (new_CordleGame priorGame) = true ->
  let s := state (run cs (new_CordleGame priorGame)) in
  exists rows,
    CordleAreaController.newGuessesEvaluated (guessesEvaluated s) = Some rows
    /\ length rows = 6
    /\ (forall k, k < 6 -> is_Some (js_get rows k))
    /\ forall k j, cellAt rows k j = cellAt (guessesEvaluated s) k j.
Proof.
  intros Hnum. cbv zeta. apply newGuessesEvaluated_cells.
  assert (Hrows : rowsInStep (run cs (new_CordleGame priorGame))).
  { apply rowsInStep_run; [|done]. split; [constructor|done]. }
  destruct Hrows as [_ ->]. apply inOrder_length. by apply inOrder_run.
Qed.

Lemma rows_show_colours_witness :
  exists rows,
    CordleAreaController.newGuessesEvaluated
      (guessesEvaluated (state (run drawTrace (new_CordleGame None))))
    = Some rows
    /\ length rows = 6.
Proof.
  destruct (rows_show_colours None drawTrace) as (rows & Hrows & Hlen & _);
    [vm_compute; reflexivity|].
  exact (ex_intro _ rows (conj Hrows Hlen)).
Defined.

(** *** Updating the board *)

Lemma guessColors_first (cordle : option string) (G : string) :
  G <> "" -> is_Some (js_get (guessColors cordle G) 0).
Proof.
  intros HG.
  change (guessColors cordle G) with (guessColors (Some (default "" cordle)) G).
  rewrite guessColors_colorRow, js_get_fmap_Some.
  apply lookup_lt_is_Some_2. rewrite colorRow_length.
  destruct G; [done|cbn; lia].
Qed.

(** X25.  The update of the controller after a guess.  The controller shows
    the state of a game whose guesses were numbered in order, and the game
    accepts one more guess, numbered in order too.  On the new state,
    [_updateFrom] installs the new board and the new rows and emits
    [boardChanged] once; unless the guess has no letter: its row is empty,
    the rows do not change, and the controller keeps its board though the
    guess is in the game. *)
Theorem update_after_guess (priorGame : option CordleGame) (cs : list Command)
    (move : CordleGuess) (this : CordleAreaController.t) :
  let g := run cs (new_CordleGame priorGame) in
  let g' := after (ApplyMove move) g in
  let board' := CordleAreaController.newBoard (guesses (state g')) in
  numberedInOrder cs (new_CordleGame priorGame) = true ->
  numberedInOrder [ApplyMove move] g = true ->
  returns (applyMove move g) = true ->
  CordleAreaController._board this
  = CordleAreaController.newBoard (guesses (state g)) ->
  CordleAreaController.newGuessesEvaluated (guessesEvaluated (state g))
  = Some (CordleAreaController._guessesEvaulated this) ->
  exists rows',
    CordleAreaController.newGuessesEvaluated (guessesEvaluated (state g'))
    = Some rows'
    /\ board' <> CordleAreaController._board this
    /\ CordleAreaController._updateFrom_board (Some (state g')) this
       = if bool_decide (guessedWord move = "") then Some (this, [])
         else Some ({| CordleAreaController._model_game_state :=
                         CordleAreaController._model_game_state this;
                       CordleAreaController.occupants :=
                         CordleAreaController.occupants this;
                       CordleAreaController.ourPlayer :=
                         CordleAreaController.ourPlayer this;
                       CordleAreaController._instanceID :=
                         CordleAreaController._instanceID this;
                       CordleAreaController._board := board';
                       CordleAreaController._guessesEvaulated := rows' |},
                    [boardChanged board' rows']).
Proof.
  cbv zeta. intros Hcs Hmove Hret Hboard Hrows.
  set (g := run cs (new_CordleGame priorGame)) in *.
  assert (Hord : inOrder (guesses (state g))) by (by apply inOrder_run).
  assert (Hstep : rowsInStep g).
  { apply rowsInStep_run; [|done]. split; [constructor|done]. }
  pose proof (inOrder_after _ _ Hord Hmove) as Hord'.
  pose proof (rowsInStep_after _ _ Hstep Hmove) as Hstep'.
  destruct Hstep as [_ Hlen]. destruct Hstep' as [_ Hlen'].
  destruct (applyMove_accepted move g Hret) as (_ & _ & Hgs & Hge & _).
  cbn in Hmove. rewrite Hret, andb_true_r in Hmove. cbn in Hmove.
  apply Nat.eqb_eq in Hmove.
  rewrite js_set_end in Hge by lia.
  set (n := length (guesses (state g))) in *.
  assert (Hn : n < 6).
  { pose proof (inOrder_length _ Hord') as H6.
    rewrite Hgs, length_app in H6. cbn [length] in H6. lia. }
  assert (Hdiff : CordleAreaController.newBoard (guesses (state (after (ApplyMove move) g)))
                  <> CordleAreaController._board this).
  { rewrite Hboard. intros E. apply (f_equal (fun b => js_get b n)) in E.
    rewrite !newBoard_inOrder in E by done.
    rewrite Hgs, fmap_app in E. cbn [fmap list_fmap] in E.
    rewrite <- app_assoc in E. cbn [app] in E.
    rewrite js_get_middle in E by (by rewrite length_fmap).
    unfold js_get in E. rewrite lookup_app_r in E by (by rewrite length_fmap).
    rewrite length_fmap, Nat.sub_diag in E.
    fold n in E. destruct (6 - n) as [|m] eqn:E6; [lia|]. done. }
  unfold CordleAreaController._updateFrom_board.
  rewrite Hge, newGuessesEvaluated_snoc, Hrows.
  destruct (decide (guessedWord move = "")) as [Hword|Hword].
  - rewrite (bool_decide_true _ Hword).
    rewrite Hword, guessColors_empty.
    cbn [CordleAreaController.copyRow imap fold_left].
    exists (CordleAreaController._guessesEvaulated this).
    split; [done|]. split; [done|]. cbn [mbind option_bind].
    rewrite (bool_decide_true (_ = _ :> JSArray (JSArray CordleCell))) by done.
    by rewrite andb_false_r.
  - rewrite (bool_decide_false _ Hword).
    destruct (newGuessesEvaluated_cells (guessesEvaluated (state g)))
      as (rows & Hnew & Hsix & Hdef & Hcells); [lia|].
    rewrite Hrows in Hnew. injection Hnew as <-.
    destruct (copyRow_cells (length (guessesEvaluated (state g)))
                (CordleAreaController._guessesEvaulated this)
                (guessColors (cordle (state g)) (guessedWord move)))
      as (rows' & Hcopy & _ & _ & Hcells'); [lia|apply Hdef; lia|].
    exists rows'. split; [done|]. split; [done|].
    rewrite Hcopy. cbn [mbind option_bind].
    rewrite (bool_decide_false _ Hdiff).
    rewrite bool_decide_false; [done|].
    intros E. specialize (Hcells' (length (guessesEvaluated (state g))) 0).
    rewrite decide_True in Hcells' by done.
    destruct (guessColors_first (cordle (state g)) (guessedWord move) Hword)
      as [c Hc].
    rewrite Hc, E, Hcells, cellAt_beyond in Hcells' by lia. done.
Qed.

Lemma update_after_guess_witness :
  let g := run easyTrace (new_CordleGame None) in
  let move := {| player := "ann"; guessedWord := "APPLE"; guessNumber := GN1 |} in
  CordleAreaController.newBoard (guesses (state (after (ApplyMove move) g)))
  <> CordleAreaController.createEmptyBoard.
Proof.
  cbv zeta.
  destruct (update_after_guess None easyTrace
              {| player := "ann"; guessedWord := "APPLE"; guessNumber := GN1 |}
              (controllerOf (run easyTrace (new_CordleGame None))))
    as (rows' & _ & Hdiff & _);
    [vm_compute; reflexivity..|].
  exact Hdiff.
Defined.

(** *** Sending a start *)

(** X26.  [startGame] of the controller sends its command only when the
    model has a game that waits to start; the game, in the state of the
    model, then starts for our player or answers that he is not in the
    game, never that the game is not startable. *)
Theorem startGame_sent (this : CordleAreaController.t) (g : CordleGame)
    (difficulty : CordleDifficulty) (c : InteractableCommand)
    (w : WordsFile -> string) :
  let me := PlayerController.id (CordleAreaController.ourPlayer this) in
  CordleAreaController._model_game_state this = Some (state g) ->
  CordleAreaController.startGame difficulty this = inr c ->
  (exists gameID : string,
      CordleAreaController._instanceID this = Some gameID
      /\ c = StartCordleGame gameID difficulty)
  /\ status (state g) = WAITING_TO_START
  /\ (startGame w me g).1
     = if bool_decide (player1 (state g) = Some me \/ player2 (state g) = Some me)
       then Normal tt else Throw PLAYER_NOT_IN_GAME_MESSAGE.
Proof.
  cbv zeta. intros Hmodel Hsent.
  unfold CordleAreaController.startGame in Hsent. rewrite Hmodel in Hsent.
  cbn [fmap option_fmap option_map] in Hsent.
  destruct (CordleAreaController._instanceID this) as [gameID|] eqn:Hid;
    [|done].
  destruct (negb (truthy _)); [done|]. cbn [orb] in Hsent.
  case_bool_decide as Hst; [|done]. cbn [negb] in Hsent.
  injection Hst as Hst. injection Hsent as <-.
  split; [by exists gameID|]. split; [done|].
  rewrite startGame_unfold. cbv zeta. rewrite (bool_decide_true _ Hst).
  cbn [negb].
  repeat case_bool_decide; cbn [negb andb fst]; try done; tauto.
Qed.

Lemma startGame_sent_witness :
  (startGame apple "ann" (run [Join "ann"; Join "bob"] (new_CordleGame None))).1
  = Normal tt.
Proof.
  refine (proj2 (proj2 (startGame_sent
                   (controllerOf (run [Join "ann"; Join "bob"]
                                      (new_CordleGame None)))
                   (run [Join "ann"; Join "bob"] (new_CordleGame None))
                   Easy (StartCordleGame "game-1" Easy) apple _ _)));
    vm_compute; reflexivity.
Defined.
